(** * battery: ring queue, routes, TCP framing, client request table, futures

    A shallow embedding of the parts of github.com/colin1989/battery that
    the specification makes checkable statements about, and the proofs of
    those statements.

    The first part holds the definitions, module by module as the
    repository has packages: the ring queue (queue/goring), routes
    (net/message) with the functions of Go's strings, utf8 and unicode
    packages they call, the TCP connection (net/acceptor), the client with
    its table of pending requests, and futures (actor).  The second part
    holds the proofs, in the same order.

    Conventions of the embedding.
    - Go's [int64] is a [Z] inside the range of [Int64]; every arithmetic
      operation of the source is followed by the wrap-around [Int64.wrap].
    - A Go panic (division by zero, index out of range, [make] with a
      negative length) is the result [None] of the error monad [option].
    - A slice is a [list]; reading and writing an element check the bounds
      as the Go runtime does. *)

From stdpp Require Import base option numbers list gmap strings.
From Stdlib Require Import ZArith Lia Ascii.

Local Open Scope Z_scope.

(** ** Machine integers *)

Module Int64.

Definition max_int : Z := 9223372036854775807.
Definition min_int : Z := -9223372036854775808.
Definition modulus : Z := 18446744073709551616.

(** Two's complement wrap-around of a mathematical integer. *)
Definition wrap (z : Z) : Z := (z - min_int) `mod` modulus + min_int.

Definition add (a b : Z) : Z := wrap (a + b).
Definition sub (a b : Z) : Z := wrap (a - b).
Definition mul (a b : Z) : Z := wrap (a * b).

(** Go's [%] truncates towards zero and panics on a zero divisor. *)
Definition rem (a b : Z) : option Z :=
  if decide (b = 0) then None else Some (wrap (a `rem` b)).

Definition in_range (z : Z) : Prop := min_int ≤ z ≤ max_int.

End Int64.

(** ** Zero values, slices and loops *)

(** Every Go type has a zero value, the value of [var t T]. *)
Class ZeroValue (T : Type) := zero : T.

#[global] Instance nat_zero : ZeroValue nat := 0%nat.
#[global] Instance Z_zero : ZeroValue Z := 0.
#[global] Instance bool_zero : ZeroValue bool := false.
#[global] Instance string_zero : ZeroValue string := String.EmptyString.

Section Slice.
Context `{ZeroValue T}.

(** [make([]T, n)]: a slice of [n] zero values; panics when [n] is
    negative. *)
Definition make (n : Z) : option (list T) :=
  if decide (n < 0) then None else Some (replicate (Z.to_nat n) zero).

(** [s[i]] as an expression. *)
Definition index (s : list T) (i : Z) : option T :=
  if decide (0 ≤ i) then s !! Z.to_nat i else None.

(** [s[i] = v]. *)
Definition store (s : list T) (i : Z) (v : T) : option (list T) :=
  if decide (0 ≤ i < Z.of_nat (length s)) then Some (<[Z.to_nat i := v]> s) else None.

End Slice.

(** [for i := lo; i < hi; i++ { body }] over a state [S], stopping at the
    first panic.  The counter stays below [hi], so [i++] cannot wrap. *)
Fixpoint for_from {S : Type} (n : nat) (i : Z) (body : Z → S → option S) (s : S)
  : option S :=
  match n with
  | O => Some s
  | Datatypes.S n' => s' ← body i s; for_from n' (i + 1) body s'
  end.

Definition for_range {S : Type} (lo hi : Z) (body : Z → S → option S) (s : S)
  : option S :=
  for_from (Z.to_nat (hi - lo)) lo body s.

(** ** queue/goring/queue.go *)

Module Goring.
Section Queue.
Context `{ZeroValue T}.

Record ringBuffer := RingBuffer {
  buffer : list T;
  head : Z;
  tail : Z;
  mod_ : Z
}.

Record Queue := MkQueue {
  len : Z;
  initialSize : Z;
  content : ringBuffer
}.

Definition New (initialSize : Z) : option Queue :=
  b ← make initialSize;
  Some {| len := 0;
          initialSize := initialSize;
          content := {| buffer := b; head := 0; tail := 0; mod_ := initialSize |} |}.

Definition grow (fillFactor : Z) (q : Queue) : option Queue :=
  let c := content q in
  let newLen := Int64.mul (mod_ c) fillFactor in
  newBuff ← make newLen;
  newBuff ← for_range 0 (mod_ c) (λ i newBuff,
               buffIndex ← Int64.rem (Int64.add (tail c) i) (mod_ c);
               v ← index (buffer c) buffIndex;
               store newBuff i v) newBuff;
  Some {| len := len q;
          initialSize := initialSize q;
          content := {| buffer := newBuff; head := 0; tail := mod_ c; mod_ := newLen |} |}.

Definition Push (item : T) (q : Queue) : option Queue :=
  let c := content q in
  t ← Int64.rem (Int64.add (tail c) 1) (mod_ c);
  let c := {| buffer := buffer c; head := head c; tail := t; mod_ := mod_ c |} in
  let q := {| len := len q; initialSize := initialSize q; content := c |} in
  q ← (if decide (tail c = head c) then grow 2 q else Some q);
  let n := Int64.add (len q) 1 in
  b ← store (buffer (content q)) (tail (content q)) item;
  Some {| len := n;
          initialSize := initialSize q;
          content := {| buffer := b; head := head (content q);
                        tail := tail (content q); mod_ := mod_ (content q) |} |}.

Definition Length (q : Queue) : Z := len q.

Definition Empty (q : Queue) : bool := bool_decide (Length q = 0).

Definition Pop (q : Queue) : option (T * bool * Queue) :=
  let t := zero in
  if Empty q then Some (t, false, q)
  else
    let c := content q in
    h ← Int64.rem (Int64.add (head c) 1) (mod_ c);
    res ← index (buffer c) h;
    b ← store (buffer c) h t;
    Some (res, true,
          {| len := Int64.add (len q) (-1);
             initialSize := initialSize q;
             content := {| buffer := b; head := h; tail := tail c; mod_ := mod_ c |} |}).

(** The returned slice is [None] for Go's [nil]. *)
Definition PopMany (count : Z) (q : Queue) : option (option (list T) * bool * Queue) :=
  if Empty q then Some (None, false, q)
  else
    let t := zero in
    let c := content q in
    let count := if decide (len q ≤ count) then len q else count in
    let n := Int64.add (len q) (Int64.sub 0 count) in
    buf ← make count;
    '(buf, cb) ← for_range 0 count (λ i '(buf, cb),
                   pos ← Int64.rem (Int64.add (Int64.add (head c) 1) i) (mod_ c);
                   v ← index cb pos;
                   buf ← store buf i v;
                   cb ← store cb pos t;
                   Some (buf, cb)) (buf, buffer c);
    h ← Int64.rem (Int64.add (head c) count) (mod_ c);
    Some (Some buf, true,
          {| len := n;
             initialSize := initialSize q;
             content := {| buffer := cb; head := h; tail := tail c; mod_ := mod_ c |} |}).

(** *** Representation invariant and abstraction *)

(** Largest modulus for which no index computation of the queue wraps:
    [2 ^ 62]. *)
Definition max_mod : Z := 4611686018427387904.

(** Buffer index of the [i]-th oldest element. The slot at [head] itself
    is never occupied. *)
Definition slot (c : ringBuffer) (i : Z) : Z := (head c + 1 + i) `mod` mod_ c.

(** The elements held by the queue, oldest first. *)
Definition contents (q : Queue) : list T :=
  (λ i : nat, default zero (buffer (content q) !! Z.to_nat (slot (content q) (Z.of_nat i))))
    <$> seq 0 (Z.to_nat (len q)).

Record wf (q : Queue) : Prop := Wf {
  wf_buffer : Z.of_nat (length (buffer (content q))) = mod_ (content q);
  wf_head : 0 ≤ head (content q) < mod_ (content q);
  wf_tail : 0 ≤ tail (content q) < mod_ (content q);
  wf_len : len q = (tail (content q) - head (content q)) `mod` mod_ (content q);
  wf_mod : mod_ (content q) ≤ max_mod
}.

(** [n] successive calls of [Pop], with the results in call order. *)
Fixpoint pops (n : nat) (q : Queue) : option (list (T * bool) * Queue) :=
  match n with
  | O => Some ([], q)
  | S n' =>
      '(v, ok, q1) ← Pop q;
      '(vs, q2) ← pops n' q1;
      Some ((v, ok) :: vs, q2)
  end.

Inductive op := OpPush (item : T) | OpPop.

(** A run of the queue under a sequence of operations; the results of the
    [Pop] calls are collected in call order. *)
Fixpoint run (ops : list op) (q : Queue) : option (list (T * bool) * Queue) :=
  match ops with
  | [] => Some ([], q)
  | OpPush x :: ops' => q1 ← Push x q; run ops' q1
  | OpPop :: ops' =>
      '(v, ok, q1) ← Pop q;
      '(vs, q2) ← run ops' q1;
      Some ((v, ok) :: vs, q2)
  end.

(** The specification's queue: a list with insertion at the back and
    removal at the front. [fifo ops l] gives the results of the [Pop]
    operations and the elements left. *)
Fixpoint fifo (ops : list op) (l : list T) : list (T * bool) * list T :=
  match ops with
  | [] => ([], l)
  | OpPush x :: ops' => fifo ops' (l ++ [x])
  | OpPop :: ops' =>
      match l with
      | [] => let '(vs, l') := fifo ops' [] in ((zero, false) :: vs, l')
      | y :: l1 => let '(vs, l') := fifo ops' l1 in ((y, true) :: vs, l')
      end
  end.

End Queue.
End Goring.

(** ** Go strings: the library functions [DecodeRoute] calls

    A Go string is a sequence of bytes; [string] is a list of 8-bit
    characters. Indices are byte offsets. *)

Module Utf8.

Definition RuneError : Z := 0xFFFD.
Definition RuneSelf : Z := 0x80.
Definition UTFMax : Z := 4.

(** [s[i]]; the callers stay inside the string. *)
Definition byte_at (s : string) (i : Z) : Z :=
  if decide (0 ≤ i) then
    match String.get (Z.to_nat i) s with
    | Some c => Z.of_N (Ascii.N_of_ascii c)
    | None => 0
    end
  else 0.

Definition len (s : string) : Z := Z.of_nat (String.length s).

(** The bytes of a string, as numbers. *)
Definition bytes (s : string) : list Z :=
  (λ c, Z.of_N (Ascii.N_of_ascii c)) <$> String.list_ascii_of_string s.

(** [s[lo:hi]] *)
Definition slice (s : string) (lo hi : Z) : string :=
  String.substring (Z.to_nat lo) (Z.to_nat (hi - lo)) s.

(** The tables [first] and [acceptRanges]: for a leading byte of a
    multi-byte sequence, its length and the range accepted for the second
    byte; [None] for a byte that starts no sequence. *)
Definition first (b : Z) : option (Z * Z * Z) :=
  if b <? 0xC2 then None
  else if b <? 0xE0 then Some (2, 0x80, 0xBF)
  else if b =? 0xE0 then Some (3, 0xA0, 0xBF)
  else if b <? 0xED then Some (3, 0x80, 0xBF)
  else if b =? 0xED then Some (3, 0x80, 0x9F)
  else if b <? 0xF0 then Some (3, 0x80, 0xBF)
  else if b =? 0xF0 then Some (4, 0x90, 0xBF)
  else if b <? 0xF4 then Some (4, 0x80, 0xBF)
  else if b =? 0xF4 then Some (4, 0x80, 0x8F)
  else None.

Definition locb : Z := 0x80.
Definition hicb : Z := 0xBF.
Definition maskx : Z := 0x3F.
Definition mask2 : Z := 0x1F.
Definition mask3 : Z := 0x0F.
Definition mask4 : Z := 0x07.

(** [utf8.DecodeRuneInString]: the first rune of [s] and its width; an
    invalid or truncated encoding is [RuneError] of width 1. *)
Definition DecodeRuneInString (s : string) : Z * Z :=
  let n := len s in
  if n <? 1 then (RuneError, 0) else
  let s0 := byte_at s 0 in
  if s0 <? RuneSelf then (s0, 1) else
  match first s0 with
  | None => (RuneError, 1)
  | Some (sz, lo, hi) =>
      if n <? sz then (RuneError, 1) else
      let s1 := byte_at s 1 in
      if (s1 <? lo) || (hi <? s1) then (RuneError, 1) else
      if sz <=? 2 then
        (Z.lor (Z.shiftl (Z.land s0 mask2) 6) (Z.land s1 maskx), 2)
      else
      let s2 := byte_at s 2 in
      if (s2 <? locb) || (hicb <? s2) then (RuneError, 1) else
      if sz <=? 3 then
        (Z.lor (Z.lor (Z.shiftl (Z.land s0 mask3) 12) (Z.shiftl (Z.land s1 maskx) 6))
               (Z.land s2 maskx), 3)
      else
      let s3 := byte_at s 3 in
      if (s3 <? locb) || (hicb <? s3) then (RuneError, 1) else
      (Z.lor (Z.lor (Z.lor (Z.shiftl (Z.land s0 mask4) 18) (Z.shiftl (Z.land s1 maskx) 12))
                    (Z.shiftl (Z.land s2 maskx) 6))
             (Z.land s3 maskx), 4)
  end.

(** [utf8.RuneStart]: not a continuation byte. *)
Definition RuneStart (b : Z) : bool := negb (Z.land b 0xC0 =? 0x80).

(** The backward scan of [DecodeLastRuneInString] for a leading byte, at
    most [UTFMax] bytes back. *)
Fixpoint scan_start (fuel : nat) (s : string) (lim start : Z) : Z :=
  match fuel with
  | O => start
  | S fuel' =>
      if start <? lim then start
      else if RuneStart (byte_at s start) then start
      else scan_start fuel' s lim (start - 1)
  end.

(** [utf8.DecodeLastRuneInString]: the last rune of [s] and its width. *)
Definition DecodeLastRuneInString (s : string) : Z * Z :=
  let end_ := len s in
  if end_ =? 0 then (RuneError, 0) else
  let start := end_ - 1 in
  let r := byte_at s start in
  if r <? RuneSelf then (r, 1) else
  let lim := end_ - UTFMax in
  let lim := if lim <? 0 then 0 else lim in
  let start := scan_start (Z.to_nat UTFMax) s lim (start - 1) in
  let start := if start <? 0 then 0 else start in
  let '(r, size) := DecodeRuneInString (slice s start end_) in
  if negb (start + size =? end_) then (RuneError, 1) else (r, size).

End Utf8.

Module Unicode.

(** [unicode.IsSpace]: the Latin-1 spaces and the code points with the
    White_Space property. *)
Definition IsSpace (r : Z) : bool :=
  if r <=? 0xFF then
    (r =? 0x09) || (r =? 0x0A) || (r =? 0x0B) || (r =? 0x0C) || (r =? 0x0D) ||
    (r =? 0x20) || (r =? 0x85) || (r =? 0xA0)
  else
    (r =? 0x1680) || ((0x2000 <=? r) && (r <=? 0x200A)) || (r =? 0x2028) ||
    (r =? 0x2029) || (r =? 0x202F) || (r =? 0x205F) || (r =? 0x3000).

End Unicode.

Module Strings.
Import Utf8.

(** [strings.Split(s, sep)] for a separator of one byte: [s] is cut at
    every occurrence of the byte; without any, the result is [[s]]. *)
Fixpoint Split (s : string) (sep : Ascii.ascii) : list string :=
  match s with
  | String.EmptyString => [String.EmptyString]
  | String.String c s' =>
      if Ascii.eqb c sep then String.EmptyString :: Split s' sep
      else match Split s' sep with
           | x :: xs => String.String c x :: xs
           | [] => [String.String c String.EmptyString]
           end
  end.

(** [strings.IndexByte(s, c) >= 0]: the byte occurs in [s]. *)
Fixpoint ContainsByte (s : string) (c : Ascii.ascii) : bool :=
  match s with
  | String.EmptyString => false
  | String.String c' s' => Ascii.eqb c' c || ContainsByte s' c
  end.

(** [strings.Join(elems, sep)] *)
Fixpoint Join (elems : list string) (sep : string) : string :=
  match elems with
  | [] => String.EmptyString
  | [x] => x
  | x :: xs => x +:+ sep +:+ Join xs sep
  end.

(** The table [asciiSpace]. *)
Definition asciiSpace (c : Z) : bool :=
  (c =? 0x09) || (c =? 0x0A) || (c =? 0x0B) || (c =? 0x0C) || (c =? 0x0D) || (c =? 0x20).

(** [indexFunc]: offset of the first rune [r] from offset [i] on with
    [f r = truth], or [None] for -1. *)
Fixpoint indexFunc_from (fuel : nat) (s : string) (i : Z) (f : Z → bool) (truth : bool)
  : option Z :=
  match fuel with
  | O => None
  | S fuel' =>
      if len s <=? i then None
      else
        let '(r, size) := DecodeRuneInString (slice s i (len s)) in
        if Bool.eqb (f r) truth then Some i
        else indexFunc_from fuel' s (i + size) f truth
  end.

Definition indexFunc (s : string) (f : Z → bool) (truth : bool) : option Z :=
  indexFunc_from (String.length s) s 0 f truth.

(** [lastIndexFunc]: offset of the last rune [r] before offset [i] with
    [f r = truth], or [None] for -1. *)
Fixpoint lastIndexFunc_from (fuel : nat) (s : string) (i : Z) (f : Z → bool) (truth : bool)
  : option Z :=
  match fuel with
  | O => None
  | S fuel' =>
      if i <=? 0 then None
      else
        let '(r, size) := DecodeLastRuneInString (slice s 0 i) in
        let i := i - size in
        if Bool.eqb (f r) truth then Some i
        else lastIndexFunc_from fuel' s i f truth
  end.

Definition lastIndexFunc (s : string) (f : Z → bool) (truth : bool) : option Z :=
  lastIndexFunc_from (String.length s) s (len s) f truth.

(** The runes that [for _, r := range s] meets from offset [i] on. *)
Fixpoint runes_from (fuel : nat) (s : string) (i : Z) : list Z :=
  match fuel with
  | O => []
  | S fuel' =>
      if len s <=? i then []
      else
        let '(r, size) := DecodeRuneInString (slice s i (len s)) in
        r :: runes_from fuel' s (i + size)
  end.

Definition runes (s : string) : list Z := runes_from (String.length s) s 0.

(** Whether every rune of [s] from offset [i] on is white space. *)
Definition spaces_from (s : string) (i : Z) : bool :=
  forallb Unicode.IsSpace (runes_from (Z.to_nat (len s - i)) s i).

Definition TrimLeftFunc (s : string) (f : Z → bool) : string :=
  match indexFunc s f false with
  | None => String.EmptyString
  | Some i => slice s i (len s)
  end.

Definition TrimRightFunc (s : string) (f : Z → bool) : string :=
  match lastIndexFunc s f false with
  | Some i =>
      if RuneSelf <=? byte_at s i then
        let '(_, wid) := DecodeRuneInString (slice s i (len s)) in
        slice s 0 (i + wid)
      else slice s 0 (i + 1)
  | None => slice s 0 0
  end.

Definition TrimFunc (s : string) (f : Z → bool) : string :=
  TrimRightFunc (TrimLeftFunc s f) f.

(** The first loop of [TrimSpace]: [inl start] when the loop ends at
    [start], [inr i] when it meets a non-ASCII byte at [i]. *)
Fixpoint trim_start (fuel : nat) (s : string) (start : Z) : Z + Z :=
  match fuel with
  | O => inl start
  | S fuel' =>
      if len s <=? start then inl start
      else
        let c := byte_at s start in
        if RuneSelf <=? c then inr start
        else if negb (asciiSpace c) then inl start
        else trim_start fuel' s (start + 1)
  end.

(** The second loop of [TrimSpace], from the end down to [start]. *)
Fixpoint trim_stop (fuel : nat) (s : string) (start stop : Z) : Z + Z :=
  match fuel with
  | O => inl stop
  | S fuel' =>
      if stop <=? start then inl stop
      else
        let c := byte_at s (stop - 1) in
        if RuneSelf <=? c then inr stop
        else if negb (asciiSpace c) then inl stop
        else trim_stop fuel' s start (stop - 1)
  end.

(** [strings.TrimSpace]: [s] without its leading and trailing white space,
    as Unicode defines it. *)
Definition TrimSpace (s : string) : string :=
  match trim_start (String.length s) s 0 with
  | inr start => TrimFunc (slice s start (len s)) Unicode.IsSpace
  | inl start =>
      match trim_stop (String.length s) s start (len s) with
      | inr stop => TrimRightFunc (slice s start stop) Unicode.IsSpace
      | inl stop => slice s start stop
      end
  end.

End Strings.

(** ** net/message/route.go *)

Module Message.

Inductive error := ErrRouteFieldCantEmpty | ErrInvalidRoute.

Record Route := MkRoute {
  Service : string;
  Method : string
}.

Definition NewRoute (service method : string) : Route :=
  {| Service := service; Method := method |}.

#[global] Instance Route_zero : ZeroValue Route :=
  {| Service := String.EmptyString; Method := String.EmptyString |}.

(** [Route.String]; [fmt.Sprintf("%s.%s", a, b)] is [a], a dot and [b]. *)
Definition String_ (r : Route) : string :=
  if negb (String.eqb (Service r) "") then Service r +:+ "." +:+ Method r
  else Method r.

Definition Short (r : Route) : string := Service r +:+ "." +:+ Method r.

(** The loop over the fields of [DecodeRoute]: [true] when it returns. *)
Fixpoint field_empty (r : list string) : bool :=
  match r with
  | [] => false
  | s :: r' => if String.eqb (Strings.TrimSpace s) "" then true else field_empty r'
  end.

Definition DecodeRoute (route : string) : Route * option error :=
  let r := Strings.Split route "."%char in
  if field_empty r then (zero, Some ErrRouteFieldCantEmpty)
  else
    match r with
    | [r0; r1] => (NewRoute r0 r1, None)
    | [r0] => (NewRoute "" r0, None)
    | _ => (zero, Some ErrInvalidRoute)
    end.

(** A field is blank when it is empty or consists of white space only:
    every rune of it is white space. *)
Definition blank (s : string) : Prop :=
  forallb Unicode.IsSpace (Strings.runes s) = true.

End Message.

(** ** net/codec: the packet header

    The package is not among the sources; [TCPConn.GetNextMessage] uses its
    constant [HeadLength] and its function [ParseHeader]. *)

Module Codec.

(** Modelled from the spec: the errors of the missing [ParseHeader]; the
    specification names a header that is not 4 bytes long, an unknown packet
    type and a payload length over the maximum. *)
Inductive error := ErrInvalidHeader | ErrWrongPacketType | ErrPacketSizeExceed.

(** Modelled from the spec: the missing constant [codec.HeadLength]; the
    header is 4 bytes. *)
Definition HeadLength : Z := 4.

(** Modelled from the spec: the missing maximum payload length,
    16 MiB − 1. *)
Definition MaxPacketSize : Z := 16777215.

Definition byte_val (b : Byte.byte) : Z := Z.of_N (Byte.to_N b).

(** Big-endian value of a byte sequence. *)
Definition BytesToInt (b : list Byte.byte) : Z :=
  foldl (λ acc x, acc * 256 + byte_val x) 0 b.

(** Modelled from the spec: the missing [codec.ParseHeader]. Byte 0 of the
    header is the packet type (1..5), bytes 1..3 are the payload length in
    big endian; it returns the type, the length and an error. *)
Definition ParseHeader (header : list Byte.byte) : Z * Z * option error :=
  if decide (Z.of_nat (length header) ≠ HeadLength) then (0, 0, Some ErrInvalidHeader)
  else
    match header with
    | typ :: rest =>
        if decide (byte_val typ < 1 ∨ 5 < byte_val typ) then (0, 0, Some ErrWrongPacketType)
        else
          let size := BytesToInt rest in
          if decide (MaxPacketSize < size) then (0, 0, Some ErrPacketSizeExceed)
          else (byte_val typ, size, None)
    | [] => (0, 0, Some ErrInvalidHeader)
    end.

End Codec.

(** ** net/acceptor: [TCPConn.GetNextMessage] *)

Module Acceptor.

Inductive error :=
| ErrConnectionClosed
| ErrReceivedMsgSmallerThanExpected
| ErrCodec (e : Codec.error)
| ErrIO (code : Z).

(** How the byte stream of a connection ends: the peer closes it
    ([io.EOF]), a read fails, or no more bytes ever come while the
    connection stays open. *)
Inductive ending := EOF | Failed (code : Z) | Silent.

(** A connection, seen from the reader: the bytes still to come, and the
    way the stream ends after them. *)
Record Conn := MkConn {
  incoming : list Byte.byte;
  fate : ending
}.

(** [io.ReadAll(io.LimitReader(conn, n))]: reads until [n] bytes have come
    or the stream ends; the end of the stream is not an error, a failed
    read is. [None]: the call never returns. *)
Definition ReadAllLimit (n : Z) (c : Conn) : option (list Byte.byte * option error * Conn) :=
  if decide (n ≤ 0) then Some ([], None, c)
  else if decide (n ≤ Z.of_nat (length (incoming c))) then
    Some (take (Z.to_nat n) (incoming c), None,
          {| incoming := drop (Z.to_nat n) (incoming c); fate := fate c |})
  else
    match fate c with
    | EOF => Some (incoming c, None, {| incoming := []; fate := EOF |})
    | Failed code => Some (incoming c, Some (ErrIO code), {| incoming := []; fate := Failed code |})
    | Silent => None
    end.

(** The result of [GetNextMessage]: the bytes ([None] for the nil slice)
    and the error. *)
Definition GetNextMessage (tc : Conn) : option (option (list Byte.byte) * option error * Conn) :=
  '(header, err, tc) ← ReadAllLimit Codec.HeadLength tc;
  match err with
  | Some e => Some (None, Some e, tc)
  | None =>
      if decide (length header = 0%nat) then Some (None, Some ErrConnectionClosed, tc)
      else
        let '(_, size, err) := Codec.ParseHeader header in
        match err with
        | Some e => Some (None, Some (ErrCodec e), tc)
        | None =>
            '(data, err, tc) ← ReadAllLimit size tc;
            match err with
            | Some e => Some (None, Some e, tc)
            | None =>
                if decide (Z.of_nat (length data) < size)
                then Some (None, Some ErrReceivedMsgSmallerThanExpected, tc)
                else Some (Some (header ++ data), None, tc)
            end
        end
  end.

End Acceptor.

(** ** The client: pending requests, the reaper and the packet handler

    Each of [sendMsg], one iteration of [handlePackets] and one tick of
    [pendingRequestsReaper] is one step on the client state; the steps of
    the three goroutines interleave, and [pendingReqMutex] serializes their
    accesses to the table of pending requests.

    [IncomingMsgChan] is kept as the sequence of the messages sent on it,
    oldest first, together with the number [received] of them that the
    application has taken out; the channel holds the others, at most 10,
    and a send waits while it is full.  [pendingChan], which carries no
    data, is the number of tokens it holds.  A step is [None] when its
    goroutine cannot complete it from the state it starts in: it waits on
    a channel, for ever unless another goroutine acts on that channel, or
    it dereferences nil. *)

Module Client.

(** Modelled from the spec: the missing declaration of [packet.Type], with
    the five packet types of the specification. *)
Inductive PacketType := Handshake | HandshakeAck | Heartbeat | Data | Kick.

(** Modelled from the spec: the missing declaration of [packet.Packet]. *)
Record Packet := MkPacket {
  PType : PacketType;
  PData : list Byte.byte
}.

(** Modelled from the spec: the missing declaration of [message.Type]. *)
Inductive MsgType := Request | Notify | Response | Push.

#[global] Instance MsgType_eq_dec : EqDecision MsgType.
Proof. solve_decision. Defined.

(** Modelled from the spec: the missing declaration of [message.Message],
    with the fields that the client reads and writes. *)
Record Message := MkMessage {
  Type_ : MsgType;
  ID : Z;
  Route : Message.Route;
  MData : list Byte.byte;
  Err : bool
}.

(** Modelled from the spec: the missing error type of the root package, an
    error kind with a stable code. *)
Record BatteryError := MkBatteryError {
  Code : string;
  Cause : string
}.

(** Modelled from the spec: the missing [battery.Error(err, code)]. *)
Definition battery_Error (cause : string) (code : string) : BatteryError :=
  {| Code := code; Cause := cause |}.

Inductive error :=
| ErrRoute (e : Message.error)
| ErrEncode (code : Z)
| ErrWrite (code : Z).

Record pendingRequest := MkPendingRequest {
  msg : Message;
  sentAt : Z
}.

Record Client := MkClient {
  Connected : bool;
  IncomingMsgChan : list Message;
  received : nat;
  pendingChan : nat;
  pendingRequests : gmap Z pendingRequest;
  requestTimeout : Z;
  nextID : Z;
  written : list (list Byte.byte)
}.

(** Capacity of [pendingChan], the limit of requests in flight. *)
Definition pendingChan_cap : nat := 30.

(** Capacity of [IncomingMsgChan], from [make(chan *message.Message, 10)]
    in [ConnectTo] and [ConnectToWS]. *)
Definition IncomingMsgChan_cap : nat := 10.

(** The messages that wait in [IncomingMsgChan]: those sent and not yet
    received by the application. *)
Definition unread (c : Client) : nat := length (IncomingMsgChan c) - received c.

Definition second : Z := 1000000000.

(** [New], followed by the allocation of the channels in [ConnectTo]. *)
Definition New (requestTimeout : list Z) : Client :=
  let reqTimeout := 5 * second in
  let reqTimeout := match requestTimeout with t :: _ => t | [] => reqTimeout end in
  {| Connected := false;
     IncomingMsgChan := [];
     received := 0;
     pendingChan := 0;
     pendingRequests := ∅;
     requestTimeout := reqTimeout;
     nextID := 0;
     written := [] |}.

Definition Disconnect (c : Client) : Client :=
  if Connected c then
    {| Connected := false;
       IncomingMsgChan := IncomingMsgChan c;
       received := received c;
       pendingChan := pendingChan c;
       pendingRequests := pendingRequests c;
       requestTimeout := requestTimeout c;
       nextID := nextID c;
       written := written c |}
  else c.

(** [c.IncomingMsgChan <- m]; the send blocks while the channel holds
    [IncomingMsgChan_cap] messages. *)
Definition deliver (m : Message) (c : Client) : option Client :=
  if decide (unread c < IncomingMsgChan_cap)%nat then
    Some {| Connected := Connected c;
            IncomingMsgChan := IncomingMsgChan c ++ [m];
            received := received c;
            pendingChan := pendingChan c;
            pendingRequests := pendingRequests c;
            requestTimeout := requestTimeout c;
            nextID := nextID c;
            written := written c |}
  else None.

(** [<-c.MsgChannel()], the application takes the oldest message that
    waits in [IncomingMsgChan]; the receive blocks on an empty channel. *)
Definition receive (c : Client) : option (Message * Client) :=
  m ← IncomingMsgChan c !! received c;
  Some (m, {| Connected := Connected c;
              IncomingMsgChan := IncomingMsgChan c;
              received := S (received c);
              pendingChan := pendingChan c;
              pendingRequests := pendingRequests c;
              requestTimeout := requestTimeout c;
              nextID := nextID c;
              written := written c |}).

(** [delete(c.pendingRequests, id); <-c.pendingChan]; the receive blocks on
    an empty channel. *)
Definition forget (id : Z) (c : Client) : option Client :=
  match pendingChan c with
  | O => None
  | S tokens =>
      Some {| Connected := Connected c;
              IncomingMsgChan := IncomingMsgChan c;
              received := received c;
              pendingChan := tokens;
              pendingRequests := delete id (pendingRequests c);
              requestTimeout := requestTimeout c;
              nextID := nextID c;
              written := written c |}
  end.

Section Client.

(** The parts of the repository and of the Go library that the client calls
    and that are not among the sources: the JSON form of an error value,
    the message decoder (a message pointer, nil as [None], and an error),
    and the two encoders behind [buildPacket]. *)
Variable json_Marshal : BatteryError → list Byte.byte.
Variable Decode : list Byte.byte → option Message * option error.
Variable buildPacket : Message → list Byte.byte * option error.

(** The response that the reaper delivers for a request. *)
Definition timeoutResponse (pendingReq : pendingRequest) : Message :=
  let err := battery_Error "request timeout" "PIT-504" in
  let errMarshalled := json_Marshal err in
  {| Type_ := Response;
     ID := ID (msg pendingReq);
     Route := Route (msg pendingReq);
     MData := errMarshalled;
     Err := true |}.

(** The first loop of a tick.  [visits] lists the keys of the table in the
    order in which [range] meets them, each with the reading of
    [time.Now()] taken when its entry is examined. *)
Definition collect (c : Client) (visits : list (Z * Z)) : list pendingRequest :=
  foldl (λ toDelete '(k, now),
           match pendingRequests c !! k with
           | Some v =>
               if decide (now - sentAt v > requestTimeout c) then toDelete ++ [v]
               else toDelete
           | None => toDelete
           end) [] visits.

(** The entry of one visit that the first loop of a tick keeps. *)
Definition kept (c : Client) (visit : Z * Z) : option pendingRequest :=
  v ← pendingRequests c !! visit.1;
  if decide (visit.2 - sentAt v > requestTimeout c) then Some v else None.

(** The second loop of a tick. *)
Fixpoint reap (toDelete : list pendingRequest) (c : Client) : option Client :=
  match toDelete with
  | [] => Some c
  | pendingReq :: toDelete' =>
      let m := timeoutResponse pendingReq in
      c ← forget (ID (msg pendingReq)) c;
      c ← deliver m c;
      reap toDelete' c
  end.

(** One tick of [pendingRequestsReaper]. *)
Definition reaperTick (visits : list (Z * Z)) (c : Client) : option Client :=
  let toDelete := collect c visits in
  reap toDelete c.

(** One iteration of [handlePackets], for the packet [p] taken from
    [packetChan]. *)
Definition handlePacket (p : Packet) (c : Client) : option Client :=
  match PType p with
  | Data =>
      let '(m, err) := Decode (PData p) in
      match m with
      | None => None
      | Some m =>
          if decide (Type_ m = Response) then
            match pendingRequests c !! ID m with
            | Some _ => c ← forget (ID m) c; deliver m c
            | None => Some c
            end
          else deliver m c
      end
  | Kick => Some (Disconnect c)
  | _ => Some c
  end.

(** [sendMsg] at time [now]; [wr] is the result of [c.conn.Write]. The
    counter [nextID] is a [uint32]. *)
Definition sendMsg (msgType : MsgType) (route : string) (data : list Byte.byte)
    (now : Z) (wr : option error) (c : Client) : option (Z * option error * Client) :=
  let id := (nextID c + 1) `mod` 4294967296 in
  let c := {| Connected := Connected c;
              IncomingMsgChan := IncomingMsgChan c;
              received := received c;
              pendingChan := pendingChan c;
              pendingRequests := pendingRequests c;
              requestTimeout := requestTimeout c;
              nextID := id;
              written := written c |} in
  let '(messageRoute, err) := Message.DecodeRoute route in
  match err with
  | Some e => Some (id, Some (ErrRoute e), c)
  | None =>
      let m := {| Type_ := msgType; ID := id; Route := messageRoute;
                  MData := data; Err := false |} in
      let '(p, err) := buildPacket m in
      c ← (if decide (msgType = Request) then
             if decide (pendingChan c < pendingChan_cap)%nat then
               Some {| Connected := Connected c;
                       IncomingMsgChan := IncomingMsgChan c;
                       received := received c;
                       pendingChan := S (pendingChan c);
                       pendingRequests :=
                         match pendingRequests c !! ID m with
                         | None => <[ID m := {| msg := m; sentAt := now |}]> (pendingRequests c)
                         | Some _ => pendingRequests c
                         end;
                       requestTimeout := requestTimeout c;
                       nextID := nextID c;
                       written := written c |}
             else None
           else Some c);
      match err with
      | Some e => Some (ID m, Some e, c)
      | None =>
          Some (ID m, wr,
                {| Connected := Connected c;
                   IncomingMsgChan := IncomingMsgChan c;
                   received := received c;
                   pendingChan := pendingChan c;
                   pendingRequests := pendingRequests c;
                   requestTimeout := requestTimeout c;
                   nextID := nextID c;
                   written := written c ++ [p] |})
      end
  end.

(** The steps of the client: a call of [sendMsg], one iteration of
    [handlePackets], one tick of the reaper, and the application taking a
    message from [IncomingMsgChan].  A step is taken when it completes.
    The clock readings of a tick are not constrained, so a tick that the
    program completes only because the application receives in between
    (it sends, waits for room, sends again) appears here as successive
    ticks, each timing out the requests it has room for, with receives
    between them. *)
Inductive event :=
| EvSend (msgType : MsgType) (route : string) (data : list Byte.byte)
         (now : Z) (wr : option error)
| EvPacket (p : Packet)
| EvTick (visits : list (Z * Z))
| EvReceive.

(** [range] over a map meets every entry once, in an order that is not
    specified. *)
Definition ranges_over (visits : list (Z * Z)) (c : Client) : Prop :=
  visits.*1 ≡ₚ (map_to_list (pendingRequests c)).*1.

Inductive step (c : Client) : event → Client → Prop :=
| step_send msgType route data now wr id err c' :
    sendMsg msgType route data now wr c = Some (id, err, c') →
    step c (EvSend msgType route data now wr) c'
| step_packet p c' :
    handlePacket p c = Some c' →
    step c (EvPacket p) c'
| step_tick visits c' :
    ranges_over visits c →
    reaperTick visits c = Some c' →
    step c (EvTick visits) c'
| step_receive m c' :
    receive c = Some (m, c') →
    step c EvReceive c'.

(** The request identifiers that a step hands out. *)
Definition issued (c : Client) (ev : event) : list Z :=
  match ev with
  | EvSend Request route _ _ _ =>
      match Message.DecodeRoute route with
      | (_, None) => [(nextID c + 1) `mod` 4294967296]
      | (_, Some _) => []
      end
  | _ => []
  end.

(** [run c ids c']: some steps lead from [c] to [c'] and hand out the
    request identifiers [ids], in this order. *)
Inductive run : Client → list Z → Client → Prop :=
| run_done c : run c [] c
| run_step c ev c1 ids c' :
    step c ev c1 → run c1 ids c' → run c (issued c ev ++ ids) c'.

(** The responses for request [id] among the messages [l]. *)
Definition responses (id : Z) (l : list Message) : list Message :=
  filter (λ m, Type_ m = Response ∧ ID m = id) l.

(** 1 when request [id] is pending, 0 otherwise. *)
Definition pending_count (id : Z) (c : Client) : nat :=
  match pendingRequests c !! id with Some _ => 1 | None => 0 end.

(** Every response delivered for [id], and the request [id] if it is still
    pending, is matched by its own request among the identifiers [ids]
    handed out so far. *)
Definition accounted (c : Client) (ids : list Z) : Prop :=
  ∀ id, (length (responses id (IncomingMsgChan c)) + pending_count id c
         ≤ length (filter (λ x, x = id) ids))%nat.

(** The table is keyed by the identifier of the request it holds, and
    every pending request has its token in [pendingChan]; the application
    has received only messages that were sent, and [IncomingMsgChan] holds
    no more messages than its capacity. *)
Record wf (c : Client) : Prop := Wf {
  wf_key : ∀ k v, pendingRequests c !! k = Some v → ID (msg v) = k;
  wf_tokens : (size (pendingRequests c) ≤ pendingChan c)%nat;
  wf_received : (received c ≤ length (IncomingMsgChan c))%nat;
  wf_unread : (unread c ≤ IncomingMsgChan_cap)%nat
}.

End Client.
End Client.

(** ** actor: futures

    The implementation of futures (future.go) is not among the sources,
    only its test is.  The specification describes a future as a one-shot
    process registered under its own PID, with a list of pipe targets, a
    stored result and a done flag: a value sent to the PID, a
    [DeadLetterResponse] or the timeout completes it, whichever comes
    first; on completion the result goes to every pipe target and the
    targets are cleared; later arrivals are dropped.  The test fixes that
    the result is the envelope that was sent, and that pipe targets receive
    that envelope, or the error wrapped in an envelope. *)

Module Actor.

(** Modelled from the spec: the missing declaration of [PID],
    [{address, id}]. *)
Record PID := MkPID {
  Address : string;
  Id : string
}.

#[global] Instance PID_eq_dec : EqDecision PID.
Proof. solve_decision. Defined.

(** Modelled from the spec: the two errors a future completes with. *)
Inductive error := ErrTimeout | ErrDeadLetter.

Section Future.
(** The values that user code sends. *)
Context {V : Type}.

(** Modelled from the spec: what an envelope can carry to a future or from
    it: a value of user code, the [DeadLetterResponse] marker, or an error
    value. *)
Inductive message :=
| Value (v : V)
| DeadLetterResponse
| ErrorValue (e : error).

(** Modelled from the spec: the missing declaration of [MessageEnvelope],
    [{sender, message, header}]. *)
Record MessageEnvelope := MkEnvelope {
  Sender : option PID;
  Message : message;
  Header : list (string * string)
}.

(** Modelled from the spec: the missing [WrapEnvelope], an envelope around
    a message with no sender and no header. *)
Definition WrapEnvelope (m : message) : MessageEnvelope :=
  {| Sender := None; Message := m; Header := [] |}.

(** Modelled from the spec: the missing declaration of [Future]: its PID,
    the stored result and error, the pipe targets and the done flag. *)
Record Future := MkFuture {
  pid : PID;
  result : option MessageEnvelope;
  err : option error;
  pipes : list PID;
  done : bool
}.

(** Modelled from the spec: a future in its actor system, which is not
    among the sources: whether the PID of the future is still in the process
    registry, and the user messages sent to other processes so far, in the
    order of sending. *)
Record State := MkState {
  future : Future;
  registered : bool;
  outbox : list (PID * MessageEnvelope)
}.

(** Modelled from the spec: the missing [NewFuture], which registers a
    future that is not done under a fresh PID. *)
Definition NewFuture (p : PID) : State :=
  {| future := {| pid := p; result := None; err := None; pipes := []; done := false |};
     registered := true;
     outbox := [] |}.

(** Modelled from the spec: the envelope that the pipe targets receive,
    the error wrapped in an envelope if there is one, the result
    otherwise. *)
Definition forwarded (f : Future) : option MessageEnvelope :=
  match err f with
  | Some e => Some (WrapEnvelope (ErrorValue e))
  | None => result f
  end.

(** Modelled from the spec: delivery of the stored result to every
    recorded target, after which the targets are cleared. *)
Definition sendToPipes (s : State) : State :=
  let f := future s in
  match forwarded f with
  | Some env =>
      {| future := {| pid := pid f; result := result f; err := err f;
                      pipes := []; done := done f |};
         registered := registered s;
         outbox := outbox s ++ ((λ target, (target, env)) <$> pipes f) |}
  | None => s
  end.

(** Modelled from the spec: completion with the given result and error;
    the future leaves the registry and the pipe targets are served.  A
    completed future stays as it is. *)
Definition complete (res : option MessageEnvelope) (e : option error) (s : State) : State :=
  let f := future s in
  if done f then s
  else
    sendToPipes
      {| future := {| pid := pid f; result := res; err := e;
                      pipes := pipes f; done := true |};
         registered := false;
         outbox := outbox s |}.

(** Modelled from the spec: the missing [futureProcess.SendUserMessage], a
    user message arrives at the PID of the future. *)
Definition SendUserMessage (env : MessageEnvelope) (s : State) : State :=
  match Message env with
  | DeadLetterResponse => complete None (Some ErrDeadLetter) s
  | _ => complete (Some env) None s
  end.

(** Modelled from the spec: the timer of the future fires. *)
Definition Timeout (s : State) : State :=
  complete None (Some ErrTimeout) s.

(** Modelled from the spec: the missing [Future.PipeTo]; the target is
    recorded, and served at once when the future is already done. *)
Definition PipeTo (target : PID) (s : State) : State :=
  let f := future s in
  let s := {| future := {| pid := pid f; result := result f; err := err f;
                           pipes := pipes f ++ [target]; done := done f |};
              registered := registered s;
              outbox := outbox s |} in
  if done f then sendToPipes s else s.

(** Modelled from the spec: the missing [Future.Result]; [None] while the
    caller is still blocked. *)
Definition Result (s : State) : option (option MessageEnvelope * option error) :=
  if done (future s) then Some (result (future s), err (future s)) else None.

(** Modelled from the spec: the missing [Future.Wait], [Result] without
    the value. *)
Definition Wait (s : State) : option (option error) :=
  snd <$> Result s.

(** The envelopes that process [p] has received. *)
Definition received (p : PID) (s : State) : list MessageEnvelope :=
  snd <$> filter (λ x, x.1 = p) (outbox s).

End Future.
End Actor.

(** ** actor: [ActorProcess], the process in front of a mailbox *)

Module ActorProc.

(** The interface [Mailbox], with the two methods that [ActorProcess]
    calls; a mailbox is a value that a post changes. *)
Class Mailbox (M MessageEnvelope SystemMessage : Type) := {
  PostUserMessage : MessageEnvelope → M → M;
  PostSystemMessage : SystemMessage → M → M
}.

Section Process.
Context `{Mailbox M MessageEnvelope SystemMessage}.

(** The package variable [stopMessage], declared outside the sources. *)
Variable stopMessage : SystemMessage.

Record ActorProcess := MkActorProcess {
  mailbox : M;
  dead : Z
}.

Definition NewActorProcess (mailbox : M) : ActorProcess :=
  {| mailbox := mailbox; dead := 0 |}.

Definition SendUserMessage (_ : Actor.PID) (message : MessageEnvelope)
    (ref : ActorProcess) : ActorProcess :=
  {| mailbox := PostUserMessage message (mailbox ref); dead := dead ref |}.

Definition SendSystemMessage (_ : Actor.PID) (message : SystemMessage)
    (ref : ActorProcess) : ActorProcess :=
  {| mailbox := PostSystemMessage message (mailbox ref); dead := dead ref |}.

Definition Stop (pid : Actor.PID) (ref : ActorProcess) : ActorProcess :=
  let ref := {| mailbox := mailbox ref; dead := 1 |} in
  SendSystemMessage pid stopMessage ref.

(** The calls of the interface [Process]. *)
Inductive call :=
| CallSendUserMessage (pid : Actor.PID) (message : MessageEnvelope)
| CallSendSystemMessage (pid : Actor.PID) (message : SystemMessage)
| CallStop (pid : Actor.PID).

Definition do_call (ref : ActorProcess) (c : call) : ActorProcess :=
  match c with
  | CallSendUserMessage pid message => SendUserMessage pid message ref
  | CallSendSystemMessage pid message => SendSystemMessage pid message ref
  | CallStop pid => Stop pid ref
  end.

(** A sequence of calls on one process. *)
Definition run (calls : list call) (ref : ActorProcess) : ActorProcess :=
  foldl do_call ref calls.

(** What reaches the mailbox: a user message or a system message. *)
Inductive post := User (message : MessageEnvelope) | System (message : SystemMessage).

Definition deliver (mb : M) (p : post) : M :=
  match p with
  | User message => PostUserMessage message mb
  | System message => PostSystemMessage message mb
  end.

(** The post that a call stands for. *)
Definition posted (c : call) : post :=
  match c with
  | CallSendUserMessage _ message => User message
  | CallSendSystemMessage _ message => System message
  | CallStop _ => System stopMessage
  end.

Definition is_stop (c : call) : bool :=
  match c with CallStop _ => true | _ => false end.

End Process.

(** A mailbox that keeps what is posted to it, oldest first. *)
#[global] Instance recorder {MessageEnvelope SystemMessage : Type}
  : Mailbox (list (post (MessageEnvelope := MessageEnvelope) (SystemMessage := SystemMessage)))
            MessageEnvelope SystemMessage :=
  {| PostUserMessage message mb := mb ++ [User message];
     PostSystemMessage message mb := mb ++ [System message] |}.

End ActorProc.

(** ** The client: its entry points and its histories *)

Module ClientCalls.
Import Client.

Section Calls.
Variable json_Marshal : BatteryError → list Byte.byte.
Variable Decode : list Byte.byte → option Message * option error.
Variable buildPacket : Message → list Byte.byte * option error.

(** [SendRequest] at time [now]; [wr] is the result of the write. *)
Definition SendRequest (route : string) (data : list Byte.byte) (now : Z)
    (wr : option error) (c : Client) : option (Z * option error * Client) :=
  sendMsg buildPacket Request route data now wr c.

(** [SendNotify] at time [now]; [wr] is the result of the write. *)
Definition SendNotify (route : string) (data : list Byte.byte) (now : Z)
    (wr : option error) (c : Client) : option (option error * Client) :=
  '(_, err, c) ← sendMsg buildPacket Notify route data now wr c;
  Some (err, c).

(** [history c evs ids c']: the steps [evs], in this order, lead from [c]
    to [c'] and hand out the request identifiers [ids]. *)
Inductive history : Client → list event → list Z → Client → Prop :=
| history_done c : history c [] [] c
| history_step c ev c1 evs ids c' :
    step json_Marshal Decode buildPacket c ev c1 →
    history c1 evs ids c' →
    history c (ev :: evs) (issued c ev ++ ids) c'.

(** The number of calls of [sendMsg] among the steps. *)
Fixpoint sends (evs : list event) : Z :=
  match evs with
  | [] => 0
  | EvSend _ _ _ _ _ :: evs' => 1 + sends evs'
  | _ :: evs' => sends evs'
  end.

End Calls.
End ClientCalls.

(** ** Successive reads from one connection *)

Module AcceptorCalls.

(** [n] successive calls of [GetNextMessage], with what each call
    returns, in call order. *)
Fixpoint GetNextMessages (n : nat) (tc : Acceptor.Conn)
  : option (list (option (list Byte.byte) * option Acceptor.error) * Acceptor.Conn) :=
  match n with
  | O => Some ([], tc)
  | S n' =>
      '(b, err, tc1) ← Acceptor.GetNextMessage tc;
      '(rs, tc2) ← GetNextMessages n' tc1;
      Some ((b, err) :: rs, tc2)
  end.

(** A frame, as header and payload: the header has 4 bytes, [ParseHeader]
    accepts it, and the payload has the length that the header declares. *)
Definition well_framed (f : list Byte.byte * list Byte.byte) : Prop :=
  length f.1 = 4%nat ∧
  ∃ typ size, Codec.ParseHeader f.1 = (typ, size, None) ∧ Z.of_nat (length f.2) = size.

(** The bytes of a sequence of frames on the wire. *)
Definition wire (fs : list (list Byte.byte * list Byte.byte)) : list Byte.byte :=
  concat ((λ f, f.1 ++ f.2) <$> fs).

End AcceptorCalls.

(** ** The ring queue under all of its operations *)

Module GoringCalls.
Section Calls.
Context `{ZeroValue T}.

Inductive call := CallPush (item : T) | CallPop | CallPopMany (count : Z).

(** The queue after a sequence of calls; what the calls return is
    dropped. *)
Fixpoint exec (calls : list call) (q : Goring.Queue) : option Goring.Queue :=
  match calls with
  | [] => Some q
  | CallPush x :: calls' => q1 ← Goring.Push x q; exec calls' q1
  | CallPop :: calls' => '(_, _, q1) ← Goring.Pop q; exec calls' q1
  | CallPopMany k :: calls' => '(_, _, q1) ← Goring.PopMany k q; exec calls' q1
  end.

(** The number of [Push] calls. *)
Fixpoint pushes (calls : list call) : Z :=
  match calls with
  | [] => 0
  | CallPush _ :: calls' => 1 + pushes calls'
  | _ :: calls' => pushes calls'
  end.

(** [PopMany] is called with a count that is not negative. *)
Definition valid (c : call) : Prop :=
  match c with
  | CallPopMany k => 0 ≤ k
  | _ => True
  end.

(** Every slot of the buffer that holds no element holds the zero value:
    the offsets [len .. mod) after the head, the last of which is the head
    itself. *)
Definition clean (q : Goring.Queue) : Prop :=
  ∀ d, Goring.len q ≤ d < Goring.mod_ (Goring.content q) →
       Goring.buffer (Goring.content q)
         !! Z.to_nat (Goring.slot (Goring.content q) d) = Some zero.

(** What a call returns. *)
Inductive result :=
| RetPush
| RetPop (v : T) (ok : bool)
| RetPopMany (vs : option (list T)) (ok : bool).

(** A sequence of calls with what each call returns, in call order. *)
Fixpoint trace (calls : list call) (q : Goring.Queue)
  : option (list result * Goring.Queue) :=
  match calls with
  | [] => Some ([], q)
  | CallPush x :: calls' =>
      q1 ← Goring.Push x q;
      '(rs, q2) ← trace calls' q1;
      Some (RetPush :: rs, q2)
  | CallPop :: calls' =>
      '(v, ok, q1) ← Goring.Pop q;
      '(rs, q2) ← trace calls' q1;
      Some (RetPop v ok :: rs, q2)
  | CallPopMany k :: calls' =>
      '(vs, ok, q1) ← Goring.PopMany k q;
      '(rs, q2) ← trace calls' q1;
      Some (RetPopMany vs ok :: rs, q2)
  end.

(** The same calls on a plain list, oldest element first: the reference
    that [trace] is compared with. *)
Fixpoint list_trace (calls : list call) (l : list T) : list result * list T :=
  match calls with
  | [] => ([], l)
  | CallPush x :: calls' =>
      let '(rs, l') := list_trace calls' (l ++ [x]) in (RetPush :: rs, l')
  | CallPop :: calls' =>
      match l with
      | [] => let '(rs, l') := list_trace calls' [] in (RetPop zero false :: rs, l')
      | v :: l1 => let '(rs, l') := list_trace calls' l1 in (RetPop v true :: rs, l')
      end
  | CallPopMany k :: calls' =>
      match l with
      | [] => let '(rs, l') := list_trace calls' [] in (RetPopMany None false :: rs, l')
      | _ =>
          let '(rs, l') := list_trace calls' (drop (Z.to_nat k) l) in
          (RetPopMany (Some (take (Z.to_nat k) l)) true :: rs, l')
      end
  end.

End Calls.
End GoringCalls.

(** ** Concrete inputs

    Small queues, a client and a future on which the operations above are
    evaluated. *)

Definition demo_ops : list (Goring.op (T:=nat)) :=
  [Goring.OpPush 1%nat; Goring.OpPush 2%nat; Goring.OpPop; Goring.OpPush 3%nat;
   Goring.OpPop; Goring.OpPop; Goring.OpPop].

(** A queue of modulus 2 holding one element: the next [Push] grows it. *)
Definition demo_full : Goring.Queue (T:=nat) :=
  {| Goring.len := 1; Goring.initialSize := 2;
     Goring.content := {| Goring.buffer := [0%nat; 7%nat]; Goring.head := 0;
                          Goring.tail := 1; Goring.mod_ := 2 |} |}.

(** A queue of modulus 4 holding three elements across the wrap-around. *)
Definition demo_three : Goring.Queue (T:=nat) :=
  {| Goring.len := 3; Goring.initialSize := 4;
     Goring.content := {| Goring.buffer := [8%nat; 9%nat; 0%nat; 7%nat]; Goring.head := 2;
                          Goring.tail := 1; Goring.mod_ := 4 |} |}.

(** Calls that grow a queue of size 2, empty it and fill it again. *)
Definition demo_calls : list (GoringCalls.call (T:=nat)) :=
  [GoringCalls.CallPush 1%nat; GoringCalls.CallPush 2%nat; GoringCalls.CallPopMany 1;
   GoringCalls.CallPush 3%nat; GoringCalls.CallPop; GoringCalls.CallPopMany 5;
   GoringCalls.CallPop; GoringCalls.CallPush 4%nat].

(** Two frames of type 4 (data), with payloads of 2 bytes and of none. *)
Definition demo_frames : list (list Byte.byte * list Byte.byte) :=
  [([Byte.x04; Byte.x00; Byte.x00; Byte.x02], [Byte.x68; Byte.x69]);
   ([Byte.x04; Byte.x00; Byte.x00; Byte.x00], [])].

Definition demo_marshal (e : Client.BatteryError) : list Byte.byte :=
  String.list_byte_of_string (Client.Code e).

Definition demo_decode (b : list Byte.byte) : option Client.Message * option Client.error :=
  (Some {| Client.Type_ := Client.Response; Client.ID := 1;
           Client.Route := {| Message.Service := "room"; Message.Method := "join" |};
           Client.MData := b; Client.Err := false |}, None).

Definition demo_build (m : Client.Message) : list Byte.byte * option Client.error :=
  (Client.MData m, None).

Definition demo_request : Client.pendingRequest :=
  {| Client.msg := {| Client.Type_ := Client.Request; Client.ID := 1;
                      Client.Route := {| Message.Service := "room";
                                         Message.Method := "join" |};
                      Client.MData := []; Client.Err := false |};
     Client.sentAt := 0 |}.

(** A client with request 1 pending since time 0. *)
Definition demo_client : Client.Client :=
  {| Client.Connected := true;
     Client.IncomingMsgChan := [];
     Client.received := 0;
     Client.pendingChan := 1;
     Client.pendingRequests := {[ 1 := demo_request ]};
     Client.requestTimeout := 5 * Client.second;
     Client.nextID := 1;
     Client.written := [] |}.

(** The client after its first request, sent at time 0. *)
Definition demo_sent : Client.Client :=
  {| Client.Connected := false;
     Client.IncomingMsgChan := [];
     Client.received := 0;
     Client.pendingChan := 1;
     Client.pendingRequests := {[ 1 := demo_request ]};
     Client.requestTimeout := 5 * Client.second;
     Client.nextID := 1;
     Client.written := [[]] |}.

(** A message that the server pushes, and a decoder that finds it in
    every packet. *)
Definition demo_push : Client.Message :=
  {| Client.Type_ := Client.Push; Client.ID := 0;
     Client.Route := {| Message.Service := "room"; Message.Method := "news" |};
     Client.MData := []; Client.Err := false |}.

Definition demo_decode_push (b : list Byte.byte)
  : option Client.Message * option Client.error :=
  (Some demo_push, None).

(** The client after its first request, sent at time 0, and [n] pushed
    messages that the application has not received. *)
Definition demo_filled (n : nat) : Client.Client :=
  {| Client.Connected := false;
     Client.IncomingMsgChan := replicate n demo_push;
     Client.received := 0;
     Client.pendingChan := 1;
     Client.pendingRequests := {[ 1 := demo_request ]};
     Client.requestTimeout := 5 * Client.second;
     Client.nextID := 1;
     Client.written := [[]] |}.

(** The same client when [IncomingMsgChan] is full. *)
Definition demo_choked : Client.Client := demo_filled 10.

(** The same client after the reaper has answered the request. *)
Definition demo_reaped : Client.Client :=
  {| Client.Connected := false;
     Client.IncomingMsgChan := [Client.timeoutResponse demo_marshal demo_request];
     Client.received := 0;
     Client.pendingChan := 0;
     Client.pendingRequests := delete 1 {[ 1 := demo_request ]};
     Client.requestTimeout := 5 * Client.second;
     Client.nextID := 1;
     Client.written := [[]] |}.

(** The steps of a client: a request at time 0, a tick after six seconds,
    and the response of the server that comes after it. *)
Definition demo_events : list Client.event :=
  [Client.EvSend Client.Request "room.join" [] 0 None;
   Client.EvTick [(1, 6 * Client.second)];
   Client.EvPacket {| Client.PType := Client.Data; Client.PData := [] |}].

(** A packet builder whose message encoder fails. *)
Definition demo_build_fail (m : Client.Message) : list Byte.byte * option Client.error :=
  ([], Some (Client.ErrEncode 1)).

Definition demo_route : Message.Route :=
  {| Message.Service := "room"; Message.Method := "join" |}.

Definition demo_targets : list Actor.PID :=
  [ {| Actor.Address := "local"; Actor.Id := "p1" |};
    {| Actor.Address := "local"; Actor.Id := "p2" |};
    {| Actor.Address := "local"; Actor.Id := "p3" |} ].

Definition demo_future_pid : Actor.PID :=
  {| Actor.Address := "local"; Actor.Id := "future$1" |}.

Definition demo_hello : Actor.MessageEnvelope (V:=string) :=
  Actor.WrapEnvelope (Actor.Value "hello").

(** * Proofs *)

(** ** Machine integers *)

Section Int64Facts.
Import Int64.

Lemma int64_wrap_id z : in_range z → wrap z = z.
Proof.
  unfold in_range, wrap, min_int, max_int, modulus. intros H.
  rewrite Z.mod_small by lia. lia.
Qed.

Lemma int64_rem_nonneg a b :
  0 ≤ a ≤ max_int → 0 < b → rem a b = Some (a `mod` b).
Proof.
  intros Ha Hb. unfold rem. rewrite decide_False by lia.
  rewrite Z.rem_mod_nonneg by lia.
  rewrite int64_wrap_id; [done|].
  pose proof (Z.mod_pos_bound a b Hb).
  assert (a `mod` b ≤ a) by (apply Z.mod_le; lia).
  unfold in_range, min_int, max_int in *. lia.
Qed.

Lemma int64_add_exact a b : in_range (a + b) → add a b = a + b.
Proof. apply int64_wrap_id. Qed.

Lemma int64_sub_exact a b : in_range (a - b) → sub a b = a - b.
Proof. apply int64_wrap_id. Qed.

Lemma int64_mul_exact a b : in_range (a * b) → mul a b = a * b.
Proof. apply int64_wrap_id. Qed.

End Int64Facts.

(** ** Slices and loops *)

Section SliceFacts.
Context `{ZeroValue T}.
Implicit Types (s : list T) (i : Z) (v : T).

Lemma make_nonneg n : 0 ≤ n → make n = Some (replicate (Z.to_nat n) zero).
Proof. intros Hn. unfold make. by rewrite decide_False by lia. Qed.

Lemma index_lookup s i : 0 ≤ i → index s i = s !! Z.to_nat i.
Proof. intros Hi. unfold index. by rewrite decide_True. Qed.

Lemma index_Some s i :
  0 ≤ i < Z.of_nat (length s) → ∃ v, index s i = Some v ∧ s !! Z.to_nat i = Some v.
Proof.
  intros Hi. rewrite index_lookup by lia.
  destruct (lookup_lt_is_Some_2 s (Z.to_nat i)) as [v Hv]; [lia|]. eauto.
Qed.

Lemma store_insert s i v :
  0 ≤ i < Z.of_nat (length s) → store s i v = Some (<[Z.to_nat i := v]> s).
Proof. intros Hi. unfold store. by rewrite decide_True. Qed.

End SliceFacts.

(** Modular arithmetic on ring indices: an index that is off by less than
    one modulus is brought back by one addition or subtraction. *)
Lemma mod_cases m a :
  0 < m → - m ≤ a < 2 * m →
  (0 ≤ a < m ∧ a `mod` m = a) ∨ (m ≤ a ∧ a `mod` m = a - m) ∨ (a < 0 ∧ a `mod` m = a + m).
Proof.
  intros Hm Ha.
  destruct (decide (a < 0)); [right; right|destruct (decide (a < m)); [left|right; left]].
  - split; [done|]. symmetry. apply (Z.mod_unique_pos _ _ (-1)); lia.
  - split; [lia|]. apply Z.mod_small; lia.
  - split; [lia|]. symmetry. apply (Z.mod_unique_pos _ _ 1); lia.
Qed.

Lemma mod_add_inj m a i j :
  0 < m → 0 ≤ i < m → 0 ≤ j < m → (a + i) `mod` m = (a + j) `mod` m → i = j.
Proof.
  intros Hm Hi Hj Heq.
  assert ((i - j) `mod` m = 0) as Hd.
  { replace (i - j) with ((a + i) - (a + j)) by lia.
    rewrite Zminus_mod, Heq, Z.sub_diag. by apply Z.mod_0_l, Z.neq_sym, Z.lt_neq. }
  destruct (mod_cases m (i - j)) as [[? E]|[[? E]|[? E]]]; lia.
Qed.

Ltac mod_case m a :=
  let H := fresh "Hmod" in
  destruct (mod_cases m a) as [[? H]|[[? H]|[? H]]]; [lia|lia|..];
  rewrite ?H in *.

Ltac mod_goal m :=
  repeat match goal with |- context [?a `mod` m] => mod_case m a end.

(** ** The ring queue *)

Section GoringFacts.
Import Goring.
Context `{ZeroValue T}.
Implicit Types (q : Queue (T:=T)) (x : T).

Lemma max_mod_in_range z : 0 ≤ z ≤ 2 * max_mod - 1 → Int64.in_range z.
Proof. unfold Int64.in_range, Int64.min_int, Int64.max_int, max_mod. lia. Qed.

Lemma length_contents q : length (contents q) = Z.to_nat (len q).
Proof. unfold contents. by rewrite length_fmap, length_seq. Qed.

Lemma lookup_contents q (i : nat) :
  wf q → Z.of_nat i < len q →
  contents q !! i = buffer (content q) !! Z.to_nat (slot (content q) (Z.of_nat i)).
Proof.
  intros [Hb Hh Ht Hl Hm] Hi. unfold contents.
  rewrite list_lookup_fmap, lookup_seq_lt by lia. simpl.
  assert (0 ≤ slot (content q) (Z.of_nat i) < mod_ (content q)) as Hs
    by (apply Z.mod_pos_bound; lia).
  destruct (lookup_lt_is_Some_2 (buffer (content q))
              (Z.to_nat (slot (content q) (Z.of_nat i)))) as [v Hv]; [lia|].
  by rewrite Hv.
Qed.

Lemma wf_len_range q : wf q → 0 ≤ len q < mod_ (content q).
Proof. intros [Hb Hh Ht Hl Hm]. rewrite Hl. apply Z.mod_pos_bound. lia. Qed.

Lemma Pop_empty q : len q = 0 → Pop q = Some (zero, false, q).
Proof. intros Hl. unfold Pop, Empty, Length. by rewrite bool_decide_eq_true_2. Qed.

Lemma Pop_nonempty q :
  wf q → len q ≠ 0 →
  ∃ x q', Pop q = Some (x, true, q') ∧ wf q' ∧ contents q = x :: contents q' ∧
          len q' = len q - 1 ∧ mod_ (content q') = mod_ (content q).
Proof.
  intros Hwf Hne. pose proof (wf_len_range q Hwf) as Hr.
  destruct Hwf as [Hb Hh Ht Hl Hm].
  destruct q as [n ini [b h t m]]; simpl in *.
  unfold Pop, Empty, Length; simpl. rewrite bool_decide_eq_false_2 by done.
  rewrite (int64_add_exact h 1) by (apply max_mod_in_range; lia).
  rewrite int64_rem_nonneg by (unfold Int64.max_int, max_mod in *; lia). simpl.
  set (h' := (h + 1) `mod` m).
  assert (0 ≤ h' < m) as Hh' by (apply Z.mod_pos_bound; lia).
  destruct (index_Some b h') as (x & -> & Hx); [lia|]. simpl.
  rewrite store_insert by lia. simpl.
  rewrite (int64_add_exact n (-1)) by (apply max_mod_in_range; lia).
  eexists _, _. split; [done|].
  assert (n + -1 = (t - h') `mod` m) as Hl'.
  { subst h' n. mod_case m (h + 1); mod_case m (t - h); mod_case m (t - (h + 1));
      try mod_case m (t - (h + 1 - m)); try mod_case m (t - 0); lia. }
  split; [|split; [|split; [simpl; lia|done]]].
  - constructor; simpl; try done. by rewrite length_insert.
  - apply list_eq. intros [|i].
    + rewrite lookup_contents; [| by constructor | simpl; lia]. simpl.
      unfold slot; simpl. by rewrite Z.add_0_r.
    + simpl. destruct (decide (Z.of_nat (S i) < n)) as [Hi|Hi].
      * rewrite lookup_contents; [| by constructor | simpl; lia].
        rewrite lookup_contents; [| constructor; simpl; rewrite ?length_insert; done
                                  | simpl; lia].
        unfold slot; simpl.
        replace ((h' + 1 + Z.of_nat i) `mod` m) with ((h + 1 + Z.of_nat (S i)) `mod` m).
        2:{ subst h'. rewrite <- (Z.add_assoc ((h + 1) `mod` m) 1), Zplus_mod_idemp_l.
            f_equal; lia. }
        rewrite list_lookup_insert_ne; [done|].
        subst h'. intros Heq. apply Z2Nat.inj in Heq; try (apply Z.mod_pos_bound; lia).
        replace (h + 1) with (h + 1 + 0) in Heq at 1 by lia.
        apply mod_add_inj in Heq; lia.
      * rewrite !lookup_ge_None_2; [done| |]; rewrite length_contents; simpl; lia.
Qed.

Lemma slot_len q :
  wf q → slot (content q) (len q) = (tail (content q) + 1) `mod` mod_ (content q).
Proof.
  intros [Hb Hh Ht Hl Hm]. unfold slot. rewrite Hl, Zplus_mod_idemp_r. f_equal. lia.
Qed.

Lemma slot_range q i : wf q → 0 ≤ slot (content q) i < mod_ (content q).
Proof. intros [Hb Hh Ht Hl Hm]. apply Z.mod_pos_bound. lia. Qed.

Lemma slot_inj q i j :
  wf q → 0 ≤ i < mod_ (content q) → 0 ≤ j < mod_ (content q) →
  slot (content q) i = slot (content q) j → i = j.
Proof. intros [Hb Hh Ht Hl Hm] Hi Hj. unfold slot. apply mod_add_inj; lia. Qed.

(** The queue is full exactly when the next tail position is the head. *)
Lemma full_iff q :
  wf q →
  (tail (content q) + 1) `mod` mod_ (content q) = head (content q) ↔
  len q = mod_ (content q) - 1.
Proof.
  intros Hwf. pose proof Hwf as [Hb Hh Ht Hl Hm]. rewrite Hl.
  mod_case (mod_ (content q)) (tail (content q) + 1);
    mod_case (mod_ (content q)) (tail (content q) - head (content q)); lia.
Qed.

Lemma Push_nogrow q x :
  wf q →
  (tail (content q) + 1) `mod` mod_ (content q) ≠ head (content q) →
  ∃ q', Push x q = Some q' ∧ wf q' ∧ contents q' = contents q ++ [x] ∧
        len q' = len q + 1 ∧ mod_ (content q') = mod_ (content q).
Proof.
  intros Hwf Hne. pose proof (wf_len_range q Hwf) as Hr.
  pose proof (slot_len q Hwf) as Hsl.
  assert (len q ≠ mod_ (content q) - 1) as Hnf by (by rewrite <- full_iff).
  pose proof Hwf as [Hb Hh Ht Hl Hm].
  destruct q as [n ini [b h t m]]; simpl in *.
  unfold Push; simpl.
  rewrite (int64_add_exact t 1) by (apply max_mod_in_range; lia).
  rewrite int64_rem_nonneg by (unfold Int64.max_int, max_mod in *; lia). simpl.
  set (t' := (t + 1) `mod` m) in *.
  assert (0 ≤ t' < m) as Ht' by (apply Z.mod_pos_bound; lia).
  rewrite decide_False by done. simpl.
  rewrite store_insert by lia. simpl.
  rewrite (int64_add_exact n 1) by (apply max_mod_in_range; lia).
  eexists. split; [done|].
  assert (wf {| len := n + 1; initialSize := ini;
                content := {| buffer := <[Z.to_nat t':=x]> b; head := h;
                              tail := t'; mod_ := m |} |}) as Hwf'.
  { constructor; simpl; rewrite ?length_insert; try done.
    subst t' n. mod_case m (t + 1); mod_case m (t - h); mod_goal m; lia. }
  split; [done|]. split; [|done].
  unfold slot in Hsl; simpl in Hsl.
  apply list_eq. intros i.
  destruct (decide (Z.of_nat i < n)) as [Hi|Hi].
  - rewrite lookup_app_l by (rewrite length_contents; simpl; lia).
    rewrite !lookup_contents by (done || simpl; lia). unfold slot; simpl.
    rewrite list_lookup_insert_ne; [done|].
    intros Heq. apply Z2Nat.inj in Heq; try (apply Z.mod_pos_bound; lia).
    rewrite <- Hsl in Heq. apply mod_add_inj in Heq; lia.
  - destruct (decide (Z.of_nat i = n)) as [Hi'|Hi'].
    + rewrite lookup_contents by (done || simpl; lia). unfold slot; simpl.
      rewrite Hi', Hsl, list_lookup_insert_eq by lia.
      rewrite lookup_app_r by (rewrite length_contents; simpl; lia).
      rewrite length_contents. simpl. by replace (i - Z.to_nat n)%nat with 0%nat by lia.
    + rewrite !lookup_ge_None_2; [done| |];
        rewrite ?length_app, length_contents; simpl; lia.
Qed.

(** The copy loop of [grow]: positions [i .. m) of the new buffer receive
    the old elements starting at [t], the rest is left as it was. *)
Lemma grow_loop (b : list T) (t m : Z) :
  Z.of_nat (length b) = m → 0 ≤ t < m → m ≤ max_mod →
  ∀ (n : nat) (i : Z) (nb : list T),
    0 ≤ i → i + Z.of_nat n = m → m ≤ Z.of_nat (length nb) →
    ∃ nb',
      for_from n i (λ i nb, buffIndex ← Int64.rem (Int64.add t i) m;
                            v ← index b buffIndex;
                            store nb i v) nb = Some nb' ∧
      length nb' = length nb ∧
      ∀ j : nat, nb' !! j =
                 if decide (i ≤ Z.of_nat j < m)
                 then b !! Z.to_nat ((t + Z.of_nat j) `mod` m) else nb !! j.
Proof.
  intros Hb Ht Hm. induction n as [|n IH]; intros i nb Hi Hin Hnb; simpl.
  - eexists. split; [done|]. split; [done|]. intros j. by rewrite decide_False by lia.
  - rewrite (int64_add_exact t i) by (apply max_mod_in_range; lia).
    rewrite int64_rem_nonneg by (unfold Int64.max_int, max_mod in *; lia). simpl.
    assert (0 ≤ (t + i) `mod` m < m) as Hr by (apply Z.mod_pos_bound; lia).
    destruct (index_Some b ((t + i) `mod` m)) as (v & -> & Hv); [lia|]. simpl.
    rewrite store_insert by lia.
    destruct (IH (i + 1) (<[Z.to_nat i:=v]> nb)) as (nb' & Hrun & Hlen & Hlook);
      [lia|lia|rewrite length_insert; lia|].
    exists nb'. split; [done|]. split; [by rewrite Hlen, length_insert|].
    intros j. rewrite Hlook.
    destruct (decide (Z.of_nat j = i)) as [<-|Hne].
    + rewrite decide_False, decide_True by lia.
      rewrite Nat2Z.id, list_lookup_insert_eq by lia. done.
    + rewrite list_lookup_insert_ne by lia.
      destruct (decide (i + 1 ≤ Z.of_nat j < m)).
      * by rewrite decide_True by lia.
      * by rewrite decide_False by lia.
Qed.

Lemma Push_grow q x :
  wf q →
  (tail (content q) + 1) `mod` mod_ (content q) = head (content q) →
  2 * mod_ (content q) ≤ max_mod →
  ∃ q', Push x q = Some q' ∧ wf q' ∧ contents q' = contents q ++ [x] ∧
        len q' = len q + 1 ∧
        mod_ (content q') = 2 * mod_ (content q) ∧
        head (content q') = 0 ∧
        tail (content q') = mod_ (content q) ∧
        ∀ i : nat, Z.of_nat i < mod_ (content q) →
          buffer (content q') !! i =
          buffer (content q) !! Z.to_nat ((head (content q) + Z.of_nat i) `mod` mod_ (content q)).
Proof.
  intros Hwf Hfull Hcap. pose proof (wf_len_range q Hwf) as Hr.
  assert (len q = mod_ (content q) - 1) as Hn by (by rewrite <- full_iff).
  pose proof Hwf as [Hb Hh Ht Hl Hm].
  destruct q as [n ini [b h t m]]; simpl in *.
  unfold Push; simpl.
  rewrite (int64_add_exact t 1) by (apply max_mod_in_range; lia).
  rewrite int64_rem_nonneg by (unfold Int64.max_int, max_mod in *; lia). simpl.
  rewrite Hfull, decide_True by done. unfold grow; simpl.
  rewrite (int64_mul_exact m 2) by (apply max_mod_in_range; lia).
  rewrite make_nonneg by lia. simpl. unfold for_range.
  destruct (grow_loop b h m Hb Hh Hm (Z.to_nat (m - 0)) 0
              (replicate (Z.to_nat (m * 2)) zero)) as (nb & -> & Hlen & Hlook);
    [lia|lia|rewrite length_replicate; lia|].
  rewrite length_replicate in Hlen. simpl.
  rewrite store_insert by lia. simpl.
  rewrite (int64_add_exact n 1) by (apply max_mod_in_range; lia).
  eexists. split; [done|].
  assert (wf {| len := n + 1; initialSize := ini;
                content := {| buffer := <[Z.to_nat m:=x]> nb; head := 0;
                              tail := m; mod_ := m * 2 |} |}) as Hwf'.
  { constructor; simpl; rewrite ?length_insert; try lia.
    rewrite Z.sub_0_r, Z.mod_small by lia. lia. }
  split; [done|]. split; [|repeat split; simpl; try lia].
  - apply list_eq. intros i.
    destruct (decide (Z.of_nat i < n)) as [Hi|Hi].
    + rewrite lookup_app_l by (rewrite length_contents; simpl; lia).
      rewrite !lookup_contents by (done || simpl; lia). unfold slot; simpl.
      rewrite (Z.mod_small _ (m * 2)) by lia.
      rewrite list_lookup_insert_ne by lia.
      rewrite Hlook, decide_True by lia. rewrite Z2Nat.id by lia.
      f_equal. f_equal. f_equal. lia.
    + destruct (decide (Z.of_nat i = n)) as [Hi'|Hi'].
      * rewrite lookup_contents by (done || simpl; lia). unfold slot; simpl.
        rewrite (Z.mod_small _ (m * 2)) by lia.
        replace (0 + 1 + Z.of_nat i) with m by lia.
        rewrite list_lookup_insert_eq by lia.
        rewrite lookup_app_r by (rewrite length_contents; simpl; lia).
        rewrite length_contents. simpl.
        by replace (i - Z.to_nat n)%nat with 0%nat by lia.
      * rewrite !lookup_ge_None_2; [done| |];
          rewrite ?length_app, length_contents; simpl; lia.
  - intros i Hi. rewrite list_lookup_insert_ne by lia.
    by rewrite Hlook, decide_True by lia.
Qed.

(** [Push] on a well-formed queue whose length leaves room for doubling. *)
Lemma Push_spec q x :
  wf q → 2 * (len q + 1) ≤ max_mod →
  ∃ q', Push x q = Some q' ∧ wf q' ∧ contents q' = contents q ++ [x] ∧
        len q' = len q + 1.
Proof.
  intros Hwf Hcap.
  destruct (decide ((tail (content q) + 1) `mod` mod_ (content q) = head (content q)))
    as [Hfull|Hnf].
  - pose proof Hfull as Hn. rewrite full_iff in Hn by done.
    destruct (Push_grow q x Hwf Hfull) as (q' & ? & ? & ? & ? & _); [lia|]. eauto.
  - destruct (Push_nogrow q x Hwf Hnf) as (q' & ? & ? & ? & ? & _). eauto.
Qed.

Lemma New_spec (n : Z) :
  0 < n ≤ max_mod →
  ∃ q, New n = Some q ∧ wf q ∧ contents q = [] ∧ len q = 0 ∧ mod_ (content q) = n.
Proof.
  intros Hn. unfold New. rewrite make_nonneg by lia. simpl.
  eexists. split; [done|]. split; [|done].
  constructor; simpl; rewrite ?length_replicate; try lia.
  rewrite Z.sub_diag. symmetry. apply Z.mod_0_l. lia.
Qed.

Lemma contents_nil q : len q = 0 → contents q = [].
Proof. intros Hl. unfold contents. by rewrite Hl. Qed.

Lemma pops_spec (n : nat) :
  ∀ q, wf q → Z.of_nat n ≤ len q →
  ∃ q', pops n q = Some ((λ v, (v, true)) <$> take n (contents q), q') ∧
        wf q' ∧ contents q' = drop n (contents q) ∧ len q' = len q - Z.of_nat n.
Proof.
  induction n as [|n IH]; intros q Hwf Hn; simpl.
  - exists q. split; [done|]. split; [done|]. split; [done|lia].
  - destruct (Pop_nonempty q Hwf) as (x & q1 & -> & Hwf1 & Hc & Hl1 & _); [lia|]. simpl.
    destruct (IH q1 Hwf1) as (q' & -> & Hwf' & Hc' & Hl'); [lia|]. simpl.
    exists q'. rewrite Hc. simpl. split; [done|]. split; [done|]. split; [done|lia].
Qed.

Lemma run_fifo (ops : list op) :
  ∀ q, wf q → 2 * (len q + Z.of_nat (length ops)) ≤ max_mod →
  ∃ q', run ops q = Some ((fifo ops (contents q)).1, q') ∧ wf q' ∧
        contents q' = (fifo ops (contents q)).2.
Proof.
  induction ops as [|[x|] ops IH]; intros q Hwf Hcap; simpl in *.
  - by exists q.
  - destruct (Push_spec q x Hwf) as (q1 & -> & Hwf1 & Hc1 & Hl1); [lia|]. simpl.
    destruct (IH q1 Hwf1) as (q' & Hrun & Hwf' & Hc'); [lia|].
    exists q'. by rewrite <- Hc1.
  - pose proof (wf_len_range q Hwf) as Hr.
    destruct (decide (len q = 0)) as [Hz|Hnz].
    + rewrite Pop_empty by done. simpl.
      destruct (IH q Hwf) as (q' & -> & Hwf' & Hc'); [lia|]. simpl.
      pose proof (contents_nil q Hz) as Hcn. rewrite Hcn in *.
      exists q'. destruct (fifo ops []) as [vs l']. done.
    + destruct (Pop_nonempty q Hwf Hnz) as (x & q1 & -> & Hwf1 & Hc & Hl1 & _). simpl.
      destruct (IH q1 Hwf1) as (q' & -> & Hwf' & Hc'); [lia|]. simpl.
      exists q'. rewrite Hc. destruct (fifo ops (contents q1)) as [vs l']. done.
Qed.

(** The loop of [PopMany], started at iteration [i], does what [n]
    successive calls of [Pop] do to the queue whose head has already moved
    [i] positions. *)
Lemma PopMany_loop (h0 t m L ini : Z) :
  0 ≤ h0 < m → m ≤ max_mod → L ≤ m →
  ∀ (n : nat) (i : Z) (buf cb : list T),
    0 ≤ i → i + Z.of_nat n ≤ L → Z.of_nat (length cb) = m →
    i + Z.of_nat n ≤ Z.of_nat (length buf) →
    ∃ vs cb',
      pops n {| len := L - i; initialSize := ini;
                content := {| buffer := cb; head := (h0 + i) `mod` m;
                              tail := t; mod_ := m |} |}
      = Some ((λ v, (v, true)) <$> vs,
              {| len := L - i - Z.of_nat n; initialSize := ini;
                 content := {| buffer := cb'; head := (h0 + i + Z.of_nat n) `mod` m;
                               tail := t; mod_ := m |} |}) ∧
      length vs = n ∧
      for_from n i (λ i '(buf, cb),
                     pos ← Int64.rem (Int64.add (Int64.add h0 1) i) m;
                     v ← index cb pos;
                     buf ← store buf i v;
                     cb ← store cb pos zero;
                     Some (buf, cb)) (buf, cb)
      = Some (take (Z.to_nat i) buf ++ vs ++ drop (Z.to_nat i + n) buf, cb').
Proof.
  intros Hh Hm HL. induction n as [|n IH]; intros i buf cb Hi Hin Hcb Hbuf.
  - exists [], cb. simpl. rewrite Z.sub_0_r, Z.add_0_r, Nat.add_0_r, take_drop. done.
  - match goal with |- context [for_from _ _ ?f _] => set (body := f) in * end.
    cbn [pops for_from]. unfold Pop, Empty, Length.
    cbn [len content head mod_ buffer tail initialSize].
    rewrite bool_decide_eq_false_2 by lia.
    assert (0 ≤ (h0 + i) `mod` m < m) as Hhi by (apply Z.mod_pos_bound; lia).
    rewrite (int64_add_exact ((h0 + i) `mod` m) 1) by (apply max_mod_in_range; lia).
    rewrite int64_rem_nonneg by (unfold Int64.max_int, max_mod in *; lia).
    rewrite Zplus_mod_idemp_l.
    set (pos := (h0 + i + 1) `mod` m).
    assert (0 ≤ pos < m) as Hpos by (apply Z.mod_pos_bound; lia).
    destruct (index_Some cb pos) as (v & Hidx & Hv); [lia|].
    assert (body i (buf, cb)
            = Some (<[Z.to_nat i:=v]> buf, <[Z.to_nat pos:=zero]> cb)) as Hbody.
    { unfold body.
      rewrite (int64_add_exact h0 1) by (apply max_mod_in_range; lia).
      rewrite (int64_add_exact (h0 + 1) i) by (apply max_mod_in_range; lia).
      rewrite int64_rem_nonneg by (unfold Int64.max_int, max_mod in *; lia).
      replace (h0 + 1 + i) with (h0 + i + 1) by lia. fold pos.
      cbn [mbind option_bind]. rewrite Hidx. cbn [mbind option_bind].
      rewrite (store_insert cb) by lia. rewrite (store_insert buf) by lia. done. }
    rewrite Hbody.
    cbn [mbind option_bind]. rewrite Hidx. cbn [mbind option_bind].
    rewrite (store_insert cb) by lia.
    cbn [mbind option_bind].
    rewrite (int64_add_exact (L - i) (-1)) by (apply max_mod_in_range; lia).
    destruct (IH (i + 1) (<[Z.to_nat i:=v]> buf) (<[Z.to_nat pos:=zero]> cb))
      as (vs & cb' & Hp & Hlen & Hloop); [lia|lia|by rewrite length_insert
                                         |rewrite length_insert; lia|].
    replace (L - i + -1) with (L - (i + 1)) by lia.
    replace (h0 + (i + 1)) with (h0 + i + 1) in Hp by lia. fold pos in Hp.
    rewrite Hp, Hloop. cbn [mbind option_bind].
    exists (v :: vs), cb'. split; [|split; [simpl; by rewrite Hlen|]].
    + rewrite fmap_cons.
      replace (L - i - Z.of_nat (S n)) with (L - (i + 1) - Z.of_nat n) by lia.
      by replace (h0 + i + Z.of_nat (S n)) with (h0 + i + 1 + Z.of_nat n) by lia.
    + f_equal. f_equal.
      replace (Z.to_nat (i + 1)) with (S (Z.to_nat i)) by lia.
      rewrite (take_S_r _ _ v) by (apply list_lookup_insert_eq; lia).
      rewrite take_insert_ge by lia.
      rewrite drop_insert_lt by lia.
      rewrite <- app_assoc, Nat.add_succ_r. done.
Qed.

Lemma PopMany_spec q (k : Z) :
  wf q → 0 ≤ k → len q ≠ 0 →
  let n := Z.to_nat (Z.min k (len q)) in
  ∃ q', pops n q = Some ((λ v, (v, true)) <$> take n (contents q), q') ∧
        PopMany k q = Some (Some (take n (contents q)), true, q') ∧
        wf q' ∧ contents q' = drop n (contents q).
Proof.
  intros Hwf Hk Hne n. pose proof (wf_len_range q Hwf) as Hr.
  destruct (pops_spec n q Hwf) as (q' & Hpops & Hwf' & Hc' & Hl'); [lia|].
  exists q'. split; [done|]. split; [|done].
  pose proof Hwf as [Hb Hh Ht Hl Hm].
  destruct q as [L ini [b h t m]]; simpl in *.
  unfold PopMany, Empty, Length; simpl. rewrite bool_decide_eq_false_2 by done.
  set (count := if decide (L ≤ k) then L else k).
  assert (count = Z.of_nat n) as Hcount by (subst count n; case_decide; lia).
  rewrite make_nonneg by lia. cbn [mbind option_bind]. unfold for_range.
  destruct (PopMany_loop h t m L ini Hh Hm ltac:(lia) n 0
              (replicate (Z.to_nat count) zero) b)
    as (vs & cb' & Hp & Hlen & Hloop);
    [lia|lia|done|rewrite length_replicate; lia|].
  rewrite Z.add_0_r, Z.mod_small, !Z.sub_0_r in Hp by lia.
  rewrite Hp in Hpops. injection Hpops as Hvs Hq'.
  apply (inj (fmap (λ v, (v, true)))) in Hvs.
  replace (Z.to_nat (count - 0)) with n by lia.
  rewrite Hloop. cbn [mbind option_bind].
  rewrite (int64_add_exact h count) by (apply max_mod_in_range; lia).
  rewrite int64_rem_nonneg by (unfold Int64.max_int, max_mod in *; lia).
  cbn [mbind option_bind].
  rewrite (int64_sub_exact 0 count) by (unfold Int64.in_range, Int64.min_int, Int64.max_int, max_mod in *; lia).
  rewrite (int64_add_exact L (0 - count)) by (apply max_mod_in_range; lia).
  rewrite <- Hq', Hcount. simpl.
  rewrite drop_ge by (rewrite length_replicate; lia).
  rewrite app_nil_r, Hvs.
  by replace (L + (0 - Z.of_nat n)) with (L - Z.of_nat n) by lia.
Qed.

(** C1: the ring queue created by [New] with a positive size behaves, under
    every sequence of [Push] and [Pop], as the first-in first-out list
    [fifo]: each [Pop] returns the oldest pushed element with [true], or
    the zero value with [false] when nothing is pending; [Length] is the
    number of pushed elements not yet popped; [Pop] on the empty queue
    leaves it unchanged.  The bound on the number of operations keeps the
    [int64] capacity from wrapping. *)
Theorem ring_queue_fifo (n : Z) (ops : list (op (T:=T))) :
  0 < n ≤ max_mod → 2 * Z.of_nat (length ops) ≤ max_mod →
  ∃ q0 q', New n = Some q0 ∧
           run ops q0 = Some ((fifo ops []).1, q') ∧
           contents q' = (fifo ops []).2 ∧
           Length q' = Z.of_nat (length (fifo ops []).2) ∧
           (Length q' = 0 → Pop q' = Some (zero, false, q')).
Proof.
  intros Hn Hops.
  destruct (New_spec n Hn) as (q0 & HNew & Hwf0 & Hc0 & Hl0 & _).
  destruct (run_fifo ops q0 Hwf0) as (q' & Hrun & Hwf' & Hc'); [lia|].
  rewrite Hc0 in *.
  exists q0, q'. split; [done|]. split; [done|]. split; [done|].
  split; [|apply Pop_empty].
  pose proof (wf_len_range q' Hwf'). pose proof (length_contents q') as Hlen.
  rewrite Hc' in Hlen. unfold Length. lia.
Qed.

(** C2: when [Push] moves the tail onto the head, [grow] doubles the
    modulus and the buffer, copies the old buffer in ring order starting at
    the head to the start of the new one, and the queue then pops the
    elements enqueued before, in their order, followed by the new one. *)
Theorem Push_grow_keeps_order q x :
  wf q →
  Int64.rem (Int64.add (tail (content q)) 1) (mod_ (content q)) = Some (head (content q)) →
  2 * mod_ (content q) ≤ max_mod →
  ∃ q', Push x q = Some q' ∧
        mod_ (content q') = 2 * mod_ (content q) ∧
        Z.of_nat (length (buffer (content q'))) = 2 * mod_ (content q) ∧
        head (content q') = 0 ∧
        (∀ i : nat, Z.of_nat i < mod_ (content q) →
           buffer (content q') !! i =
           buffer (content q)
             !! Z.to_nat ((head (content q) + Z.of_nat i) `mod` mod_ (content q))) ∧
        ∃ q'', pops (length (contents q) + 1) q'
               = Some ((λ v, (v, true)) <$> (contents q ++ [x]), q'').
Proof.
  intros Hwf Hfull Hcap. pose proof Hwf as [Hb Hh Ht Hl Hm].
  rewrite (int64_add_exact _ 1) in Hfull by (apply max_mod_in_range; lia).
  rewrite int64_rem_nonneg in Hfull by (unfold Int64.max_int, max_mod in *; lia).
  injection Hfull as Hfull.
  destruct (Push_grow q x Hwf Hfull Hcap)
    as (q' & HPush & Hwf' & Hc' & Hl' & Hm' & Hh' & Ht' & Hcopy).
  exists q'. split; [done|]. split; [done|].
  split; [destruct Hwf' as [Hb' _ _ _ _]; lia|].
  split; [done|]. split; [done|].
  pose proof (wf_len_range q Hwf) as Hr.
  destruct (pops_spec (length (contents q) + 1) q' Hwf') as (q'' & Hpops & _).
  { rewrite length_contents. lia. }
  exists q''. rewrite Hpops, Hc'. do 3 f_equal.
  apply take_ge. rewrite length_app. simpl. lia.
Qed.

(** C10: on a queue holding at least one element, [PopMany k] with
    [k ≥ 1] returns the first [min k Length] elements, the values that as
    many successive calls of [Pop] return, and ends in the same queue
    state; on an empty queue it returns the nil slice and [false]. *)
Theorem PopMany_is_repeated_Pop q (k : Z) :
  wf q → 1 ≤ k →
  let n := Z.to_nat (Z.min k (Length q)) in
  (Length q = 0 → PopMany k q = Some (None, false, q)) ∧
  (Length q ≠ 0 →
   ∃ q', pops n q = Some ((λ v, (v, true)) <$> take n (contents q), q') ∧
         PopMany k q = Some (Some (take n (contents q)), true, q')).
Proof.
  intros Hwf Hk n. split.
  - intros Hz. unfold PopMany, Empty. by rewrite bool_decide_eq_true_2.
  - intros Hnz. destruct (PopMany_spec q k Hwf) as (q' & ? & ? & _); [lia|done|].
    by exists q'.
Qed.

End GoringFacts.

(** *** The queue on concrete inputs *)

Example run_demo_ops :
  fst <$> (Goring.New 1 ≫= Goring.run demo_ops)
  = Some [(1%nat, true); (2%nat, true); (3%nat, true); (0%nat, false)].
Proof. vm_compute. reflexivity. Qed.

Example Push_demo_full :
  Goring.Push 5%nat demo_full
  = Some {| Goring.len := 2; Goring.initialSize := 2;
            Goring.content := {| Goring.buffer := [0%nat; 7%nat; 5%nat; 0%nat];
                                 Goring.head := 0; Goring.tail := 2; Goring.mod_ := 4 |} |}.
Proof. vm_compute. reflexivity. Qed.

Example PopMany_demo_three :
  Goring.PopMany 2 demo_three
  = Some (Some [7%nat; 8%nat], true,
          {| Goring.len := 1; Goring.initialSize := 4;
             Goring.content := {| Goring.buffer := [0%nat; 9%nat; 0%nat; 0%nat];
                                  Goring.head := 0; Goring.tail := 1; Goring.mod_ := 4 |} |}).
Proof. vm_compute. reflexivity. Qed.

(** A queue created with size 0 has modulus 0: its first [Push] divides by
    zero.  This is why the statements above ask for a positive size. *)
Example New_zero_Push_panics :
  (Goring.New 0 ≫= Goring.Push 1%nat) = None.
Proof. vm_compute. reflexivity. Qed.

Lemma demo_full_wf : Goring.wf demo_full.
Proof. constructor; simpl; unfold Goring.max_mod; solve [reflexivity | lia]. Defined.

Lemma demo_three_wf : Goring.wf demo_three.
Proof. constructor; simpl; unfold Goring.max_mod; solve [reflexivity | lia]. Defined.

Lemma ring_queue_fifo_witness :
  0 < 1 ≤ Goring.max_mod ∧
  2 * Z.of_nat (length demo_ops) ≤ Goring.max_mod ∧
  ∃ q0 q', Goring.New 1 = Some q0 ∧
           Goring.run demo_ops q0 = Some ((Goring.fifo demo_ops []).1, q') ∧
           Goring.contents q' = (Goring.fifo demo_ops []).2 ∧
           Goring.Length q' = Z.of_nat (length (Goring.fifo demo_ops []).2) ∧
           (Goring.Length q' = 0 → Goring.Pop q' = Some (0%nat, false, q')).
Proof.
  split; [unfold Goring.max_mod; lia|].
  split; [unfold Goring.max_mod; simpl; lia|].
  apply (ring_queue_fifo 1 demo_ops); unfold Goring.max_mod; simpl; lia.
Defined.

Lemma Push_grow_keeps_order_witness :
  Goring.wf demo_full ∧
  Int64.rem (Int64.add (Goring.tail (Goring.content demo_full)) 1)
            (Goring.mod_ (Goring.content demo_full))
  = Some (Goring.head (Goring.content demo_full)) ∧
  2 * Goring.mod_ (Goring.content demo_full) ≤ Goring.max_mod ∧
  ∃ q', Goring.Push 5%nat demo_full = Some q' ∧
        Goring.mod_ (Goring.content q') = 2 * Goring.mod_ (Goring.content demo_full) ∧
        Z.of_nat (length (Goring.buffer (Goring.content q')))
        = 2 * Goring.mod_ (Goring.content demo_full) ∧
        Goring.head (Goring.content q') = 0 ∧
        (∀ i : nat, Z.of_nat i < Goring.mod_ (Goring.content demo_full) →
           Goring.buffer (Goring.content q') !! i =
           Goring.buffer (Goring.content demo_full)
             !! Z.to_nat ((Goring.head (Goring.content demo_full) + Z.of_nat i)
                          `mod` Goring.mod_ (Goring.content demo_full))) ∧
        ∃ q'', Goring.pops (length (Goring.contents demo_full) + 1) q'
               = Some ((λ v, (v, true)) <$> (Goring.contents demo_full ++ [5%nat]), q'').
Proof.
  split; [exact demo_full_wf|].
  split; [reflexivity|].
  split; [unfold Goring.max_mod; simpl; lia|].
  apply (Push_grow_keeps_order demo_full 5%nat demo_full_wf);
    [reflexivity | unfold Goring.max_mod; simpl; lia].
Defined.

Lemma PopMany_is_repeated_Pop_witness :
  Goring.wf demo_three ∧ 1 ≤ 2 ∧
  (Goring.Length demo_three = 0 → Goring.PopMany 2 demo_three = Some (None, false, demo_three)) ∧
  (Goring.Length demo_three ≠ 0 →
   ∃ q', Goring.pops 2 demo_three
         = Some ((λ v, (v, true)) <$> take 2 (Goring.contents demo_three), q') ∧
         Goring.PopMany 2 demo_three
         = Some (Some (take 2 (Goring.contents demo_three)), true, q')).
Proof.
  split; [exact demo_three_wf|]. split; [lia|].
  apply (PopMany_is_repeated_Pop demo_three 2 demo_three_wf). lia.
Defined.

(** ** Go strings *)

Section Utf8Facts.
Import Utf8.
Implicit Types (s : string) (i lo hi : Z).

Lemma bytes_nil s : bytes s = [] → s = ""%string.
Proof. by destruct s. Qed.

Lemma bytes_inj s1 s2 : bytes s1 = bytes s2 → s1 = s2.
Proof.
  revert s2. induction s1 as [|c1 s1 IH]; intros [|c2 s2]; try done.
  unfold bytes; simpl. intros [= Hc Hs]. f_equal.
  - apply N2Z.inj in Hc. rewrite <- (Ascii.ascii_N_embedding c1), <- (Ascii.ascii_N_embedding c2).
    by rewrite Hc.
  - by apply IH.
Qed.

Lemma len_bytes s : len s = Z.of_nat (length (bytes s)).
Proof.
  unfold len, bytes. rewrite length_fmap. f_equal.
  induction s as [|c s IH]; simpl; [done|]. by rewrite IH.
Qed.

Lemma len_nonneg s : 0 ≤ len s.
Proof. unfold len. lia. Qed.

Lemma get_bytes (n : nat) s :
  bytes s !! n = (λ c, Z.of_N (Ascii.N_of_ascii c)) <$> String.get n s.
Proof.
  revert n. induction s as [|c s IH]; intros [|n]; try done. apply IH.
Qed.

Lemma byte_at_bytes s i :
  0 ≤ i → byte_at s i = default 0 (bytes s !! Z.to_nat i).
Proof.
  intros Hi. unfold byte_at. rewrite decide_True by done.
  rewrite get_bytes. by destruct (String.get _ _).
Qed.

Lemma byte_at_range s i : 0 ≤ byte_at s i < 256.
Proof.
  unfold byte_at. case_decide; [|lia].
  destruct (String.get _ _) as [c|]; [|lia].
  pose proof (Ascii.N_ascii_bounded c). lia.
Qed.

Lemma bytes_substring (n m : nat) s :
  bytes (String.substring n m s) = take m (drop n (bytes s)).
Proof.
  revert n m. induction s as [|c s IH]; intros n m.
  - destruct n, m; done.
  - destruct n as [|n].
    + destruct m as [|m]; [done|]. simpl. unfold bytes in *. simpl. f_equal. apply (IH 0%nat).
    + simpl. apply IH.
Qed.

Lemma bytes_slice s lo hi :
  bytes (slice s lo hi) = take (Z.to_nat (hi - lo)) (drop (Z.to_nat lo) (bytes s)).
Proof. apply bytes_substring. Qed.

Lemma len_slice s lo hi :
  0 ≤ lo → lo ≤ hi → hi ≤ len s → len (slice s lo hi) = hi - lo.
Proof.
  intros Hlo Hhi Hlen. rewrite !len_bytes in *. rewrite bytes_slice.
  rewrite length_take, length_drop. lia.
Qed.

Lemma byte_at_slice s lo hi i :
  0 ≤ lo → hi ≤ len s → 0 ≤ i < hi - lo →
  byte_at (slice s lo hi) i = byte_at s (lo + i).
Proof.
  intros Hlo Hhi Hi. rewrite !byte_at_bytes by lia. rewrite bytes_slice.
  rewrite lookup_take_lt by lia. rewrite lookup_drop. do 2 f_equal. lia.
Qed.

Lemma slice_slice s a b c d :
  0 ≤ a → b ≤ len s → 0 ≤ c → c ≤ d → d ≤ b - a →
  slice (slice s a b) c d = slice s (a + c) (a + d).
Proof.
  intros Ha Hb Hc Hd Hdb. apply bytes_inj. rewrite !bytes_slice.
  rewrite len_bytes in Hb.
  replace (Z.to_nat (a + d - (a + c))) with (Z.to_nat (d - c)) by lia.
  apply list_eq. intros i.
  destruct (decide (i < Z.to_nat (d - c))%nat) as [Hi|Hi].
  - rewrite !lookup_take_lt by lia. rewrite !lookup_drop.
    rewrite lookup_take_lt by lia. rewrite lookup_drop. f_equal. lia.
  - by rewrite !lookup_take_ge by lia.
Qed.

Lemma slice_all s : slice s 0 (len s) = s.
Proof.
  apply bytes_inj. rewrite bytes_slice, len_bytes. simpl.
  rewrite drop_0, take_ge; [done|lia].
Qed.

Lemma slice_empty s lo hi :
  0 ≤ lo → lo ≤ hi → hi ≤ len s → slice s lo hi = ""%string → hi = lo.
Proof.
  intros Hlo Hhi Hlen He. pose proof (len_slice s lo hi Hlo Hhi Hlen) as Hl.
  rewrite He in Hl. unfold len in Hl at 1. simpl in Hl. lia.
Qed.

Lemma slice_nil s lo : slice s lo lo = ""%string.
Proof.
  unfold slice. rewrite Z.sub_diag. simpl.
  generalize (Z.to_nat lo). intros n. revert n.
  induction s as [|c s IH]; intros [|n]; simpl; try done.
Qed.

Lemma len_0 s : len s = 0 → s = ""%string.
Proof. destruct s; [done|]. unfold len. simpl. lia. Qed.

Lemma first_cases b sz lo hi :
  first b = Some (sz, lo, hi) → (sz = 2 ∨ sz = 3 ∨ sz = 4) ∧ 0xC2 ≤ b.
Proof.
  unfold first. intros Hf.
  repeat match type of Hf with
         | (if ?c then _ else _) = _ => destruct c eqn:?
         end; simplify_eq; split; auto; lia.
Qed.

Lemma DecodeRune_size s r size :
  1 ≤ len s → DecodeRuneInString s = (r, size) → 1 ≤ size ≤ len s.
Proof.
  intros Hlen. unfold DecodeRuneInString.
  destruct (Z.ltb_spec (len s) 1); [lia|].
  destruct (byte_at s 0 <? RuneSelf); [intros [= <- <-]; lia|].
  destruct (first (byte_at s 0)) as [[[sz lo] hi]|] eqn:Hf; [|intros [= <- <-]; lia].
  apply first_cases in Hf as [Hsz _].
  destruct (Z.ltb_spec (len s) sz); [intros [= <- <-]; lia|].
  destruct (_ || _); [intros [= <- <-]; lia|].
  destruct (Z.leb_spec sz 2); [intros [= <- <-]; lia|].
  destruct (_ || _); [intros [= <- <-]; lia|].
  destruct (Z.leb_spec sz 3); [intros [= <- <-]; lia|].
  destruct (_ || _); intros [= <- <-]; lia.
Qed.

Lemma DecodeRune_ascii s :
  1 ≤ len s → byte_at s 0 < RuneSelf → DecodeRuneInString s = (byte_at s 0, 1).
Proof.
  intros Hlen Hb. unfold DecodeRuneInString.
  destruct (Z.ltb_spec (len s) 1); [lia|].
  destruct (Z.ltb_spec (byte_at s 0) RuneSelf); [done|lia].
Qed.

(** A rune of width 1 is an ASCII byte or stands for an invalid byte. *)
Lemma DecodeRune_one s r :
  DecodeRuneInString s = (r, 1) →
  (r = byte_at s 0 ∧ r < RuneSelf) ∨ r = RuneError.
Proof.
  unfold DecodeRuneInString.
  destruct (len s <? 1); [intros ?; simplify_eq|].
  destruct (Z.ltb_spec (byte_at s 0) RuneSelf); [intros ?; simplify_eq; by left|].
  destruct (first (byte_at s 0)) as [[[sz lo] hi]|]; [|intros ?; simplify_eq; by right].
  destruct (len s <? sz); [intros ?; simplify_eq; by right|].
  destruct (_ || _); [intros ?; simplify_eq; by right|].
  destruct (sz <=? 2); [intros ?; simplify_eq|].
  destruct (_ || _); [intros ?; simplify_eq; by right|].
  destruct (sz <=? 3); [intros ?; simplify_eq|].
  destruct (_ || _); intros ?; simplify_eq; by right.
Qed.

(** A rune of several bytes is decoded from these bytes alone. *)
Lemma DecodeRune_prefix s n r k :
  0 ≤ n ≤ len s → 2 ≤ k →
  DecodeRuneInString (slice s 0 n) = (r, k) → DecodeRuneInString s = (r, k).
Proof.
  intros Hn Hk. unfold DecodeRuneInString. rewrite len_slice by lia.
  rewrite Z.sub_0_r.
  destruct (Z.ltb_spec n 1); [intros ?; simplify_eq; lia|].
  destruct (Z.ltb_spec (len s) 1); [lia|].
  rewrite (byte_at_slice s 0 n 0), Z.add_0_l by lia.
  destruct (byte_at s 0 <? RuneSelf); [intros ?; simplify_eq; lia|].
  destruct (first (byte_at s 0)) as [[[sz lo] hi]|] eqn:Hf; [|intros ?; simplify_eq; lia].
  apply first_cases in Hf as [Hsz _].
  destruct (Z.ltb_spec n sz); [intros ?; simplify_eq; lia|].
  destruct (Z.ltb_spec (len s) sz); [lia|].
  rewrite (byte_at_slice s 0 n 1), Z.add_0_l by lia.
  destruct (_ || _); [intros ?; simplify_eq; lia|].
  destruct (Z.leb_spec sz 2); [done|].
  rewrite (byte_at_slice s 0 n 2), Z.add_0_l by lia.
  destruct (_ || _); [intros ?; simplify_eq; lia|].
  destruct (Z.leb_spec sz 3); [done|].
  rewrite (byte_at_slice s 0 n 3), Z.add_0_l by lia. done.
Qed.

Lemma scan_start_le (fuel : nat) s lim start : scan_start fuel s lim start ≤ start.
Proof.
  revert start. induction fuel as [|fuel IH]; intros start; simpl; [lia|].
  destruct (start <? lim); [lia|]. destruct (RuneStart _); [lia|].
  specialize (IH (start - 1)). lia.
Qed.

(** The last rune: an ASCII byte, an invalid byte, or a rune of several
    bytes that decodes from where it starts. *)
Lemma DecodeLastRune_spec s r size :
  1 ≤ len s → DecodeLastRuneInString s = (r, size) →
  1 ≤ size ≤ len s ∧
  ((size = 1 ∧ ((r = byte_at s (len s - 1) ∧ r < RuneSelf) ∨ r = RuneError)) ∨
   (2 ≤ size ∧ DecodeRuneInString (slice s (len s - size) (len s)) = (r, size))).
Proof.
  intros Hlen. unfold DecodeLastRuneInString.
  destruct (Z.eqb_spec (len s) 0); [lia|].
  destruct (Z.ltb_spec (byte_at s (len s - 1)) RuneSelf).
  { intros [= <- <-]. split; [lia|]. left. split; [done|]. by left. }
  set (lim := if len s - UTFMax <? 0 then 0 else len s - UTFMax).
  pose proof (scan_start_le (Z.to_nat UTFMax) s lim (len s - 1 - 1)) as Hle.
  set (start0 := scan_start (Z.to_nat UTFMax) s lim (len s - 1 - 1)) in *.
  set (start := if start0 <? 0 then 0 else start0).
  assert (0 ≤ start < len s) as Hstart.
  { subst start. destruct (Z.ltb_spec start0 0); lia. }
  destruct (DecodeRuneInString (slice s start (len s))) as [r' size'] eqn:Hd.
  assert (1 ≤ len (slice s start (len s))) as Hls by (rewrite len_slice; lia).
  pose proof (DecodeRune_size _ _ _ Hls Hd) as Hsz.
  rewrite len_slice in Hsz by lia.
  destruct (Z.eqb_spec (start + size') (len s)) as [He|He]; simpl.
  - intros [= <- <-]. split; [lia|].
    replace start with (len s - size') in Hd by lia.
    destruct (decide (size' = 1)) as [->|Hne]; [|right; split; [lia|done]].
    left. split; [done|]. right.
    apply DecodeRune_one in Hd as [[Hr Hlt]|Hr]; [|done].
    rewrite byte_at_slice in Hr by lia. rewrite Z.add_0_r in Hr. subst r'. lia.
  - intros [= <- <-]. split; [lia|]. left. split; [done|]. by right.
Qed.

End Utf8Facts.

Section TrimSpaceFacts.
Import Utf8 Unicode Strings.
Implicit Types (s w : string) (i j k : Z) (fuel : nat).

Lemma IsSpace_RuneError : IsSpace RuneError = false.
Proof. reflexivity. Qed.

Lemma IsSpace_ascii c : 0 ≤ c < RuneSelf → IsSpace c = asciiSpace c.
Proof.
  intros Hc. unfold IsSpace, asciiSpace, RuneSelf in *.
  destruct (Z.leb_spec c 0xFF); [|lia].
  rewrite (proj2 (Z.eqb_neq c 0x85)), (proj2 (Z.eqb_neq c 0xA0)) by lia.
  by rewrite !orb_false_r.
Qed.

(** Backwards from offset [i], the search for a rune that is not white
    space succeeds when the first rune of [w] is not white space. *)
Lemma lastIndexFunc_from_Some w :
  1 ≤ len w → IsSpace (DecodeRuneInString w).1 = false →
  ∀ fuel i, 0 < i ≤ len w → i ≤ Z.of_nat fuel →
  ∃ j, lastIndexFunc_from fuel w i IsSpace false = Some j ∧ 0 ≤ j < i.
Proof.
  intros Hlen Hfirst. induction fuel as [|fuel IH]; intros i Hi Hfuel; [lia|].
  simpl. destruct (Z.leb_spec i 0); [lia|].
  assert (len (slice w 0 i) = i) as Hlx by (rewrite len_slice; lia).
  destruct (DecodeLastRuneInString (slice w 0 i)) as [r size] eqn:Hd.
  apply DecodeLastRune_spec in Hd as [Hsz Hcases]; [|lia].
  rewrite Hlx in *.
  destruct (IsSpace r) eqn:Hsp; simpl.
  - assert (size < i) as Hlt.
    { destruct (decide (size = i)) as [->|]; [exfalso|lia].
      destruct Hcases as [[-> [[Hr Hrs]|Hr]]|[Hk Hdec]].
      - rewrite byte_at_slice in Hr by lia. change (0 + (1 - 1)) with 0 in Hr.
        rewrite DecodeRune_ascii in Hfirst by (lia || (rewrite <- Hr; lia)).
        simpl in Hfirst. congruence.
      - subst r. by rewrite IsSpace_RuneError in Hsp.
      - rewrite Z.sub_diag in Hdec.
        rewrite slice_slice in Hdec by lia. simpl in Hdec.
        apply DecodeRune_prefix in Hdec; [|lia|lia].
        rewrite Hdec in Hfirst. simpl in Hfirst. congruence. }
    destruct (IH (i - size)) as (j & -> & Hj); [lia|lia|]. exists j. split; [done|lia].
  - exists (i - size). split; [done|lia].
Qed.

Lemma TrimRightFunc_nonempty w :
  1 ≤ len w → IsSpace (DecodeRuneInString w).1 = false →
  TrimRightFunc w IsSpace ≠ ""%string.
Proof.
  intros Hlen Hfirst. unfold TrimRightFunc, lastIndexFunc.
  destruct (lastIndexFunc_from_Some w Hlen Hfirst (String.length w) (len w))
    as (j & -> & Hj); [lia|unfold len; lia|].
  destruct (RuneSelf <=? byte_at w j).
  - destruct (DecodeRuneInString (slice w j (len w))) as [r wid] eqn:Hd.
    apply DecodeRune_size in Hd; rewrite len_slice in * by lia; [|lia].
    intros He. apply slice_empty in He; lia.
  - intros He. apply slice_empty in He; lia.
Qed.

Lemma runes_from_fuel s : ∀ fuel fuel' i,
  0 ≤ i → len s - i ≤ Z.of_nat fuel → len s - i ≤ Z.of_nat fuel' →
  runes_from fuel s i = runes_from fuel' s i.
Proof.
  induction fuel as [|fuel IH]; intros fuel' i Hi Hf Hf'.
  - destruct fuel' as [|fuel']; [done|]. simpl.
    destruct (Z.leb_spec (len s) i); [done|lia].
  - destruct fuel' as [|fuel']; simpl.
    + destruct (Z.leb_spec (len s) i); [done|lia].
    + destruct (Z.leb_spec (len s) i); [done|].
      destruct (DecodeRuneInString (slice s i (len s))) as [r size] eqn:Hd.
      apply DecodeRune_size in Hd; rewrite len_slice in * by lia; [|lia].
      f_equal. apply IH; lia.
Qed.

Lemma runes_from_slice s k : ∀ fuel i,
  0 ≤ k ≤ len s → 0 ≤ i →
  runes_from fuel (slice s k (len s)) i = runes_from fuel s (k + i).
Proof.
  induction fuel as [|fuel IH]; intros i Hk Hi; [done|]. simpl.
  rewrite len_slice by lia.
  destruct (Z.leb_spec (len s - k) i); destruct (Z.leb_spec (len s) (k + i)); try lia; [done|].
  rewrite slice_slice by lia.
  replace (k + (len s - k)) with (len s) by lia.
  destruct (DecodeRuneInString (slice s (k + i) (len s))) as [r size] eqn:Hd.
  apply DecodeRune_size in Hd; rewrite len_slice in * by lia; [|lia].
  f_equal. rewrite IH by lia. f_equal. lia.
Qed.

Lemma blank_spaces_from s : Message.blank s ↔ spaces_from s 0 = true.
Proof.
  unfold Message.blank, spaces_from, runes.
  rewrite (runes_from_fuel s (String.length s) (Z.to_nat (len s - 0)) 0); [done|lia| |].
  - unfold len. lia.
  - pose proof (len_nonneg s). lia.
Qed.

Lemma spaces_from_slice s k i :
  0 ≤ k ≤ len s → 0 ≤ i →
  spaces_from (slice s k (len s)) i = spaces_from s (k + i).
Proof.
  intros Hk Hi. unfold spaces_from. rewrite len_slice by lia.
  rewrite runes_from_slice by lia. do 2 f_equal. f_equal. lia.
Qed.

Lemma spaces_from_end s i : len s ≤ i → spaces_from s i = true.
Proof.
  intros Hi. unfold spaces_from. replace (Z.to_nat (len s - i)) with 0%nat by lia. done.
Qed.

Lemma spaces_from_step s i r size :
  0 ≤ i < len s → DecodeRuneInString (slice s i (len s)) = (r, size) →
  spaces_from s i = IsSpace r && spaces_from s (i + size).
Proof.
  intros Hi Hd. unfold spaces_from.
  destruct (Z.to_nat (len s - i)) as [|fuel] eqn:Hfuel; [lia|]. simpl.
  destruct (Z.leb_spec (len s) i); [lia|]. rewrite Hd. simpl. f_equal.
  apply DecodeRune_size in Hd; rewrite len_slice in * by lia; [|lia].
  f_equal. apply runes_from_fuel; lia.
Qed.

Lemma spaces_from_ascii s i :
  0 ≤ i < len s → byte_at s i < RuneSelf →
  spaces_from s i = asciiSpace (byte_at s i) && spaces_from s (i + 1).
Proof.
  intros Hi Hb.
  assert (DecodeRuneInString (slice s i (len s)) = (byte_at s i, 1)) as Hd.
  { rewrite DecodeRune_ascii; rewrite ?len_slice, ?byte_at_slice by lia;
      rewrite ?Z.add_0_r; [done|lia|done]. }
  rewrite (spaces_from_step s i _ _ Hi Hd).
  rewrite IsSpace_ascii; [done|]. pose proof (byte_at_range s i). lia.
Qed.

(** Forwards from offset [i], the search for a rune that is not white
    space fails exactly when all runes are white space. *)
Lemma indexFunc_from_spec s : ∀ fuel i,
  0 ≤ i → len s - i ≤ Z.of_nat fuel →
  match indexFunc_from fuel s i IsSpace false with
  | None => spaces_from s i = true
  | Some j => i ≤ j < len s ∧
              IsSpace (DecodeRuneInString (slice s j (len s))).1 = false ∧
              spaces_from s i = false
  end.
Proof.
  induction fuel as [|fuel IH]; intros i Hi Hfuel; simpl.
  - apply spaces_from_end. lia.
  - destruct (Z.leb_spec (len s) i); [by apply spaces_from_end|].
    destruct (DecodeRuneInString (slice s i (len s))) as [r size] eqn:Hd.
    rewrite (spaces_from_step s i r size) by (done || lia).
    apply DecodeRune_size in Hd as Hsz; rewrite len_slice in * by lia; [|lia].
    destruct (IsSpace r) eqn:Hsp; simpl.
    + specialize (IH (i + size)).
      destruct (indexFunc_from fuel s (i + size) IsSpace false) as [j|].
      * destruct IH as (Hj & Hfirst & Hsf); [lia|lia|]. split; [lia|]. done.
      * apply IH; lia.
    + split; [lia|]. by rewrite Hd.
Qed.

(** The first loop of [TrimSpace] passes ASCII white space only. *)
Lemma trim_start_spec s : ∀ fuel start,
  0 ≤ start ≤ len s → len s - start ≤ Z.of_nat fuel →
  match trim_start fuel s start with
  | inl k => start ≤ k ≤ len s ∧ spaces_from s start = spaces_from s k ∧
             (k = len s ∨
              (k < len s ∧ byte_at s k < RuneSelf ∧ asciiSpace (byte_at s k) = false))
  | inr k => start ≤ k < len s ∧ spaces_from s start = spaces_from s k ∧
             RuneSelf ≤ byte_at s k
  end.
Proof.
  induction fuel as [|fuel IH]; intros start Hs Hfuel; simpl.
  - split; [lia|]. split; [done|]. left. lia.
  - destruct (Z.leb_spec (len s) start).
    { split; [lia|]. split; [done|]. left. lia. }
    destruct (Z.leb_spec RuneSelf (byte_at s start)); [done|].
    destruct (asciiSpace (byte_at s start)) eqn:Ha; simpl.
    + specialize (IH (start + 1)).
      rewrite (spaces_from_ascii s start), Ha by lia. simpl.
      destruct (trim_start fuel s (start + 1)) as [k|k].
      * destruct IH as (Hk & Hsp & Hend); [lia|lia|]. split; [lia|done].
      * destruct IH as (Hk & Hsp & Hend); [lia|lia|]. split; [lia|done].
    + split; [lia|]. split; [done|]. right. done.
Qed.

(** The second loop of [TrimSpace] stops above a byte that is not white
    space. *)
Lemma trim_stop_above s start :
  byte_at s start < RuneSelf → asciiSpace (byte_at s start) = false →
  ∀ fuel stop, start < stop →
  match trim_stop fuel s start stop with
  | inl j | inr j => start < j ≤ stop
  end.
Proof.
  intros Hb Ha. induction fuel as [|fuel IH]; intros stop Hstop; simpl; [lia|].
  destruct (Z.leb_spec stop start); [lia|].
  destruct (RuneSelf <=? byte_at s (stop - 1)); [lia|].
  destruct (asciiSpace (byte_at s (stop - 1))) eqn:Ha'; simpl; [|lia].
  assert (start < stop - 1) as Hlt.
  { destruct (decide (stop - 1 = start)) as [He|]; [|lia]. rewrite He in Ha'. congruence. }
  specialize (IH (stop - 1) Hlt).
  destruct (trim_stop fuel s start (stop - 1)); lia.
Qed.

(** [TrimSpace] leaves nothing exactly of the strings in which every rune
    is white space. *)
Lemma TrimSpace_blank s : TrimSpace s = ""%string ↔ Message.blank s.
Proof.
  rewrite blank_spaces_from. unfold TrimSpace.
  pose proof (len_nonneg s) as Hlen.
  pose proof (trim_start_spec s (String.length s) 0) as Hstart.
  destruct (trim_start (String.length s) s 0) as [k|k].
  - destruct Hstart as (Hk & -> & [->|(Hlt & Hb & Ha)]); [lia|unfold len; lia| |].
    + rewrite spaces_from_end by lia.
      assert (trim_stop (String.length s) s (len s) (len s) = inl (len s)) as ->.
      { destruct (String.length s); simpl; [done|]. by rewrite Z.leb_refl. }
      by rewrite slice_nil.
    + rewrite spaces_from_ascii, Ha by lia. simpl.
      pose proof (trim_stop_above s k Hb Ha (String.length s) (len s) Hlt) as Hstop.
      split; [|done]. intros He. exfalso.
      destruct (trim_stop (String.length s) s k (len s)) as [j|j].
      * apply slice_empty in He; lia.
      * revert He. apply TrimRightFunc_nonempty.
        -- rewrite len_slice; lia.
        -- rewrite DecodeRune_ascii; rewrite ?len_slice, ?byte_at_slice by lia;
             rewrite ?Z.add_0_r; [|lia|done].
           simpl. rewrite IsSpace_ascii; [done|]. pose proof (byte_at_range s k). lia.
  - destruct Hstart as (Hk & -> & Hb); [lia|unfold len; lia|].
    unfold TrimFunc, TrimLeftFunc, indexFunc.
    set (u := slice s k (len s)).
    assert (len u = len s - k) as Hlu by (subst u; rewrite len_slice; lia).
    pose proof (indexFunc_from_spec u (String.length u) 0) as Hidx.
    rewrite <- (Z.add_0_r k), <- (spaces_from_slice s k 0) by lia. fold u.
    destruct (indexFunc_from (String.length u) u 0 IsSpace false) as [j|].
    + destruct Hidx as (Hj & Hfirst & ->); [lia|unfold len; lia|].
      split; [|done]. intros He. exfalso. revert He.
      apply TrimRightFunc_nonempty; [rewrite len_slice; lia|done].
    + rewrite Hidx by (lia || unfold len; lia). done.
Qed.

(** For a string of ASCII bytes, blank means that every byte is one of
    tab, line feed, vertical tab, form feed, carriage return and space. *)
Lemma blank_ascii s :
  (∀ i, 0 ≤ i < len s → byte_at s i < RuneSelf) →
  Message.blank s ↔ ∀ i, 0 ≤ i < len s → asciiSpace (byte_at s i) = true.
Proof.
  intros Hascii. rewrite blank_spaces_from.
  assert (∀ (n : nat) i, i = len s - Z.of_nat n → 0 ≤ i →
            spaces_from s i = true ↔
            ∀ j, i ≤ j < len s → asciiSpace (byte_at s j) = true) as Hind.
  { induction n as [|n IH]; intros i -> Hi.
    - rewrite spaces_from_end by lia. split; [|done]. intros _ j Hj. lia.
    - rewrite spaces_from_ascii by (lia || apply Hascii; lia).
      rewrite andb_true_iff, (IH (len s - Z.of_nat (S n) + 1)) by lia. split.
      + intros [Ha Hrest] j Hj.
        destruct (decide (j = len s - Z.of_nat (S n))) as [->|]; [done|].
        apply Hrest. lia.
      + intros Hall. split; [apply Hall; lia|]. intros j Hj. apply Hall. lia. }
  pose proof (len_nonneg s).
  apply (Hind (Z.to_nat (len s)) 0); lia.
Qed.

End TrimSpaceFacts.

(** ** Routes *)

Section StringsFacts.
Import Strings.
Implicit Types (s : string) (c sep : Ascii.ascii).

Lemma Split_not_nil s sep : Split s sep ≠ [].
Proof.
  destruct s as [|c s]; simpl; [done|].
  destruct (Ascii.eqb c sep); [done|]. by destruct (Split s sep).
Qed.

Lemma Split_no_sep s sep : ContainsByte s sep = false → Split s sep = [s].
Proof.
  induction s as [|c s IH]; simpl; [done|].
  intros [Hc Hs]%orb_false_elim. rewrite Hc, IH by done. done.
Qed.

Lemma Split_app_sep s1 s2 sep :
  ContainsByte s1 sep = false →
  Split (s1 +:+ String.String sep s2) sep = s1 :: Split s2 sep.
Proof.
  induction s1 as [|c s1 IH]; simpl.
  - intros _. by rewrite Ascii.eqb_refl.
  - intros [Hc Hs]%orb_false_elim. by rewrite Hc, IH.
Qed.

(** [Split] cuts [s] into the pieces between the separators: joining them
    gives [s] back, and no piece contains the separator. *)
Lemma Join_Split s sep : Join (Split s sep) (String.String sep "") = s.
Proof.
  induction s as [|c s IH]; simpl; [done|].
  destruct (Ascii.eqb_spec c sep) as [->|Hne].
  - pose proof (Split_not_nil s sep). destruct (Split s sep) as [|x xs]; [done|].
    simpl in *. by rewrite IH.
  - pose proof (Split_not_nil s sep). destruct (Split s sep) as [|x xs]; [done|].
    destruct xs as [|y ys]; simpl in *; by rewrite <- IH.
Qed.

Lemma Split_pieces s sep : Forall (λ x, ContainsByte x sep = false) (Split s sep).
Proof.
  induction s as [|c s IH]; simpl.
  - by constructor.
  - destruct (Ascii.eqb_spec c sep) as [->|Hne].
    + by constructor.
    + pose proof (Split_not_nil s sep). destruct (Split s sep) as [|x xs]; [done|].
      inversion IH as [|? ? Hx Hxs]; subst. constructor; [|done].
      simpl. rewrite Hx. by apply orb_false_intro; [apply Ascii.eqb_neq|].
Qed.

Lemma Join_cons_cons (x y : string) (l : list string) (sep : string) :
  Join (x :: y :: l) sep = x +:+ sep +:+ Join (y :: l) sep.
Proof. reflexivity. Qed.

Lemma Split_Join (l : list string) sep :
  l ≠ [] → Forall (λ x, ContainsByte x sep = false) l →
  Split (Join l (String.String sep "")) sep = l.
Proof.
  induction l as [|x l IH]; [done|]. intros _ Hall.
  inversion Hall as [|? ? Hx Hl]; subst.
  destruct l as [|y l].
  - by apply Split_no_sep.
  - rewrite Join_cons_cons.
    change (String.String sep "" +:+ Join (y :: l) (String.String sep ""))
      with (String.String sep (Join (y :: l) (String.String sep ""))).
    rewrite Split_app_sep by done. f_equal. by apply IH.
Qed.

Lemma TrimSpace_empty : TrimSpace "" = ""%string.
Proof. reflexivity. Qed.

End StringsFacts.

Section MessageFacts.
Import Strings Message.
Implicit Types (s route : string) (r : Route).

Lemma field_empty_true (l : list string) :
  field_empty l = true ↔ ∃ s, s ∈ l ∧ blank s.
Proof.
  induction l as [|x l IH]; simpl.
  - split; [done|]. intros (s & Hs & _). by apply elem_of_nil in Hs.
  - destruct (String.eqb_spec (TrimSpace x) "") as [Hx|Hx].
    + split; [|done]. intros _. exists x.
      split; [apply list_elem_of_here|by apply TrimSpace_blank].
    + rewrite IH. split.
      * intros (s & Hs & Hb). exists s. split; [by apply list_elem_of_further|done].
      * intros (s & Hs & Hb). apply elem_of_cons in Hs as [->|Hs]; [|by eauto].
        by apply TrimSpace_blank in Hb.
Qed.

Lemma field_empty_false (l : list string) :
  field_empty l = false ↔ ∀ s, s ∈ l → ¬ blank s.
Proof.
  rewrite <- not_true_iff_false, field_empty_true. split.
  - intros Hn s Hs Hb. apply Hn. eauto.
  - intros Hn (s & Hs & Hb). by apply (Hn s).
Qed.

(** C5: [DecodeRoute] returns the field-empty error as soon as one of the
    dot-separated fields is [blank], that is empty or made of white-space
    runes only; otherwise it returns the invalid-route error for three or
    more fields, and for a single field the route with an empty service and
    that field as method. *)
Theorem DecodeRoute_cases :
  (∀ route s, s ∈ Split route "." → blank s →
     DecodeRoute route = (zero, Some ErrRouteFieldCantEmpty)) ∧
  (∀ route, (∀ s, s ∈ Split route "." → ¬ blank s) →
     (3 ≤ length (Split route "."))%nat →
     DecodeRoute route = (zero, Some ErrInvalidRoute)) ∧
  (∀ route, ContainsByte route "." = false → ¬ blank route →
     DecodeRoute route = ({| Service := ""; Method := route |}, None)) ∧
  DecodeRoute "room. " = (zero, Some ErrRouteFieldCantEmpty) ∧
  DecodeRoute "a.b.c" = (zero, Some ErrInvalidRoute) ∧
  DecodeRoute "ping" = ({| Service := ""; Method := "ping" |}, None).
Proof.
  split; [|split; [|split; [|by vm_compute]]].
  - intros route s Hs Hb. unfold DecodeRoute.
    assert (field_empty (Split route ".") = true) as ->; [|done].
    apply field_empty_true. eauto.
  - intros route Hnb Hlen. unfold DecodeRoute.
    apply field_empty_false in Hnb. rewrite Hnb.
    destruct (Split route ".") as [|a [|b [|c l]]]; simpl in *; try lia. done.
  - intros route Hdot Hnb. unfold DecodeRoute.
    rewrite Split_no_sep by done.
    assert (field_empty [route] = false) as ->; [|done].
    apply field_empty_false. intros s ->%list_elem_of_singleton. done.
Qed.

(** C6: for a route whose method is not blank, whose service is empty or
    not blank, and whose fields contain no dot, [String] gives
    [service.method], or [method] alone when the service is empty, and
    [DecodeRoute] gives the route back without an error. *)
Theorem Route_String_DecodeRoute r :
  ContainsByte (Service r) "." = false →
  ContainsByte (Method r) "." = false →
  ¬ blank (Method r) →
  Service r = ""%string ∨ ¬ blank (Service r) →
  String_ r = (if decide (Service r = ""%string) then Method r
               else Service r +:+ "." +:+ Method r) ∧
  DecodeRoute (String_ r) = (r, None).
Proof.
  intros Hs Hm Hbm Hbs. destruct r as [sv me]; simpl in *.
  unfold String_; simpl. destruct (String.eqb_spec sv "") as [->|Hne]; simpl.
  - split; [done|]. unfold DecodeRoute. rewrite Split_no_sep by done.
    assert (field_empty [me] = false) as ->; [|done].
    apply field_empty_false. intros s ->%list_elem_of_singleton. done.
  - rewrite decide_False by done. split; [done|].
    destruct Hbs as [?|Hbs]; [done|].
    unfold DecodeRoute.
    change (sv +:+ "." +:+ me) with (sv +:+ String.String "." me).
    rewrite Split_app_sep, Split_no_sep by done.
    assert (field_empty [sv; me] = false) as ->; [|done].
    apply field_empty_false. intros s Hin.
    apply elem_of_cons in Hin as [->|Hin]; [done|].
    apply list_elem_of_singleton in Hin as ->. done.
Qed.

End MessageFacts.

Example String_demo_route : Message.String_ demo_route = "room.join"%string.
Proof. reflexivity. Qed.

Example Short_demo_route : Message.Short demo_route = "room.join"%string.
Proof. reflexivity. Qed.

(** A service of white space only does not survive the round trip. *)
Example DecodeRoute_String_blank_service :
  Message.DecodeRoute (Message.String_ {| Message.Service := " "; Message.Method := "m" |})
  = (zero, Some Message.ErrRouteFieldCantEmpty).
Proof. vm_compute. reflexivity. Qed.

(** An empty segment wins over the number of segments. *)
Example DecodeRoute_empty_segment_first :
  Message.DecodeRoute "a..c" = (zero, Some Message.ErrRouteFieldCantEmpty).
Proof. vm_compute. reflexivity. Qed.

(** A no-break space (U+00A0, bytes C2 A0) is white space for
    [DecodeRoute], an ASCII-only test would miss it. *)
Example DecodeRoute_no_break_space :
  Message.DecodeRoute
    (String.String "r" (String.String "." (String.String (ascii_of_nat 194)
       (String.String (ascii_of_nat 160) String.EmptyString))))
  = (zero, Some Message.ErrRouteFieldCantEmpty).
Proof. vm_compute. reflexivity. Qed.

Lemma Route_String_DecodeRoute_witness :
  Strings.ContainsByte (Message.Service demo_route) "." = false ∧
  Strings.ContainsByte (Message.Method demo_route) "." = false ∧
  ¬ Message.blank (Message.Method demo_route) ∧
  (Message.Service demo_route = ""%string ∨ ¬ Message.blank (Message.Service demo_route)) ∧
  Message.String_ demo_route
  = (if decide (Message.Service demo_route = ""%string) then Message.Method demo_route
     else Message.Service demo_route +:+ "." +:+ Message.Method demo_route) ∧
  Message.DecodeRoute (Message.String_ demo_route) = (demo_route, None).
Proof.
  assert (¬ Message.blank (Message.Method demo_route)) as Hm
    by (unfold Message.blank; intros Hb; vm_compute in Hb; discriminate Hb).
  assert (¬ Message.blank (Message.Service demo_route)) as Hs
    by (unfold Message.blank; intros Hb; vm_compute in Hb; discriminate Hb).
  split; [reflexivity|]. split; [reflexivity|]. split; [exact Hm|].
  split; [right; exact Hs|].
  apply (Route_String_DecodeRoute demo_route);
    [reflexivity | reflexivity | exact Hm | right; exact Hs].
Defined.

(** ** The TCP connection *)

Section AcceptorFacts.
Import Codec Acceptor.
Implicit Types (header body rest data : list Byte.byte) (tc : Conn).

Lemma ReadAllLimit_enough n data rest e :
  Z.of_nat (length data) = n →
  ReadAllLimit n {| incoming := data ++ rest; fate := e |}
  = Some (data, None, {| incoming := rest; fate := e |}).
Proof.
  intros Hn. unfold ReadAllLimit; simpl. destruct (decide (n ≤ 0)) as [Hz|Hz].
  - destruct data; [done|simpl in *; lia].
  - rewrite decide_True by (rewrite length_app; lia).
    rewrite take_app_length', drop_app_length' by lia. done.
Qed.

Lemma ReadAllLimit_short n data :
  Z.of_nat (length data) < n →
  ReadAllLimit n {| incoming := data; fate := EOF |}
  = Some (data, None, {| incoming := []; fate := EOF |}).
Proof.
  intros Hn. unfold ReadAllLimit; simpl.
  rewrite decide_False by lia. by rewrite decide_False by lia.
Qed.

(** A failed read is reported as it is, before any other check. *)
Lemma GetNextMessage_read_error data code :
  Z.of_nat (length data) < HeadLength →
  GetNextMessage {| incoming := data; fate := Failed code |}
  = Some (None, Some (ErrIO code), {| incoming := []; fate := Failed code |}).
Proof.
  intros Hn. unfold GetNextMessage, ReadAllLimit, HeadLength in *; simpl.
  by rewrite decide_False by lia.
Qed.

(** C7: [GetNextMessage] takes the 4 bytes of the header and the number of
    payload bytes the header declares from the stream, and returns header
    and payload together; a stream that ends before the first header byte
    gives the connection-closed error; one that ends before the declared
    payload is complete gives the message-smaller-than-expected error. *)
Theorem GetNextMessage_frames :
  (∀ header body rest e typ size,
     length header = 4%nat →
     ParseHeader header = (typ, size, None) →
     Z.of_nat (length body) = size →
     GetNextMessage {| incoming := header ++ body ++ rest; fate := e |}
     = Some (Some (header ++ body), None, {| incoming := rest; fate := e |})) ∧
  GetNextMessage {| incoming := []; fate := EOF |}
  = Some (None, Some ErrConnectionClosed, {| incoming := []; fate := EOF |}) ∧
  (∀ header body typ size,
     length header = 4%nat →
     ParseHeader header = (typ, size, None) →
     Z.of_nat (length body) < size →
     GetNextMessage {| incoming := header ++ body; fate := EOF |}
     = Some (None, Some ErrReceivedMsgSmallerThanExpected,
             {| incoming := []; fate := EOF |})) ∧
  GetNextMessage {| incoming := [Byte.x04; Byte.x00; Byte.x00; Byte.x02;
                                 Byte.x68; Byte.x69; Byte.x03];
                    fate := Silent |}
  = Some (Some [Byte.x04; Byte.x00; Byte.x00; Byte.x02; Byte.x68; Byte.x69], None,
          {| incoming := [Byte.x03]; fate := Silent |}).
Proof.
  split; [|split; [done|split; [|by vm_compute]]].
  - intros header body rest e typ size Hh Hp Hb. unfold GetNextMessage.
    rewrite ReadAllLimit_enough by (unfold HeadLength; lia). simpl.
    rewrite decide_False by lia. rewrite Hp.
    rewrite ReadAllLimit_enough by done. simpl.
    by rewrite decide_False by lia.
  - intros header body typ size Hh Hp Hb. unfold GetNextMessage.
    rewrite ReadAllLimit_enough by (unfold HeadLength; lia). simpl.
    rewrite decide_False by lia. rewrite Hp.
    rewrite ReadAllLimit_short by done. simpl.
    by rewrite decide_True by lia.
Qed.

End AcceptorFacts.

(** ** The client *)

Lemma filter_none {A} (P : A → Prop) `{∀ x, Decision (P x)} (l : list A) :
  (∀ x, x ∈ l → ¬ P x) → filter P l = [].
Proof.
  induction l as [|x l IH]; intros Hl; [done|].
  rewrite filter_cons_False by (apply Hl, list_elem_of_here).
  apply IH. intros y Hy. by apply Hl, list_elem_of_further.
Qed.

Lemma length_filter_eq_NoDup (ids : list Z) (id : Z) :
  NoDup ids → (length (filter (λ x, x = id) ids) ≤ 1)%nat.
Proof.
  induction 1 as [|x l Hx Hnd IH]; [simpl; lia|].
  destruct (decide (x = id)) as [->|Hne].
  - rewrite filter_cons_True by done. simpl.
    rewrite filter_none; [simpl; lia|]. by intros y Hy ->.
  - by rewrite filter_cons_False.
Qed.

Section ClientFacts.
Import Client.
Variable json_Marshal : BatteryError → list Byte.byte.
Variable Decode : list Byte.byte → option Message * option error.
Variable buildPacket : Message → list Byte.byte * option error.
Implicit Types (c : Client) (m : Message) (v : pendingRequest) (id k : Z)
  (toDelete : list pendingRequest) (visits : list (Z * Z)).

Local Abbreviation timeoutResponse := (timeoutResponse json_Marshal).
Local Abbreviation reap := (reap json_Marshal).
Local Abbreviation reaperTick := (reaperTick json_Marshal).
Local Abbreviation handlePacket := (handlePacket Decode).
Local Abbreviation sendMsg := (sendMsg buildPacket).
Local Abbreviation step := (step json_Marshal Decode buildPacket).
Local Abbreviation run := (run json_Marshal Decode buildPacket).

Lemma collect_foldl c visits (acc : list pendingRequest) :
  foldl (λ toDelete '(k, now),
           match pendingRequests c !! k with
           | Some v =>
               if decide (now - sentAt v > requestTimeout c) then toDelete ++ [v]
               else toDelete
           | None => toDelete
           end) acc visits
  = acc ++ omap (kept c) visits.
Proof.
  revert acc. induction visits as [|[k now] visits IH]; intros acc; simpl.
  - by rewrite app_nil_r.
  - rewrite IH. unfold kept at 2; simpl.
    destruct (pendingRequests c !! k) as [v|]; simpl; [|done].
    case_decide; [|done]. by rewrite <- app_assoc.
Qed.

Lemma collect_omap c visits : collect c visits = omap (kept c) visits.
Proof. unfold collect. by rewrite collect_foldl. Qed.

Lemma collect_elem c visits v :
  v ∈ collect c visits ↔
  ∃ k now, (k, now) ∈ visits ∧ pendingRequests c !! k = Some v ∧
           now - sentAt v > requestTimeout c.
Proof.
  rewrite collect_omap, list_elem_of_omap. split.
  - intros ([k now] & Hin & Hk). unfold kept in Hk; simpl in Hk.
    destruct (pendingRequests c !! k) as [v'|] eqn:Hl; simpl in Hk; [|done].
    case_decide; [|done]. injection Hk as ->. eauto.
  - intros (k & now & Hin & Hl & He). exists (k, now). split; [done|].
    unfold kept; simpl. rewrite Hl; simpl. by rewrite decide_True.
Qed.

Lemma collect_ids_sublist c visits :
  wf c → (ID ∘ msg) <$> collect c visits `sublist_of` visits.*1.
Proof.
  intros [Hkey _]. rewrite collect_omap.
  induction visits as [|[k now] visits IH]; simpl; [done|].
  unfold kept at 1; simpl.
  destruct (pendingRequests c !! k) as [v|] eqn:Hl; simpl.
  - case_decide; simpl.
    + rewrite (Hkey k v Hl). by apply sublist_skip.
    + by apply sublist_cons.
  - by apply sublist_cons.
Qed.

Lemma ranges_over_NoDup visits c : ranges_over visits c → NoDup visits.*1.
Proof. intros Hp. rewrite Hp. apply NoDup_fst_map_to_list. Qed.

Lemma forget_tokens id c :
  (0 < pendingChan c)%nat →
  ∃ c', forget id c = Some c' ∧
        pendingRequests c' = delete id (pendingRequests c) ∧
        S (pendingChan c') = pendingChan c ∧
        IncomingMsgChan c' = IncomingMsgChan c ∧
        nextID c' = nextID c ∧ requestTimeout c' = requestTimeout c.
Proof.
  intros Ht. unfold forget. destruct (pendingChan c) as [|n] eqn:Hn; [lia|].
  eexists. split; [done|]. simpl. done.
Qed.

Lemma forget_channel id c c' :
  forget id c = Some c' →
  IncomingMsgChan c' = IncomingMsgChan c ∧ received c' = received c ∧ unread c' = unread c.
Proof.
  unfold forget. destruct (pendingChan c) as [|n]; [done|]. by intros [= <-].
Qed.

Lemma forget_wf id c c' :
  wf c → is_Some (pendingRequests c !! id) → forget id c = Some c' → wf c'.
Proof.
  intros [Hkey Htok Hrec Hun] [v Hv] Hf.
  assert (0 < size (pendingRequests c))%nat as Hpos.
  { rewrite <- (insert_id _ _ _ Hv), <- insert_delete_eq.
    rewrite map_size_insert_None by apply lookup_delete_eq. lia. }
  destruct (forget_tokens id c) as (c1 & Hf1 & Hp & Ht & _); [lia|].
  rewrite Hf in Hf1. injection Hf1 as <-.
  destruct (forget_channel id c c' Hf) as (Hi & Hr & Hu).
  constructor.
  - intros k v'. rewrite Hp. intros Hl.
    apply lookup_delete_Some in Hl as [_ Hl]. by apply Hkey.
  - rewrite Hp. rewrite map_size_delete_Some by eauto. lia.
  - by rewrite Hi, Hr.
  - by rewrite Hu.
Qed.

(** A send on [IncomingMsgChan] that finds room. *)
Lemma deliver_room m c :
  (unread c < IncomingMsgChan_cap)%nat →
  ∃ c', deliver m c = Some c' ∧
        IncomingMsgChan c' = IncomingMsgChan c ++ [m] ∧
        received c' = received c ∧
        pendingRequests c' = pendingRequests c ∧
        pendingChan c' = pendingChan c ∧
        nextID c' = nextID c ∧ requestTimeout c' = requestTimeout c ∧
        written c' = written c ∧ Connected c' = Connected c.
Proof.
  intros Hroom. unfold deliver. rewrite decide_True by done. by eexists.
Qed.

(** A send on [IncomingMsgChan] that has completed. *)
Lemma deliver_inv m c c' :
  deliver m c = Some c' →
  (unread c < IncomingMsgChan_cap)%nat ∧
  IncomingMsgChan c' = IncomingMsgChan c ++ [m] ∧
  received c' = received c ∧
  pendingRequests c' = pendingRequests c ∧
  pendingChan c' = pendingChan c ∧
  nextID c' = nextID c ∧ requestTimeout c' = requestTimeout c ∧
  written c' = written c ∧ Connected c' = Connected c.
Proof.
  unfold deliver. case_decide; [|done]. by intros [= <-].
Qed.

(** A send on [IncomingMsgChan] that finds the channel full waits. *)
Lemma deliver_full m c :
  (IncomingMsgChan_cap ≤ unread c)%nat → deliver m c = None.
Proof. intros Hfull. unfold deliver. by rewrite decide_False by lia. Qed.

Lemma deliver_unread m c c' :
  (received c ≤ length (IncomingMsgChan c))%nat → deliver m c = Some c' →
  unread c' = S (unread c).
Proof.
  intros Hrec (_ & Hi & Hr & _)%deliver_inv. unfold unread.
  rewrite Hi, Hr, length_app. simpl. lia.
Qed.

Lemma deliver_wf m c c' : wf c → deliver m c = Some c' → wf c'.
Proof.
  intros [Hkey Htok Hrec Hun] Hd.
  pose proof (deliver_unread m c c' Hrec Hd) as Hu.
  apply deliver_inv in Hd as (Hroom & Hi & Hr & Hp & Ht & _).
  constructor.
  - intros k v. rewrite Hp. apply Hkey.
  - by rewrite Hp, Ht.
  - rewrite Hi, Hr, length_app. simpl. lia.
  - lia.
Qed.

Lemma reap_spec toDelete :
  ∀ c, wf c →
  NoDup ((ID ∘ msg) <$> toDelete) →
  (∀ v, v ∈ toDelete → pendingRequests c !! ID (msg v) = Some v) →
  (unread c + length toDelete ≤ IncomingMsgChan_cap)%nat →
  ∃ c', reap toDelete c = Some c' ∧ wf c' ∧
        IncomingMsgChan c' = IncomingMsgChan c ++ (timeoutResponse <$> toDelete) ∧
        (∀ k, pendingRequests c' !! k =
              if decide (k ∈ (ID ∘ msg) <$> toDelete) then None
              else pendingRequests c !! k) ∧
        nextID c' = nextID c.
Proof.
  induction toDelete as [|v toDelete IH]; intros c Hwf Hnd Hin Hroom; simpl.
  - exists c. split; [done|]. split; [done|]. split; [by rewrite app_nil_r|].
    done.
  - apply NoDup_cons in Hnd as [Hnotin Hnd]. simpl in Hnotin, Hroom.
    assert (pendingRequests c !! ID (msg v) = Some v) as Hv
      by (apply Hin, list_elem_of_here).
    assert (0 < size (pendingRequests c))%nat as Hpos.
    { rewrite <- (insert_id _ _ _ Hv), <- insert_delete_eq.
      rewrite map_size_insert_None by apply lookup_delete_eq. lia. }
    pose proof (wf_tokens _ Hwf) as Htok.
    destruct (forget_tokens (ID (msg v)) c) as (c1 & Hf & Hp1 & Ht1 & Hi1 & Hn1 & _); [lia|].
    rewrite Hf. simpl.
    assert (wf c1) as Hwf1 by (eapply forget_wf; eauto).
    destruct (forget_channel _ _ _ Hf) as (_ & _ & Hu1).
    destruct (deliver_room (timeoutResponse v) c1) as (c2 & Hd & Hi2 & _ & Hp2 & _ & Hn2 & _);
      [lia|].
    rewrite Hd. simpl.
    assert (wf c2) as Hwf2 by (eapply deliver_wf; eauto).
    pose proof (deliver_unread _ _ _ (wf_received _ Hwf1) Hd) as Hu2.
    destruct (IH c2) as (c' & Hr & Hwf' & Hi' & Hp' & Hn'); [done|done| |lia|].
    { intros v' Hv'. rewrite Hp2, Hp1, lookup_delete_ne.
      - apply Hin. by apply list_elem_of_further.
      - intros Heq. apply Hnotin. rewrite Heq.
        apply (list_elem_of_fmap_2 (ID ∘ msg) _ _ Hv'). }
    exists c'. split; [done|]. split; [done|].
    split; [by rewrite Hi', Hi2, Hi1, <- app_assoc|]. split; [|congruence].
    intros k. rewrite Hp', Hp2, Hp1. simpl.
    destruct (decide (k = ID (msg v))) as [->|Hne].
    + rewrite lookup_delete_eq. rewrite (decide_True (P:=_ ∈ _ :: _)) by apply list_elem_of_here.
      by case_decide.
    + rewrite lookup_delete_ne by done.
      destruct (decide (k ∈ (ID ∘ msg) <$> toDelete)) as [Hk|Hk].
      * by rewrite decide_True by (by apply list_elem_of_further).
      * rewrite decide_False; [done|]. intros [?|?]%elem_of_cons; done.
Qed.

(** The second loop of a tick completes only if the channel has room
    for all its responses. *)
Lemma reap_room toDelete :
  ∀ c c', (received c ≤ length (IncomingMsgChan c))%nat →
          (unread c ≤ IncomingMsgChan_cap)%nat →
          reap toDelete c = Some c' →
          (unread c + length toDelete ≤ IncomingMsgChan_cap)%nat.
Proof.
  induction toDelete as [|v toDelete IH]; intros c c' Hrec Hun; simpl; [lia|].
  destruct (forget (ID (msg v)) c) as [c1|] eqn:Hf; simpl; [|done].
  destruct (forget_channel _ _ _ Hf) as (Hi1 & Hr1 & Hu1).
  destruct (deliver (timeoutResponse v) c1) as [c2|] eqn:Hd; simpl; [|done].
  intros Hr.
  assert (received c1 ≤ length (IncomingMsgChan c1))%nat as Hrec1 by (by rewrite Hi1, Hr1).
  pose proof (deliver_unread _ _ _ Hrec1 Hd) as Hu2.
  apply deliver_inv in Hd as (Hroom & Hi2 & Hr2 & _).
  apply IH in Hr; [lia| |lia].
  rewrite Hi2, Hr2, length_app. simpl. lia.
Qed.

Lemma reaperTick_spec c visits :
  wf c → ranges_over visits c →
  (unread c + length (collect c visits) ≤ IncomingMsgChan_cap)%nat →
  ∃ c', reaperTick visits c = Some c' ∧ wf c' ∧
        IncomingMsgChan c' = IncomingMsgChan c ++ (timeoutResponse <$> collect c visits) ∧
        (∀ k, pendingRequests c' !! k =
              if decide (k ∈ (ID ∘ msg) <$> collect c visits) then None
              else pendingRequests c !! k) ∧
        nextID c' = nextID c.
Proof.
  intros Hwf Hr Hroom. unfold reaperTick. apply reap_spec; [done| | |done].
  - eapply sublist_NoDup; [by eapply ranges_over_NoDup|by apply collect_ids_sublist].
  - intros v (k & now & _ & Hl & _)%collect_elem.
    by rewrite (wf_key _ Hwf k v Hl).
Qed.

(** Among the responses of a tick, the one for a collected request. *)
Lemma filter_timeoutResponse toDelete v :
  NoDup ((ID ∘ msg) <$> toDelete) → v ∈ toDelete →
  filter (λ m, ID m = ID (msg v)) (timeoutResponse <$> toDelete) = [timeoutResponse v].
Proof.
  induction toDelete as [|v' toDelete IH]; intros Hnd Hin; [by apply elem_of_nil in Hin|].
  apply NoDup_cons in Hnd as [Hnotin Hnd]. simpl in *.
  assert (∀ w, w ∈ toDelete → ID (msg w) ≠ ID (msg v')) as Hother.
  { intros w Hw Heq. apply Hnotin. rewrite <- Heq.
    apply (list_elem_of_fmap_2 (ID ∘ msg) _ _ Hw). }
  apply elem_of_cons in Hin as [->|Hin].
  - rewrite filter_cons_True by done. f_equal.
    apply filter_none. intros m (w & -> & Hw)%list_elem_of_fmap. simpl.
    by apply Hother.
  - rewrite filter_cons_False; [by apply IH|]. simpl. intros Heq. by apply (Hother v).
Qed.

Lemma length_responses_timeout toDelete id :
  NoDup ((ID ∘ msg) <$> toDelete) →
  (length (responses id (timeoutResponse <$> toDelete))
   ≤ if decide (id ∈ (ID ∘ msg) <$> toDelete) then 1 else 0)%nat.
Proof.
  unfold responses. induction toDelete as [|v toDelete IH]; intros Hnd; [simpl; lia|].
  apply NoDup_cons in Hnd as [Hnotin Hnd]. specialize (IH Hnd).
  rewrite !fmap_cons. destruct (decide (ID (msg v) = id)) as [Hv|Hv].
  - rewrite filter_cons_True by (by simpl).
    rewrite decide_True by (rewrite <- Hv; apply list_elem_of_here).
    rewrite decide_False in IH by (by rewrite <- Hv). simpl. lia.
  - rewrite filter_cons_False by (simpl; tauto).
    destruct (decide (id ∈ (ID ∘ msg) <$> toDelete)) as [Hin|Hin].
    + by rewrite decide_True by (by apply list_elem_of_further).
    + rewrite decide_False; [done|]. intros [?|?]%elem_of_cons; simpl in *; congruence.
Qed.

Lemma New_wf (reqTimeout : list Z) : wf (New reqTimeout) ∧ accounted (New reqTimeout) [].
Proof.
  split.
  - constructor; simpl;
      [|by rewrite map_size_empty|lia|unfold unread, IncomingMsgChan_cap; simpl; lia].
    intros k v. by rewrite lookup_empty.
  - intros id. unfold pending_count, responses. simpl. by rewrite lookup_empty.
Qed.

Lemma accounted_app c ids ids' : accounted c ids → accounted c (ids ++ ids').
Proof.
  intros Ha id. specialize (Ha id). rewrite filter_app, length_app. lia.
Qed.

Lemma sendMsg_inv msgType route data now wr c id err c' ids :
  wf c → accounted c ids →
  sendMsg msgType route data now wr c = Some (id, err, c') →
  wf c' ∧ accounted c' (ids ++ issued c (EvSend msgType route data now wr)).
Proof.
  intros [Hkey Htok Hrec Hun] Hacc. unfold sendMsg, issued.
  destruct (Message.DecodeRoute route) as [messageRoute [e|]].
  { intros [= <- <- <-]. split; [by constructor|].
    destruct msgType; by rewrite ?app_nil_r. }
  set (m := {| Type_ := msgType; ID := (nextID c + 1) `mod` 4294967296;
               Route := messageRoute; MData := data; Err := false |}).
  destruct (buildPacket m) as [p perr]. simpl.
  destruct (decide (msgType = Request)) as [->|Hty]; simpl.
  - case_decide as Hcap; simpl; [|done].
    set (id0 := (nextID c + 1) `mod` 4294967296) in *.
    set (reqs := match pendingRequests c !! id0 with
                 | Some _ => pendingRequests c
                 | None => <[id0:={| msg := m; sentAt := now |}]> (pendingRequests c)
                 end).
    assert ((∀ k v, reqs !! k = Some v → ID (msg v) = k) ∧
            (size reqs ≤ S (pendingChan c))%nat ∧
            (∀ id', (pending_count id' c ≤ match reqs !! id' with Some _ => 1 | None => 0 end
                     ≤ pending_count id' c + (if decide (id' = id0) then 1 else 0))%nat))
      as (Hkey' & Htok' & Hcnt).
    { subst reqs. unfold pending_count.
      destruct (pendingRequests c !! id0) as [v0|] eqn:Hl.
      - split; [done|]. split; [lia|]. intros id'.
        destruct (pendingRequests c !! id'); case_decide; lia.
      - split; [|split].
        + intros k v. rewrite lookup_insert. case_decide as Hk.
          * intros [= <-]. by rewrite <- Hk.
          * apply Hkey.
        + rewrite map_size_insert_None by done. lia.
        + intros id'. rewrite lookup_insert. case_decide as Hk.
          * subst id'. rewrite Hl, decide_True by done. lia.
          * rewrite decide_False by congruence.
            destruct (pendingRequests c !! id'); lia. }
    assert (accounted {| Connected := Connected c; IncomingMsgChan := IncomingMsgChan c;
                         received := received c;
                         pendingChan := S (pendingChan c); pendingRequests := reqs;
                         requestTimeout := requestTimeout c; nextID := id0;
                         written := written c |} (ids ++ [id0])) as Hacc'.
    { intros id'. specialize (Hacc id'). specialize (Hcnt id').
      unfold pending_count at 1. simpl. rewrite filter_app, length_app.
      rewrite filter_cons, filter_nil. destruct (decide (id0 = id')) as [->|Hne].
      - rewrite decide_True in Hcnt by done. simpl. lia.
      - rewrite decide_False in Hcnt by done. simpl. lia. }
    destruct perr as [e|]; intros [= <- <- <-]; (split; [by constructor|done]).
  - assert (issued_nil : (match msgType with
                          | Request => [(nextID c + 1) `mod` 4294967296]
                          | _ => []
                          end) = []) by (by destruct msgType).
    rewrite issued_nil, app_nil_r.
    destruct perr as [e|]; intros [= <- <- <-]; (split; [by constructor|done]).
Qed.

Lemma responses_app id (l1 l2 : list Message) :
  responses id (l1 ++ l2) = responses id l1 ++ responses id l2.
Proof. apply filter_app. Qed.

Lemma handlePacket_inv p c c' ids :
  wf c → accounted c ids → handlePacket p c = Some c' →
  wf c' ∧ accounted c' ids.
Proof.
  intros Hwf Hacc. unfold handlePacket.
  destruct (PType p); try (intros [= <-]; done).
  - destruct (Decode (PData p)) as [[m|] err]; [|done].
    case_decide as Hty.
    + destruct (pendingRequests c !! ID m) as [v|] eqn:Hl; [|by intros [= <-]].
      destruct (forget (ID m) c) as [c1|] eqn:Hf; simpl; [|done].
      intros Hd.
      assert (wf c1) as Hwf1 by (eapply forget_wf; eauto).
      split; [by eapply deliver_wf|].
      apply deliver_inv in Hd as (_ & Hi2 & _ & Hp2 & _).
      destruct (forget_channel _ _ _ Hf) as (Hi1 & _).
      unfold forget in Hf. destruct (pendingChan c); [done|]. injection Hf as <-.
      intros id. specialize (Hacc id). unfold pending_count in *.
      rewrite Hi2, Hp2, Hi1. simpl.
      rewrite responses_app, length_app. unfold responses at 2.
      rewrite filter_cons, filter_nil. destruct (decide (ID m = id)) as [<-|Hne].
      * rewrite decide_True by done. rewrite lookup_delete_eq. rewrite Hl in Hacc.
        simpl. lia.
      * rewrite decide_False by tauto. rewrite lookup_delete_ne by done. simpl. lia.
    + intros Hd. split; [by eapply deliver_wf|].
      apply deliver_inv in Hd as (_ & Hi2 & _ & Hp2 & _).
      intros id. specialize (Hacc id). unfold pending_count in *.
      rewrite Hi2, Hp2.
      rewrite responses_app, length_app. unfold responses at 2.
      rewrite filter_cons, filter_nil, decide_False by tauto. simpl. lia.
  - intros [= <-]. unfold Disconnect. destruct (Connected c); [|done].
    destruct Hwf as [Hkey Htok Hrec Hun]. split; [by constructor|done].
Qed.

Lemma reaperTick_inv visits c c' ids :
  wf c → accounted c ids → ranges_over visits c → reaperTick visits c = Some c' →
  wf c' ∧ accounted c' ids.
Proof.
  intros Hwf Hacc Hr Ht.
  assert (unread c + length (collect c visits) ≤ IncomingMsgChan_cap)%nat as Hroom.
  { eapply reap_room; [apply Hwf|apply Hwf|exact Ht]. }
  destruct (reaperTick_spec c visits Hwf Hr Hroom) as (c1 & Ht1 & Hwf1 & Hi & Hp & _).
  rewrite Ht in Ht1. injection Ht1 as <-. split; [done|].
  intros id. specialize (Hacc id). unfold pending_count in *.
  rewrite Hi, responses_app, length_app, Hp.
  assert (NoDup ((ID ∘ msg) <$> collect c visits)) as Hnd.
  { eapply sublist_NoDup; [by eapply ranges_over_NoDup|by apply collect_ids_sublist]. }
  pose proof (length_responses_timeout (collect c visits) id Hnd) as Hlen.
  destruct (decide (id ∈ (ID ∘ msg) <$> collect c visits)) as [Hin|Hin]; [|lia].
  apply list_elem_of_fmap in Hin as (v & -> & Hv).
  apply collect_elem in Hv as (k & now & _ & Hl & _).
  rewrite <- (wf_key _ Hwf k v Hl) in Hl. simpl in *. rewrite Hl in Hacc. lia.
Qed.

(** A receive that has completed. *)
Lemma receive_inv m c c' :
  receive c = Some (m, c') →
  IncomingMsgChan c !! received c = Some m ∧
  IncomingMsgChan c' = IncomingMsgChan c ∧
  received c' = S (received c) ∧
  pendingRequests c' = pendingRequests c ∧
  pendingChan c' = pendingChan c ∧
  nextID c' = nextID c ∧ requestTimeout c' = requestTimeout c ∧
  written c' = written c ∧ Connected c' = Connected c.
Proof.
  unfold receive. destruct (IncomingMsgChan c !! received c) as [m'|] eqn:Hl; [|done].
  simpl. by intros [= <- <-].
Qed.

Lemma receive_wf_accounted m c c' ids :
  wf c → accounted c ids → receive c = Some (m, c') → wf c' ∧ accounted c' ids.
Proof.
  intros [Hkey Htok Hrec Hun] Hacc (Hl & Hi & Hr & Hp & Ht & _)%receive_inv.
  apply lookup_lt_Some in Hl. split.
  - constructor.
    + intros k v. rewrite Hp. apply Hkey.
    + by rewrite Hp, Ht.
    + rewrite Hi, Hr. lia.
    + unfold unread in *. rewrite Hi, Hr. lia.
  - intros id. specialize (Hacc id). unfold pending_count in *. by rewrite Hi, Hp.
Qed.

Lemma step_inv c ev c' ids :
  wf c → accounted c ids → step c ev c' →
  wf c' ∧ accounted c' (ids ++ issued c ev).
Proof.
  intros Hwf Hacc Hstep.
  destruct Hstep as [? ? ? ? ? ? ? ? Hs|? ? Hp|? ? Hr Ht|? ? Hrc].
  - eapply sendMsg_inv; eauto.
  - simpl. rewrite app_nil_r. eapply handlePacket_inv; eauto.
  - simpl. rewrite app_nil_r. eapply reaperTick_inv; eauto.
  - simpl. rewrite app_nil_r. eapply receive_wf_accounted; eauto.
Qed.

Lemma run_inv c ids c' :
  run c ids c' → ∀ ids0, wf c → accounted c ids0 → wf c' ∧ accounted c' (ids0 ++ ids).
Proof.
  induction 1 as [c|c ev c1 ids c' Hstep Hrun IH]; intros ids0 Hwf Hacc.
  - by rewrite app_nil_r.
  - destruct (step_inv c ev c1 ids0 Hwf Hacc Hstep) as [Hwf1 Hacc1].
    rewrite app_assoc. by apply IH.
Qed.

(** A tick that finds less room in [IncomingMsgChan] than it has
    responses to send does not complete: it waits in a send, inside
    [pendingReqMutex], until the application receives. *)
Lemma reaperTick_waits c visits :
  wf c →
  (IncomingMsgChan_cap < unread c + length (collect c visits))%nat →
  reaperTick visits c = None.
Proof.
  intros Hwf Hfull. destruct (reaperTick visits c) as [c'|] eqn:Ht; [|done].
  unfold Client.reaperTick in Ht.
  apply reap_room in Ht; [lia|apply Hwf|apply Hwf].
Qed.

(** C8: a tick of the reaper that finds room in [IncomingMsgChan] for
    one response per expired request completes, and for every pending
    request whose age exceeds the request timeout when it is examined,
    the messages that the tick delivers to [IncomingMsgChan] hold exactly
    one with the identifier of the request: a [Response] with the route of
    the request, the error flag set and the serialized error of code
    ["PIT-504"] as payload; the request is no longer pending afterwards. *)
Theorem reaper_times_out c visits :
  wf c → ranges_over visits c →
  (unread c + length (collect c visits) ≤ IncomingMsgChan_cap)%nat →
  ∃ c' delivered,
    reaperTick visits c = Some c' ∧
    IncomingMsgChan c' = IncomingMsgChan c ++ delivered ∧
    ∀ k now v,
      (k, now) ∈ visits → pendingRequests c !! k = Some v →
      now - sentAt v > requestTimeout c →
      ID (msg v) = k ∧
      filter (λ m, ID m = k) delivered
      = [ {| Type_ := Response;
             ID := k;
             Route := Route (msg v);
             MData := json_Marshal (battery_Error "request timeout" "PIT-504");
             Err := true |} ] ∧
      pendingRequests c' !! k = None.
Proof.
  intros Hwf Hr Hroom.
  destruct (reaperTick_spec c visits Hwf Hr Hroom) as (c' & Ht & Hwf' & Hi & Hp & _).
  exists c', (timeoutResponse <$> collect c visits).
  split; [done|]. split; [done|].
  intros k now v Hin Hl Hexp.
  pose proof (wf_key _ Hwf k v Hl) as Hk.
  assert (v ∈ collect c visits) as Hv by (apply collect_elem; eauto).
  split; [done|]. split.
  - rewrite <- Hk. rewrite filter_timeoutResponse; [done| |done].
    eapply sublist_NoDup; [by eapply ranges_over_NoDup|by apply collect_ids_sublist].
  - rewrite Hp, decide_True; [done|]. rewrite <- Hk.
    apply (list_elem_of_fmap_2 (ID ∘ msg) _ _ Hv).
Qed.

(** C9: the packet handler drops a decoded [Response] whose identifier is
    not pending: the client state, and with it [IncomingMsgChan], stays as
    it is.  Hence, in every run of the client from its creation, the
    responses delivered for an identifier, by the server or by the reaper,
    are at most as many as the requests sent under it: at most one while
    no identifier is handed out twice. *)
Theorem response_delivered_at_most_once :
  (∀ c p m err,
     PType p = Data → Decode (PData p) = (Some m, err) →
     Type_ m = Response → pendingRequests c !! ID m = None →
     handlePacket p c = Some c) ∧
  (∀ reqTimeout ids c id,
     run (New reqTimeout) ids c →
     (length (responses id (IncomingMsgChan c)) ≤ length (filter (λ x, x = id) ids))%nat) ∧
  (∀ reqTimeout ids c id,
     run (New reqTimeout) ids c → NoDup ids →
     (length (responses id (IncomingMsgChan c)) ≤ 1)%nat).
Proof.
  assert (∀ reqTimeout ids c id,
            run (New reqTimeout) ids c →
            (length (responses id (IncomingMsgChan c))
             ≤ length (filter (λ x, x = id) ids))%nat) as Hcount.
  { intros reqTimeout ids c id Hrun.
    destruct (New_wf reqTimeout) as [Hwf Hacc].
    destruct (run_inv _ _ _ Hrun [] Hwf Hacc) as [_ Hacc'].
    specialize (Hacc' id). simpl in Hacc'. lia. }
  split; [|split; [done|]].
  - intros c p m err Hp Hd Hty Hl. unfold handlePacket.
    by rewrite Hp, Hd, decide_True, Hl by done.
  - intros reqTimeout ids c id Hrun Hnd.
    specialize (Hcount reqTimeout ids c id Hrun).
    pose proof (length_filter_eq_NoDup ids id Hnd). lia.
Qed.

End ClientFacts.

(** *** The client on concrete inputs *)

Lemma demo_client_wf : Client.wf demo_client.
Proof.
  constructor; simpl.
  - intros k v [<- <-]%lookup_singleton_Some. reflexivity.
  - rewrite map_size_singleton. lia.
  - lia.
  - unfold Client.IncomingMsgChan_cap. cbn. lia.
Defined.

Lemma demo_client_visits : Client.ranges_over [(1, 6 * Client.second)] demo_client.
Proof.
  unfold Client.ranges_over, demo_client; simpl.
  rewrite map_to_list_singleton. reflexivity.
Defined.

Example reaperTick_demo :
  Client.IncomingMsgChan
    <$> Client.reaperTick demo_marshal [(1, 6 * Client.second)] demo_client
  = Some [ {| Client.Type_ := Client.Response; Client.ID := 1;
              Client.Route := {| Message.Service := "room"; Message.Method := "join" |};
              Client.MData := String.list_byte_of_string "PIT-504";
              Client.Err := true |} ].
Proof. vm_compute. reflexivity. Qed.

(** After the tick the response of the server for request 1 is dropped:
    only the response of the reaper has been delivered. *)
Example late_response_demo :
  Client.IncomingMsgChan
    <$> (Client.reaperTick demo_marshal [(1, 6 * Client.second)] demo_client
         ≫= Client.handlePacket demo_decode
              {| Client.PType := Client.Data; Client.PData := [] |})
  = Some [ {| Client.Type_ := Client.Response; Client.ID := 1;
              Client.Route := {| Message.Service := "room"; Message.Method := "join" |};
              Client.MData := String.list_byte_of_string "PIT-504";
              Client.Err := true |} ].
Proof. vm_compute. reflexivity. Qed.

(** A run of the client: a request is sent, the reaper answers it after
    six seconds, and the response of the server that comes later is
    dropped. *)
Example run_demo_client :
  Client.run demo_marshal demo_decode demo_build (Client.New []) [1] demo_reaped ∧
  Client.responses 1 (Client.IncomingMsgChan demo_reaped)
  = [Client.timeoutResponse demo_marshal demo_request].
Proof.
  split; [|reflexivity].
  apply (Client.run_step _ _ _ (Client.New [])
           (Client.EvSend Client.Request "room.join" [] 0 None) demo_sent [] demo_reaped).
  { by eapply Client.step_send. }
  apply (Client.run_step _ _ _ demo_sent
           (Client.EvTick [(1, 6 * Client.second)]) demo_reaped [] demo_reaped).
  { apply Client.step_tick; [|reflexivity].
    unfold Client.ranges_over, demo_sent; simpl.
    by rewrite map_to_list_singleton. }
  apply (Client.run_step _ _ _ demo_reaped
           (Client.EvPacket {| Client.PType := Client.Data; Client.PData := [] |})
           demo_reaped [] demo_reaped).
  { apply Client.step_packet. unfold Client.handlePacket, demo_reaped; simpl.
    by rewrite lookup_delete_eq. }
  apply Client.run_done.
Qed.

Lemma demo_client_room :
  (Client.unread demo_client
   + length (Client.collect demo_client [(1, 6 * Client.second)%Z])
   ≤ Client.IncomingMsgChan_cap)%nat.
Proof. vm_compute. lia. Defined.

Lemma reaper_times_out_witness :
  Client.wf demo_client ∧
  Client.ranges_over [(1, 6 * Client.second)] demo_client ∧
  (Client.unread demo_client
   + length (Client.collect demo_client [(1, 6 * Client.second)%Z])
   ≤ Client.IncomingMsgChan_cap)%nat ∧
  ∃ c' delivered,
    Client.reaperTick demo_marshal [(1, 6 * Client.second)] demo_client = Some c' ∧
    Client.IncomingMsgChan c' = Client.IncomingMsgChan demo_client ++ delivered ∧
    ∀ k now v,
      (k, now) ∈ [(1, 6 * Client.second)] →
      Client.pendingRequests demo_client !! k = Some v →
      now - Client.sentAt v > Client.requestTimeout demo_client →
      Client.ID (Client.msg v) = k ∧
      filter (λ m, Client.ID m = k) delivered
      = [ {| Client.Type_ := Client.Response;
             Client.ID := k;
             Client.Route := Client.Route (Client.msg v);
             Client.MData :=
               demo_marshal (Client.battery_Error "request timeout" "PIT-504");
             Client.Err := true |} ] ∧
      Client.pendingRequests c' !! k = None.
Proof.
  split; [exact demo_client_wf|]. split; [exact demo_client_visits|].
  split; [exact demo_client_room|].
  exact (reaper_times_out demo_marshal demo_client [(1, 6 * Client.second)]
           demo_client_wf demo_client_visits demo_client_room).
Defined.

(** The full channel: after one request, ten messages pushed by the
    server wait in [IncomingMsgChan]; the tick that finds the request
    expired removes it, frees its token and then waits in the send. *)

Lemma demo_filled_step (n : nat) :
  (n < Client.IncomingMsgChan_cap)%nat →
  Client.step demo_marshal demo_decode_push demo_build (demo_filled n)
    (Client.EvPacket {| Client.PType := Client.Data; Client.PData := [] |})
    (demo_filled (S n)).
Proof.
  intros Hn. apply Client.step_packet.
  unfold Client.handlePacket, demo_decode_push. simpl.
  unfold Client.deliver, Client.unread. simpl.
  rewrite length_replicate, Nat.sub_0_r, decide_True by done.
  unfold demo_filled. by rewrite replicate_S_end.
Qed.

Lemma demo_filled_run (n : nat) :
  ∀ k : nat, (k + n ≤ Client.IncomingMsgChan_cap)%nat →
  Client.run demo_marshal demo_decode_push demo_build (demo_filled k) [] (demo_filled (k + n)).
Proof.
  induction n as [|n IH]; intros k Hk.
  - rewrite Nat.add_0_r. apply Client.run_done.
  - apply (Client.run_step _ _ _ (demo_filled k)
             (Client.EvPacket {| Client.PType := Client.Data; Client.PData := [] |})
             (demo_filled (S k)) [] (demo_filled (k + S n))).
    + apply demo_filled_step. lia.
    + replace (k + S n)%nat with (S k + n)%nat by lia. apply IH. lia.
Qed.

Lemma demo_choked_reachable :
  Client.run demo_marshal demo_decode_push demo_build (Client.New []) [1] demo_choked.
Proof.
  apply (Client.run_step _ _ _ (Client.New [])
           (Client.EvSend Client.Request "room.join" [] 0 None) (demo_filled 0) [] demo_choked).
  { by eapply Client.step_send. }
  apply (demo_filled_run 10 0). unfold Client.IncomingMsgChan_cap. lia.
Qed.

Lemma demo_choked_wf : Client.wf demo_choked.
Proof.
  constructor; simpl.
  - intros k v [<- <-]%lookup_singleton_Some. reflexivity.
  - rewrite map_size_singleton. lia.
  - lia.
  - unfold Client.IncomingMsgChan_cap. cbn. lia.
Qed.

Lemma demo_choked_visits : Client.ranges_over [(1, 6 * Client.second)] demo_choked.
Proof.
  unfold Client.ranges_over, demo_choked; simpl.
  rewrite map_to_list_singleton. reflexivity.
Qed.

(** C8, as the claim states it, fails when [IncomingMsgChan] is full: in
    a state that the client reaches, with ten unread messages and request
    1 older than the timeout, the tick does not complete; the request has
    left the table and no response has been delivered when the reaper
    waits in the send. *)
Lemma reaper_times_out_counterexample :
  Client.run demo_marshal demo_decode_push demo_build (Client.New []) [1] demo_choked ∧
  Client.wf demo_choked ∧
  Client.ranges_over [(1, 6 * Client.second)] demo_choked ∧
  Client.pendingRequests demo_choked !! 1 = Some demo_request ∧
  6 * Client.second - Client.sentAt demo_request > Client.requestTimeout demo_choked ∧
  Client.reaperTick demo_marshal [(1, 6 * Client.second)] demo_choked = None ∧
  ¬ (∃ c' delivered,
       Client.reaperTick demo_marshal [(1, 6 * Client.second)] demo_choked = Some c' ∧
       Client.IncomingMsgChan c' = Client.IncomingMsgChan demo_choked ++ delivered ∧
       filter (λ m, Client.ID m = 1) delivered
       = [Client.timeoutResponse demo_marshal demo_request] ∧
       Client.pendingRequests c' !! 1 = None) ∧
  ∃ c1, Client.forget 1 demo_choked = Some c1 ∧
        Client.pendingRequests c1 !! 1 = None ∧
        Client.pendingChan c1 = 0%nat ∧
        Client.responses 1 (Client.IncomingMsgChan c1) = [] ∧
        Client.deliver (Client.timeoutResponse demo_marshal demo_request) c1 = None.
Proof.
  assert (Client.reaperTick demo_marshal [(1, 6 * Client.second)] demo_choked = None)
    as Hwaits by (vm_compute; reflexivity).
  split; [exact demo_choked_reachable|]. split; [exact demo_choked_wf|].
  split; [exact demo_choked_visits|]. split; [reflexivity|].
  split; [vm_compute; reflexivity|]. split; [exact Hwaits|].
  split; [intros (c' & delivered & Ht & _); rewrite Hwaits in Ht; discriminate|].
  eexists. split; [reflexivity|]. split; [vm_compute; reflexivity|].
  split; [reflexivity|]. split; [vm_compute; reflexivity|]. vm_compute; reflexivity.
Qed.



(** ** Futures *)

Section FutureFacts.
Import Actor.
Context {V : Type}.
Implicit Types (s : State (V:=V)) (env : MessageEnvelope (V:=V)) (p target : PID).

Lemma PipeTo_all (targets : list PID) s :
  done (future s) = false →
  let s' := foldl (λ s target, PipeTo target s) s targets in
  done (future s') = false ∧ pipes (future s') = pipes (future s) ++ targets ∧
  outbox s' = outbox s ∧ registered s' = registered s.
Proof.
  revert s. induction targets as [|t targets IH]; intros s Hd; simpl.
  - by rewrite app_nil_r.
  - destruct (IH (PipeTo t s)) as (Hd' & Hp' & Ho' & Hr').
    { unfold PipeTo. by rewrite Hd. }
    split; [done|]. rewrite Hp', Ho', Hr'. unfold PipeTo. rewrite Hd. simpl.
    by rewrite <- app_assoc.
Qed.

Lemma received_pipes (targets : list PID) env p :
  NoDup targets → p ∈ targets →
  filter (λ x : PID * MessageEnvelope, x.1 = p) ((λ target, (target, env)) <$> targets)
  = [(p, env)].
Proof.
  induction 1 as [|t targets Hnotin Hnd IH]; intros Hin; [by apply elem_of_nil in Hin|].
  rewrite fmap_cons. apply elem_of_cons in Hin as [->|Hin].
  - rewrite filter_cons_True by done. f_equal.
    apply filter_none. intros x (t' & -> & Ht')%list_elem_of_fmap. simpl. by intros ->.
  - rewrite filter_cons_False; [by apply IH|]. simpl. by intros ->.
Qed.

(** C3: a value sent to the PID of a future that has not completed reaches
    every process registered with [PipeTo] as exactly one envelope, the
    one that was sent, and leaves the future without pipe targets. *)
Theorem PipeTo_delivers_value (fpid : PID) (targets : list PID) env (v : V) :
  NoDup targets → Message env = Value v →
  let s := SendUserMessage env
             (foldl (λ s target, PipeTo target s) (NewFuture fpid) targets) in
  (∀ p, p ∈ targets → received p s = [env]) ∧
  pipes (future s) = [] ∧
  Result s = Some (Some env, None).
Proof.
  intros Hnd Hv.
  destruct (PipeTo_all targets (NewFuture fpid)) as (Hd & Hp & Ho & Hr); [done|].
  simpl in *. unfold SendUserMessage. rewrite Hv. unfold complete. rewrite Hd.
  unfold sendToPipes, forwarded, Result, received. simpl. rewrite Hp, Ho. simpl.
  split; [|done]. intros p Hin. by rewrite received_pipes.
Qed.

(** C4: a [DeadLetterResponse] sent to a future that has not completed
    completes it with the dead-letter error: [Result] returns no value and
    [ErrDeadLetter]. *)
Theorem DeadLetterResponse_completes s env :
  done (future s) = false → Message env = DeadLetterResponse →
  Result (SendUserMessage env s) = Some (None, Some ErrDeadLetter).
Proof.
  intros Hd Hm. unfold SendUserMessage. rewrite Hm. unfold complete. rewrite Hd.
  reflexivity.
Qed.

(** Completion happens once: what arrives afterwards changes nothing. *)
Lemma SendUserMessage_late s env :
  done (future s) = true → SendUserMessage env s = s.
Proof.
  intros Hd. unfold SendUserMessage, complete. rewrite Hd. by destruct (Message env).
Qed.

End FutureFacts.

Example PipeTo_demo :
  Actor.outbox
    (Actor.SendUserMessage demo_hello
       (foldl (λ s target, Actor.PipeTo target s) (Actor.NewFuture demo_future_pid)
              demo_targets))
  = (λ target, (target, demo_hello)) <$> demo_targets.
Proof. reflexivity. Qed.

Example Timeout_demo :
  Actor.Wait (Actor.Timeout (Actor.NewFuture (V:=string) demo_future_pid))
  = Some (Some Actor.ErrTimeout).
Proof. reflexivity. Qed.

Lemma demo_targets_NoDup : NoDup demo_targets.
Proof.
  unfold demo_targets. repeat (apply NoDup_cons; split).
  - intros Hin. repeat (apply elem_of_cons in Hin as [Hin|Hin]; [discriminate Hin|]).
    by apply elem_of_nil in Hin.
  - intros Hin. repeat (apply elem_of_cons in Hin as [Hin|Hin]; [discriminate Hin|]).
    by apply elem_of_nil in Hin.
  - intros Hin. by apply elem_of_nil in Hin.
  - apply NoDup_nil_2.
Defined.

Lemma PipeTo_delivers_value_witness :
  NoDup demo_targets ∧
  Actor.Message demo_hello = Actor.Value "hello"%string ∧
  (∀ p, p ∈ demo_targets →
     Actor.received p
       (Actor.SendUserMessage demo_hello
          (foldl (λ s target, Actor.PipeTo target s) (Actor.NewFuture demo_future_pid)
                 demo_targets))
     = [demo_hello]) ∧
  Actor.pipes
    (Actor.future
       (Actor.SendUserMessage demo_hello
          (foldl (λ s target, Actor.PipeTo target s) (Actor.NewFuture demo_future_pid)
                 demo_targets))) = [] ∧
  Actor.Result
    (Actor.SendUserMessage demo_hello
       (foldl (λ s target, Actor.PipeTo target s) (Actor.NewFuture demo_future_pid)
              demo_targets))
  = Some (Some demo_hello, None).
Proof.
  split; [exact demo_targets_NoDup|]. split; [reflexivity|].
  exact (PipeTo_delivers_value demo_future_pid demo_targets demo_hello "hello"%string
           demo_targets_NoDup eq_refl).
Defined.

Lemma DeadLetterResponse_completes_witness :
  Actor.done (Actor.future (Actor.NewFuture (V:=string) demo_future_pid)) = false ∧
  Actor.Message (Actor.WrapEnvelope (V:=string) Actor.DeadLetterResponse)
  = Actor.DeadLetterResponse ∧
  Actor.Result
    (Actor.SendUserMessage (Actor.WrapEnvelope Actor.DeadLetterResponse)
       (Actor.NewFuture (V:=string) demo_future_pid))
  = Some (None, Some Actor.ErrDeadLetter).
Proof.
  split; [reflexivity|]. split; [reflexivity|].
  apply (DeadLetterResponse_completes (Actor.NewFuture demo_future_pid)
           (Actor.WrapEnvelope Actor.DeadLetterResponse)); reflexivity.
Defined.

(** * Further properties *)

(** ** The ring queue: what its operations keep *)

Section GoringCallsFacts.
Import Goring GoringCalls.
Context `{ZeroValue T}.
Implicit Types (q : Queue (T:=T)) (x : T).

(** The state that [Pop] leaves on a queue that is not empty. *)
Lemma Pop_step q :
  wf q → len q ≠ 0 →
  let h' := (head (content q) + 1) `mod` mod_ (content q) in
  ∃ x, buffer (content q) !! Z.to_nat h' = Some x ∧
       Pop q = Some (x, true,
                     {| len := len q - 1;
                        initialSize := initialSize q;
                        content := {| buffer := <[Z.to_nat h' := zero]> (buffer (content q));
                                      head := h';
                                      tail := tail (content q);
                                      mod_ := mod_ (content q) |} |}).
Proof.
  intros Hwf Hne h'. pose proof (wf_len_range q Hwf) as Hr.
  destruct Hwf as [Hb Hh Ht Hl Hm].
  destruct q as [n ini [b h t m]]; simpl in *.
  unfold Pop, Empty, Length; simpl. rewrite bool_decide_eq_false_2 by done.
  rewrite (int64_add_exact h 1) by (apply max_mod_in_range; lia).
  rewrite int64_rem_nonneg by (unfold Int64.max_int, max_mod in *; lia). simpl.
  fold h'. assert (0 ≤ h' < m) as Hh' by (apply Z.mod_pos_bound; lia).
  destruct (index_Some b h') as (x & -> & Hx); [lia|]. simpl.
  rewrite store_insert by lia. simpl.
  rewrite (int64_add_exact n (-1)) by (apply max_mod_in_range; lia).
  exists x. split; [done|]. by replace (n + -1) with (n - 1) by lia.
Qed.

(** The state that [Push] leaves when the queue is not full. *)
Lemma Push_step_nogrow q x :
  wf q →
  let t' := (tail (content q) + 1) `mod` mod_ (content q) in
  t' ≠ head (content q) →
  Push x q = Some {| len := len q + 1;
                     initialSize := initialSize q;
                     content := {| buffer := <[Z.to_nat t' := x]> (buffer (content q));
                                   head := head (content q);
                                   tail := t';
                                   mod_ := mod_ (content q) |} |}.
Proof.
  intros Hwf t' Hne. pose proof (wf_len_range q Hwf) as Hr.
  destruct Hwf as [Hb Hh Ht Hl Hm].
  destruct q as [n ini [b h t m]]; simpl in *.
  unfold Push; simpl.
  rewrite (int64_add_exact t 1) by (apply max_mod_in_range; lia).
  rewrite int64_rem_nonneg by (unfold Int64.max_int, max_mod in *; lia). simpl.
  fold t'. assert (0 ≤ t' < m) as Ht' by (apply Z.mod_pos_bound; lia).
  rewrite decide_False by done. simpl.
  rewrite store_insert by lia. simpl.
  by rewrite (int64_add_exact n 1) by (apply max_mod_in_range; lia).
Qed.

(** The state that [Push] leaves when it grows the queue: the old buffer
    in ring order from the head, the new element, and zero values. *)
Lemma Push_step_grow q x :
  wf q →
  (tail (content q) + 1) `mod` mod_ (content q) = head (content q) →
  2 * mod_ (content q) ≤ max_mod →
  ∃ nb : list T,
    Push x q = Some {| len := len q + 1;
                       initialSize := initialSize q;
                       content := {| buffer := <[Z.to_nat (mod_ (content q)) := x]> nb;
                                     head := 0;
                                     tail := mod_ (content q);
                                     mod_ := 2 * mod_ (content q) |} |} ∧
    Z.of_nat (length nb) = 2 * mod_ (content q) ∧
    ∀ j : nat,
      nb !! j = if decide (Z.of_nat j < mod_ (content q))
                then buffer (content q)
                       !! Z.to_nat ((head (content q) + Z.of_nat j) `mod` mod_ (content q))
                else if decide (Z.of_nat j < 2 * mod_ (content q)) then Some zero else None.
Proof.
  intros Hwf Hfull Hcap. pose proof (wf_len_range q Hwf) as Hr.
  destruct Hwf as [Hb Hh Ht Hl Hm].
  destruct q as [n ini [b h t m]]; simpl in *.
  unfold Push; simpl.
  rewrite (int64_add_exact t 1) by (apply max_mod_in_range; lia).
  rewrite int64_rem_nonneg by (unfold Int64.max_int, max_mod in *; lia). simpl.
  rewrite Hfull, decide_True by done. unfold grow; simpl.
  rewrite (int64_mul_exact m 2) by (apply max_mod_in_range; lia).
  rewrite make_nonneg by lia. simpl. unfold for_range.
  destruct (grow_loop b h m Hb Hh Hm (Z.to_nat (m - 0)) 0
              (replicate (Z.to_nat (m * 2)) zero)) as (nb & -> & Hlen & Hlook);
    [lia|lia|rewrite length_replicate; lia|].
  rewrite length_replicate in Hlen. simpl.
  rewrite store_insert by lia. simpl.
  rewrite (int64_add_exact n 1) by (apply max_mod_in_range; lia).
  exists nb. split; [by rewrite (Z.mul_comm m 2)|]. split; [lia|].
  intros j. rewrite Hlook.
  destruct (decide (Z.of_nat j < m)).
  - by rewrite decide_True by lia.
  - rewrite decide_False by lia.
    destruct (decide (Z.of_nat j < 2 * m)).
    + apply lookup_replicate_2. lia.
    + apply lookup_ge_None_2. rewrite length_replicate. lia.
Qed.

End GoringCallsFacts.

Section GoringKeeps.
Import Goring GoringCalls.
Context `{ZeroValue T}.
Implicit Types (q : Queue (T:=T)) (x : T).

Lemma pushes_nonneg (calls : list (call (T:=T))) : 0 ≤ pushes calls.
Proof. induction calls as [|[]]; simpl; lia. Qed.

Lemma pushes_app (cs1 cs2 : list (call (T:=T))) :
  pushes (cs1 ++ cs2) = pushes cs1 + pushes cs2.
Proof. induction cs1 as [|[]]; simpl; lia. Qed.

Lemma exec_app (cs1 cs2 : list (call (T:=T))) q :
  exec (cs1 ++ cs2) q = q1 ← exec cs1 q; exec cs2 q1.
Proof.
  revert q. induction cs1 as [|c cs1 IH]; intros q; simpl; [done|].
  destruct c; simpl.
  - destruct (Push item q); simpl; [apply IH|done].
  - destruct (Pop q) as [[[? ?] ?]|]; simpl; [apply IH|done].
  - destruct (PopMany count q) as [[[? ?] ?]|]; simpl; [apply IH|done].
Qed.

Lemma Pop_keeps q :
  wf q → clean q →
  ∃ v ok q', Pop q = Some (v, ok, q') ∧ wf q' ∧ clean q' ∧
             ok = bool_decide (len q ≠ 0) ∧
             len q' = (if ok then len q - 1 else len q) ∧
             mod_ (content q') = mod_ (content q) ∧
             initialSize q' = initialSize q.
Proof.
  intros Hwf Hcl. destruct (decide (len q = 0)) as [Hz|Hnz].
  { exists zero, false, q. rewrite Pop_empty by done.
    by rewrite bool_decide_eq_false_2 by tauto. }
  destruct (Pop_nonempty q Hwf Hnz) as (x & q' & HP & Hwf' & _ & Hl' & Hm').
  destruct (Pop_step q Hwf Hnz) as (x' & Hx' & HP').
  rewrite HP' in HP. injection HP as <- <-.
  do 3 eexists. split; [done|]. split; [done|].
  rewrite bool_decide_eq_true_2 by done.
  split; [|done].
  pose proof (wf_len_range q Hwf) as Hr. pose proof Hwf as [Hb Hh Ht Hl Hm].
  intros d Hd. simpl in *.
  set (h' := (head (content q) + 1) `mod` mod_ (content q)) in *.
  assert (0 ≤ h' < mod_ (content q)) as Hh' by (apply Z.mod_pos_bound; lia).
  unfold slot; simpl.
  destruct (decide ((h' + 1 + d) `mod` mod_ (content q) = h')) as [->|Hne].
  { apply list_lookup_insert_eq. lia. }
  rewrite list_lookup_insert_ne by
    (intros Heq; apply Hne; apply Z2Nat.inj in Heq;
     [done|lia|apply Z.mod_pos_bound; lia]).
  assert (d + 1 < mod_ (content q)) as Hd1.
  { destruct (decide (d + 1 < mod_ (content q))) as [|Hge]; [done|].
    exfalso. apply Hne. replace d with (mod_ (content q) - 1) by lia.
    replace (h' + 1 + (mod_ (content q) - 1)) with (h' + 1 * mod_ (content q)) by lia.
    rewrite Z.mod_add by lia. apply Z.mod_small. lia. }
  specialize (Hcl (d + 1)). unfold slot in Hcl.
  replace ((h' + 1 + d) `mod` mod_ (content q))
    with ((head (content q) + 1 + (d + 1)) `mod` mod_ (content q)); [apply Hcl; lia|].
  unfold h'.
  replace ((head (content q) + 1) `mod` mod_ (content q) + 1 + d)
    with ((head (content q) + 1) `mod` mod_ (content q) + (1 + d)) by lia.
  rewrite Zplus_mod_idemp_l. f_equal. lia.
Qed.

Lemma Push_keeps q x :
  wf q → clean q → 2 * (len q + 1) ≤ max_mod →
  ∃ q', Push x q = Some q' ∧ wf q' ∧ clean q' ∧
        len q' = len q + 1 ∧
        (if decide (len q = mod_ (content q) - 1)
         then mod_ (content q') = 2 * mod_ (content q)
         else mod_ (content q') = mod_ (content q)) ∧
        initialSize q' = initialSize q.
Proof.
  intros Hwf Hcl Hcap. pose proof (wf_len_range q Hwf) as Hr.
  pose proof Hwf as [Hb Hh Ht Hl Hm].
  destruct (decide ((tail (content q) + 1) `mod` mod_ (content q) = head (content q)))
    as [Hfull|Hnf].
  - pose proof Hfull as Hn. rewrite full_iff in Hn by done.
    destruct (Push_grow q x Hwf Hfull) as (q' & HP & Hwf' & _ & Hl' & Hm' & _); [lia|].
    destruct (Push_step_grow q x Hwf Hfull) as (nb & HP' & Hlen & Hnb); [lia|].
    rewrite HP' in HP. injection HP as <-.
    eexists. split; [done|]. split; [done|].
    rewrite decide_True by done. split; [|done].
    intros d Hd. simpl in *. unfold slot; simpl.
    destruct (decide (d = 2 * mod_ (content q) - 1)) as [->|Hd'].
    + replace (0 + 1 + (2 * mod_ (content q) - 1)) with (0 + 1 * (2 * mod_ (content q))) by lia.
      rewrite Z.mod_add, Z.mod_0_l by lia.
      rewrite list_lookup_insert_ne by lia. rewrite Hnb. simpl.
      rewrite decide_True by lia. rewrite Z.add_0_r, Z.mod_small by lia.
      specialize (Hcl (mod_ (content q) - 1)). unfold slot in Hcl.
      replace (head (content q) + 1 + (mod_ (content q) - 1))
        with (head (content q) + 1 * mod_ (content q)) in Hcl by lia.
      rewrite Z.mod_add, Z.mod_small in Hcl by lia. apply Hcl. lia.
    + rewrite Z.mod_small by lia.
      rewrite list_lookup_insert_ne by lia. rewrite Hnb.
      rewrite decide_False by lia. by rewrite decide_True by lia.
  - assert (len q ≠ mod_ (content q) - 1) as Hn by (by rewrite <- full_iff).
    destruct (Push_nogrow q x Hwf Hnf) as (q' & HP & Hwf' & _ & Hl' & Hm').
    pose proof (Push_step_nogrow q x Hwf Hnf) as HP'.
    rewrite HP' in HP. injection HP as <-.
    eexists. split; [done|]. split; [done|].
    rewrite decide_False by done. split; [|done].
    intros d Hd. simpl in *.
    rewrite <- (slot_len q Hwf).
    change (slot _ d) with (slot (content q) d).
    rewrite list_lookup_insert_ne.
    + apply Hcl. lia.
    + intros Heq. apply Z2Nat.inj in Heq; try apply slot_range; try done.
      apply slot_inj in Heq; [lia|done|lia|lia].
Qed.

Lemma pops_keeps (n : nat) :
  ∀ q vs q', wf q → clean q → Z.of_nat n ≤ len q → pops n q = Some (vs, q') →
  wf q' ∧ clean q' ∧ len q' = len q - Z.of_nat n ∧
  mod_ (content q') = mod_ (content q) ∧ initialSize q' = initialSize q.
Proof.
  induction n as [|n IH]; intros q vs q' Hwf Hcl Hn; simpl.
  - intros [= <- <-]. split; [done|]. split; [done|]. split; [lia|done].
  - destruct (Pop_keeps q Hwf Hcl) as (v & ok & q1 & -> & Hwf1 & Hcl1 & -> & Hl1 & Hm1 & Hi1).
    rewrite bool_decide_eq_true_2 in Hl1 by lia. simpl.
    destruct (pops n q1) as [[vs1 q2]|] eqn:Hp; simpl; [|done].
    intros [= <- <-].
    destruct (IH q1 vs1 q2 Hwf1 Hcl1) as (? & ? & ? & ? & ?); [lia|done|].
    split; [done|]. split; [done|]. split; [lia|]. split; congruence.
Qed.

Lemma PopMany_empty q (k : Z) : len q = 0 → PopMany k q = Some (None, false, q).
Proof. intros Hl. unfold PopMany, Empty, Length. by rewrite bool_decide_eq_true_2. Qed.

Lemma PopMany_keeps q (k : Z) :
  wf q → clean q → 0 ≤ k →
  ∃ vs ok q', PopMany k q = Some (vs, ok, q') ∧ wf q' ∧ clean q' ∧
              ok = bool_decide (len q ≠ 0) ∧
              len q' = len q - Z.min k (len q) ∧
              mod_ (content q') = mod_ (content q) ∧
              initialSize q' = initialSize q.
Proof.
  intros Hwf Hcl Hk. pose proof (wf_len_range q Hwf) as Hr.
  destruct (decide (len q = 0)) as [Hz|Hnz].
  { exists None, false, q. rewrite PopMany_empty by done.
    rewrite bool_decide_eq_false_2 by tauto.
    split; [done|]. split; [done|]. split; [done|]. split; [done|]. split; [lia|done]. }
  destruct (PopMany_spec q k Hwf Hk Hnz) as (q' & Hp & -> & Hwf' & _).
  apply pops_keeps in Hp as (_ & Hcl' & Hl' & Hm' & Hi'); [|done|done|lia].
  do 3 eexists. split; [done|]. rewrite bool_decide_eq_true_2 by done.
  split; [done|]. split; [done|]. split; [done|]. split; [lia|done].
Qed.

End GoringKeeps.

Section GoringExec.
Import Goring GoringCalls.
Context `{ZeroValue T}.
Implicit Types (q : Queue (T:=T)) (x : T).

Lemma exec_keeps (calls : list (call (T:=T))) :
  ∀ q, Forall valid calls → wf q → clean q →
       2 * (len q + pushes calls) ≤ max_mod →
  ∃ q', exec calls q = Some q' ∧ wf q' ∧ clean q' ∧
        initialSize q' = initialSize q ∧
        len q' ≤ len q + pushes calls ∧
        (∃ k : nat, mod_ (content q') = mod_ (content q) * 2 ^ Z.of_nat k) ∧
        mod_ (content q') ≤ Z.max (mod_ (content q)) (2 * (len q + pushes calls)).
Proof.
  induction calls as [|c calls IH]; intros q Hv Hwf Hcl Hcap; simpl.
  { exists q. split; [done|]. split; [done|]. split; [done|]. split; [done|].
    split; [lia|]. split; [exists 0%nat; simpl; lia|lia]. }
  pose proof (pushes_nonneg calls) as Hp. pose proof (wf_len_range q Hwf) as Hr.
  apply Forall_cons in Hv as [Hc Hv]. destruct c as [x| |k]; simpl in *.
  - destruct (Push_keeps q x Hwf Hcl) as (q1 & -> & Hwf1 & Hcl1 & Hl1 & Hm1 & Hi1); [lia|].
    simpl. destruct (IH q1 Hv Hwf1 Hcl1) as (q' & -> & ? & ? & ? & ? & [k Hk] & Hb); [lia|].
    exists q'. split; [done|]. split; [done|]. split; [done|]. split; [congruence|].
    split; [lia|]. destruct (decide (len q = mod_ (content q) - 1)).
    + split; [|lia]. exists (S k). rewrite Hk, Hm1, Nat2Z.inj_succ, Z.pow_succ_r; lia.
    + split; [|lia]. exists k. by rewrite Hk, Hm1.
  - destruct (Pop_keeps q Hwf Hcl) as (v & ok & q1 & -> & Hwf1 & Hcl1 & _ & Hl1 & Hm1 & Hi1).
    simpl. assert (len q1 ≤ len q) by (destruct ok; lia).
    destruct (IH q1 Hv Hwf1 Hcl1) as (q' & -> & ? & ? & ? & ? & [k' Hk] & Hb); [lia|].
    exists q'. split; [done|]. split; [done|]. split; [done|]. split; [congruence|].
    split; [lia|]. split; [|lia]. exists k'. by rewrite Hk, Hm1.
  - destruct (PopMany_keeps q k Hwf Hcl Hc)
      as (v & ok & q1 & -> & Hwf1 & Hcl1 & _ & Hl1 & Hm1 & Hi1).
    simpl. assert (len q1 ≤ len q) by lia.
    destruct (IH q1 Hv Hwf1 Hcl1) as (q' & -> & ? & ? & ? & ? & [k' Hk] & Hb); [lia|].
    exists q'. split; [done|]. split; [done|]. split; [done|]. split; [congruence|].
    split; [lia|]. split; [|lia]. exists k'. by rewrite Hk, Hm1.
Qed.

Lemma New_clean (n : Z) q : New n = Some q → clean q.
Proof.
  unfold New, make. destruct (decide (n < 0)); [done|]. simpl. intros [= <-].
  intros d Hd. simpl in *. apply lookup_replicate_2.
  assert (0 ≤ slot {| buffer := replicate (Z.to_nat n) zero; head := 0; tail := 0;
                      mod_ := n |} d < n) by (apply Z.mod_pos_bound; lia).
  lia.
Qed.

(** X1: a queue made by [New] with a positive size takes every sequence
    of [Push], [Pop] and [PopMany] calls (the counts not negative) without
    a panic, and ends in a state where the buffer has [mod] slots, head
    and tail are valid indices, [len] is [(tail - head) mod mod] and is
    less than [mod]: one slot is always left free. *)
Theorem calls_keep_ring_invariant (n : Z) (calls : list (call (T:=T))) :
  0 < n ≤ max_mod → Forall valid calls → 2 * pushes calls ≤ max_mod →
  ∃ q0 q', New n = Some q0 ∧ exec calls q0 = Some q' ∧
           Z.of_nat (length (buffer (content q'))) = mod_ (content q') ∧
           0 ≤ head (content q') < mod_ (content q') ∧
           0 ≤ tail (content q') < mod_ (content q') ∧
           Length q' = (tail (content q') - head (content q')) `mod` mod_ (content q') ∧
           0 ≤ Length q' < mod_ (content q').
Proof.
  intros Hn Hv Hp. destruct (New_spec n Hn) as (q0 & HN & Hwf0 & _ & Hl0 & Hm0).
  destruct (exec_keeps calls q0 Hv Hwf0 (New_clean n q0 HN)) as (q' & He & Hwf' & _);
    [lia|].
  exists q0, q'. split; [done|]. split; [done|].
  pose proof (wf_len_range q' Hwf'). by destruct Hwf'.
Qed.

(** X2: after every sequence of calls on a new queue, each buffer slot
    that holds no element holds the zero value: [Pop] and [PopMany] erase
    what they take out, and [grow] leaves the added slots empty. *)
Theorem calls_keep_free_slots_zero (n : Z) (calls : list (call (T:=T))) :
  0 < n ≤ max_mod → Forall valid calls → 2 * pushes calls ≤ max_mod →
  ∃ q0 q', New n = Some q0 ∧ exec calls q0 = Some q' ∧
           ∀ d, Length q' ≤ d < mod_ (content q') →
                buffer (content q') !! Z.to_nat (slot (content q') d) = Some zero.
Proof.
  intros Hn Hv Hp. destruct (New_spec n Hn) as (q0 & HN & Hwf0 & _ & Hl0 & Hm0).
  destruct (exec_keeps calls q0 Hv Hwf0 (New_clean n q0 HN)) as (q' & He & _ & Hcl & _);
    [lia|].
  by exists q0, q'.
Qed.

(** X3: the capacity of a queue is its initial size times a power of
    two, and it is at most the larger of the initial size and twice the
    number of [Push] calls, whatever was popped in between. *)
Theorem calls_capacity_bound (n : Z) (calls : list (call (T:=T))) :
  0 < n ≤ max_mod → Forall valid calls → 2 * pushes calls ≤ max_mod →
  ∃ q0 q', New n = Some q0 ∧ exec calls q0 = Some q' ∧
           initialSize q' = n ∧
           (∃ k : nat, mod_ (content q') = n * 2 ^ Z.of_nat k) ∧
           mod_ (content q') ≤ Z.max n (2 * pushes calls) ∧
           Length q' ≤ pushes calls.
Proof.
  intros Hn Hv Hp. destruct (New_spec n Hn) as (q0 & HN & Hwf0 & _ & Hl0 & Hm0).
  destruct (exec_keeps calls q0 Hv Hwf0 (New_clean n q0 HN))
    as (q' & He & _ & _ & Hi & Hl & Hk & Hb); [lia|].
  exists q0, q'. split; [done|]. split; [done|].
  rewrite Hm0, Hl0 in *. unfold Length.
  split; [|split; [done|split; lia]].
  rewrite Hi. unfold New, make in HN. destruct (decide (n < 0)); [done|].
  simpl in HN. by injection HN as <-.
Qed.

End GoringExec.

Section GoringMore.
Import Goring GoringCalls.
Context `{ZeroValue T}.
Implicit Types (q : Queue (T:=T)) (x : T).

Lemma wf_len_contents q : wf q → len q = Z.of_nat (length (contents q)).
Proof. intros Hwf. pose proof (wf_len_range q Hwf). rewrite length_contents. lia. Qed.

Lemma trace_list_trace (calls : list (call (T:=T))) :
  ∀ q, Forall valid calls → wf q → 2 * (len q + pushes calls) ≤ max_mod →
  ∃ q', trace calls q = Some ((list_trace calls (contents q)).1, q') ∧ wf q' ∧
        contents q' = (list_trace calls (contents q)).2.
Proof.
  induction calls as [|c calls IH]; intros q Hv Hwf Hcap; simpl.
  { by exists q. }
  pose proof (pushes_nonneg calls) as Hp. pose proof (wf_len_range q Hwf) as Hr.
  apply Forall_cons in Hv as [Hc Hv]. destruct c as [x| |k]; simpl in *.
  - destruct (Push_spec q x Hwf) as (q1 & -> & Hwf1 & Hc1 & Hl1); [lia|]. simpl.
    destruct (IH q1 Hv Hwf1) as (q' & -> & Hwf' & Hc'); [lia|]. simpl.
    rewrite Hc1 in *. destruct (list_trace calls (contents q ++ [x])) as [rs l'].
    by exists q'.
  - destruct (decide (len q = 0)) as [Hz|Hnz].
    + rewrite (Pop_empty q Hz). simpl.
      destruct (IH q Hv Hwf) as (q' & -> & Hwf' & Hc'); [lia|]. simpl.
      rewrite (contents_nil q Hz) in *. destruct (list_trace calls []) as [rs l'].
      by exists q'.
    + destruct (Pop_nonempty q Hwf Hnz) as (v & q1 & -> & Hwf1 & Hc1 & Hl1 & _). simpl.
      destruct (IH q1 Hv Hwf1) as (q' & -> & Hwf' & Hc'); [lia|]. simpl.
      rewrite Hc1. destruct (list_trace calls (contents q1)) as [rs l'].
      by exists q'.
  - destruct (decide (len q = 0)) as [Hz|Hnz].
    + rewrite (PopMany_empty q k Hz). simpl.
      destruct (IH q Hv Hwf) as (q' & -> & Hwf' & Hc'); [lia|]. simpl.
      rewrite (contents_nil q Hz) in *. destruct (list_trace calls []) as [rs l'].
      by exists q'.
    + destruct (PopMany_spec q k Hwf Hc Hnz) as (q1 & _ & -> & Hwf1 & Hc1). simpl.
      pose proof (wf_len_contents q Hwf) as Hlc.
      pose proof (wf_len_range q1 Hwf1) as Hr1.
      assert (len q1 ≤ len q) as Hle.
      { rewrite (wf_len_contents q1 Hwf1), Hlc, Hc1, length_drop. lia. }
      destruct (IH q1 Hv Hwf1) as (q' & -> & Hwf' & Hc'); [lia|]. simpl.
      assert (take (Z.to_nat (Z.min k (len q))) (contents q) = take (Z.to_nat k) (contents q))
        as Ht.
      { destruct (decide (k ≤ len q)); [by rewrite Z.min_l by lia|].
        rewrite Z.min_r by lia. rewrite !take_ge; [done|lia..]. }
      assert (drop (Z.to_nat (Z.min k (len q))) (contents q) = drop (Z.to_nat k) (contents q))
        as Hd.
      { destruct (decide (k ≤ len q)); [by rewrite Z.min_l by lia|].
        rewrite Z.min_r by lia. rewrite !drop_ge; [done|lia..]. }
      rewrite Ht. rewrite Hc1, Hd in *.
      destruct (contents q) as [|v0 l0] eqn:Hcq; [simpl in Hlc; lia|].
      destruct (list_trace calls (drop (Z.to_nat k) (v0 :: l0))) as [rs l'].
      by exists q'.
Qed.

(** X4: every sequence of [Push], [Pop] and [PopMany] calls on a new
    queue returns what the same calls return on a plain first-in
    first-out list, and leaves the queue holding what the list holds:
    [Pop] gives the oldest element or the zero value and false, [PopMany]
    the oldest [count] elements in order or nil and false. *)
Theorem calls_agree_with_list (n : Z) (calls : list (call (T:=T))) :
  0 < n ≤ max_mod → Forall valid calls → 2 * pushes calls ≤ max_mod →
  ∃ q0 q', New n = Some q0 ∧
           trace calls q0 = Some ((list_trace calls []).1, q') ∧
           contents q' = (list_trace calls []).2 ∧
           Length q' = Z.of_nat (length (list_trace calls []).2).
Proof.
  intros Hn Hv Hp. destruct (New_spec n Hn) as (q0 & HN & Hwf0 & Hc0 & Hl0 & Hm0).
  destruct (trace_list_trace calls q0 Hv Hwf0) as (q' & Ht & Hwf' & Hc'); [lia|].
  rewrite Hc0 in *. exists q0, q'. split; [done|]. split; [done|]. split; [done|].
  unfold Length. by rewrite (wf_len_contents q' Hwf'), Hc'.
Qed.

End GoringMore.

Section GoringEdges.
Import Goring GoringCalls.
Context `{ZeroValue T}.
Implicit Types (q : Queue (T:=T)) (x : T).

Lemma pops_mod (n : nat) :
  ∀ q vs q', wf q → Z.of_nat n ≤ len q → pops n q = Some (vs, q') →
  len q' = len q - Z.of_nat n ∧ mod_ (content q') = mod_ (content q).
Proof.
  induction n as [|n IH]; intros q vs q' Hwf Hn; simpl.
  - intros [= <- <-]. lia.
  - destruct (Pop_nonempty q Hwf) as (v & q1 & -> & Hwf1 & _ & Hl1 & Hm1); [lia|]. simpl.
    destruct (pops n q1) as [[vs1 q2]|] eqn:Hp; simpl; [|done].
    intros [= <- <-]. destruct (IH q1 vs1 q2 Hwf1) as [? ?]; [lia|done|]. lia.
Qed.

(** X5: the capacity changes in one place only. [Push] doubles it when
    the queue holds [mod - 1] elements and keeps it otherwise; [Pop] and
    [PopMany] never change it, so a queue never shrinks. With it, the
    length after each call. *)
Theorem capacity_changes_only_on_full_Push (c : call (T:=T)) q :
  wf q → valid c → 2 * (len q + 1) ≤ max_mod →
  ∃ q', exec [c] q = Some q' ∧
        mod_ (content q') =
          match c with
          | CallPush _ =>
              if decide (Length q = mod_ (content q) - 1)
              then 2 * mod_ (content q) else mod_ (content q)
          | _ => mod_ (content q)
          end ∧
        Length q' =
          match c with
          | CallPush _ => Length q + 1
          | CallPop => Z.max 0 (Length q - 1)
          | CallPopMany k => Z.max 0 (Length q - k)
          end.
Proof.
  intros Hwf Hc Hcap. pose proof (wf_len_range q Hwf) as Hr. unfold Length.
  destruct c as [x| |k]; simpl in *.
  - destruct (decide (len q = mod_ (content q) - 1)) as [Hf|Hnf].
    + pose proof Hf as Hfull. rewrite <- full_iff in Hfull by done.
      destruct (Push_grow q x Hwf Hfull) as (q' & -> & _ & _ & ? & ? & _); [lia|].
      by exists q'.
    + assert ((tail (content q) + 1) `mod` mod_ (content q) ≠ head (content q)) as Hnfull
        by (by rewrite full_iff).
      destruct (Push_nogrow q x Hwf Hnfull) as (q' & -> & _ & _ & ? & ?). by exists q'.
  - destruct (decide (len q = 0)) as [Hz|Hnz].
    + rewrite (Pop_empty q Hz). exists q. simpl. split; [done|]. split; [done|lia].
    + destruct (Pop_nonempty q Hwf Hnz) as (v & q' & -> & _ & _ & ? & ?).
      exists q'. simpl. split; [done|]. split; [done|lia].
  - destruct (decide (len q = 0)) as [Hz|Hnz].
    + rewrite (PopMany_empty q k Hz). exists q. simpl. split; [done|]. split; [done|lia].
    + destruct (PopMany_spec q k Hwf Hc Hnz) as (q' & Hp & -> & _).
      apply pops_mod in Hp as [? ?]; [|done|lia].
      exists q'. simpl. split; [done|]. split; [done|lia].
Qed.

(** X6: [PopMany] with a count of at least the length returns the whole
    contents, oldest first, and leaves the queue empty: [Pop] then gives
    the zero value and false, and [PopMany] nil and false, both without
    touching the queue. *)
Theorem PopMany_drains q (k : Z) :
  wf q → Length q ≠ 0 → Length q ≤ k →
  ∃ q', PopMany k q = Some (Some (contents q), true, q') ∧
        Empty q' = true ∧
        contents q' = [] ∧
        Pop q' = Some (zero, false, q') ∧
        ∀ k', PopMany k' q' = Some (None, false, q').
Proof.
  unfold Length. intros Hwf Hnz Hk. pose proof (wf_len_range q Hwf) as Hr.
  destruct (PopMany_spec q k Hwf) as (q' & Hp & HP & Hwf' & Hc'); [lia|done|].
  apply pops_mod in Hp as [Hl' _]; [|done|lia].
  rewrite Z.min_r in * by lia. rewrite Z2Nat.id in Hl' by lia.
  assert (len q' = 0) as Hz by lia.
  rewrite take_ge in HP by (rewrite length_contents; lia).
  exists q'. split; [done|].
  split; [unfold Empty, Length; by rewrite bool_decide_eq_true_2|].
  split; [by apply contents_nil|].
  split; [by apply Pop_empty|]. intros k'. by apply PopMany_empty.
Qed.

(** X7: on a queue that is not empty, [PopMany] with count 0 returns an
    empty slice that is not nil, with true, and leaves the queue as it
    was; with a negative count it panics, in [make]. *)
Theorem PopMany_nonpositive_count q (k : Z) :
  wf q → Length q ≠ 0 → k ≤ 0 →
  PopMany k q = if decide (k = 0) then Some (Some [], true, q) else None.
Proof.
  unfold Length. intros Hwf Hnz Hk. pose proof (wf_len_range q Hwf) as Hr.
  destruct Hwf as [Hb Hh Ht Hl Hm].
  destruct q as [L ini [b h t m]]; simpl in *.
  unfold PopMany, Empty, Length; simpl. rewrite bool_decide_eq_false_2 by done.
  rewrite (decide_False (P := L ≤ k)) by lia.
  destruct (decide (k = 0)) as [->|Hk0].
  - rewrite make_nonneg by lia. simpl. unfold for_range. simpl.
    rewrite (int64_add_exact h 0) by (apply max_mod_in_range; lia).
    rewrite int64_rem_nonneg by (unfold Int64.max_int, max_mod in *; lia). simpl.
    rewrite (int64_sub_exact 0 0) by (unfold Int64.in_range, Int64.max_int, Int64.min_int; lia).
    rewrite (int64_add_exact L (0 - 0)) by (apply max_mod_in_range; lia).
    rewrite Z.add_0_r, Z.mod_small by lia. simpl. repeat f_equal. lia.
  - unfold make. by rewrite decide_True by lia.
Qed.

(** X8: a queue has to be made with a positive size. [New] panics on a
    negative size, and on the queue that [New 0] returns the first [Push]
    panics, dividing by the modulus 0. *)
Theorem New_nonpositive_size (n : Z) x :
  n ≤ 0 →
  (q ← New n; Push x q) = None ∧
  (New n = None ↔ n < 0).
Proof.
  intros Hn. unfold New, make. destruct (decide (n < 0)) as [Hneg|Hge]; simpl.
  - split; [done|]. tauto.
  - assert (n = 0) as -> by lia. split; [done|]. split; [done|lia].
Qed.

End GoringEdges.

(** The calls of [demo_calls] on a queue of size 2, and single calls on
    [demo_full] and [demo_three]. *)

Lemma demo_calls_valid : Forall GoringCalls.valid demo_calls.
Proof. repeat constructor; simpl; lia. Defined.

Lemma trace_demo_calls :
  ∃ q', (q0 ← Goring.New 2; GoringCalls.trace demo_calls q0)
        = Some ([GoringCalls.RetPush; GoringCalls.RetPush;
                 GoringCalls.RetPopMany (Some [1%nat]) true;
                 GoringCalls.RetPush; GoringCalls.RetPop 2%nat true;
                 GoringCalls.RetPopMany (Some [3%nat]) true;
                 GoringCalls.RetPop 0%nat false; GoringCalls.RetPush], q') ∧
        Goring.contents q' = [4%nat] ∧ Goring.mod_ (Goring.content q') = 4.
Proof. eexists. split; [vm_compute; reflexivity|]. split; reflexivity. Qed.

Lemma calls_keep_ring_invariant_witness :
  0 < 2 ≤ Goring.max_mod ∧ Forall GoringCalls.valid demo_calls ∧
  2 * GoringCalls.pushes demo_calls ≤ Goring.max_mod ∧
  ∃ q0 q', Goring.New 2 = Some q0 ∧ GoringCalls.exec demo_calls q0 = Some q' ∧
           Z.of_nat (length (Goring.buffer (Goring.content q'))) = Goring.mod_ (Goring.content q') ∧
           0 ≤ Goring.head (Goring.content q') < Goring.mod_ (Goring.content q') ∧
           0 ≤ Goring.tail (Goring.content q') < Goring.mod_ (Goring.content q') ∧
           Goring.Length q' = (Goring.tail (Goring.content q') - Goring.head (Goring.content q'))
                                `mod` Goring.mod_ (Goring.content q') ∧
           0 ≤ Goring.Length q' < Goring.mod_ (Goring.content q').
Proof.
  split; [unfold Goring.max_mod; lia|]. split; [exact demo_calls_valid|].
  split; [unfold Goring.max_mod; simpl; lia|].
  apply (calls_keep_ring_invariant 2 demo_calls);
    [unfold Goring.max_mod; lia|exact demo_calls_valid|unfold Goring.max_mod; simpl; lia].
Defined.

Lemma calls_keep_free_slots_zero_witness :
  0 < 2 ≤ Goring.max_mod ∧ Forall GoringCalls.valid demo_calls ∧
  2 * GoringCalls.pushes demo_calls ≤ Goring.max_mod ∧
  ∃ q0 q', Goring.New 2 = Some q0 ∧ GoringCalls.exec demo_calls q0 = Some q' ∧
           ∀ d, Goring.Length q' ≤ d < Goring.mod_ (Goring.content q') →
                Goring.buffer (Goring.content q')
                  !! Z.to_nat (Goring.slot (Goring.content q') d) = Some 0%nat.
Proof.
  split; [unfold Goring.max_mod; lia|]. split; [exact demo_calls_valid|].
  split; [unfold Goring.max_mod; simpl; lia|].
  apply (calls_keep_free_slots_zero 2 demo_calls);
    [unfold Goring.max_mod; lia|exact demo_calls_valid|unfold Goring.max_mod; simpl; lia].
Defined.

Lemma calls_capacity_bound_witness :
  0 < 2 ≤ Goring.max_mod ∧ Forall GoringCalls.valid demo_calls ∧
  2 * GoringCalls.pushes demo_calls ≤ Goring.max_mod ∧
  ∃ q0 q', Goring.New 2 = Some q0 ∧ GoringCalls.exec demo_calls q0 = Some q' ∧
           Goring.initialSize q' = 2 ∧
           (∃ k : nat, Goring.mod_ (Goring.content q') = 2 * 2 ^ Z.of_nat k) ∧
           Goring.mod_ (Goring.content q') ≤ Z.max 2 (2 * GoringCalls.pushes demo_calls) ∧
           Goring.Length q' ≤ GoringCalls.pushes demo_calls.
Proof.
  split; [unfold Goring.max_mod; lia|]. split; [exact demo_calls_valid|].
  split; [unfold Goring.max_mod; simpl; lia|].
  apply (calls_capacity_bound 2 demo_calls);
    [unfold Goring.max_mod; lia|exact demo_calls_valid|unfold Goring.max_mod; simpl; lia].
Defined.

Lemma calls_agree_with_list_witness :
  0 < 2 ≤ Goring.max_mod ∧ Forall GoringCalls.valid demo_calls ∧
  2 * GoringCalls.pushes demo_calls ≤ Goring.max_mod ∧
  ∃ q0 q', Goring.New 2 = Some q0 ∧
           GoringCalls.trace demo_calls q0
           = Some ((GoringCalls.list_trace demo_calls []).1, q') ∧
           Goring.contents q' = (GoringCalls.list_trace demo_calls []).2 ∧
           Goring.Length q' = Z.of_nat (length (GoringCalls.list_trace demo_calls []).2).
Proof.
  split; [unfold Goring.max_mod; lia|]. split; [exact demo_calls_valid|].
  split; [unfold Goring.max_mod; simpl; lia|].
  apply (calls_agree_with_list 2 demo_calls);
    [unfold Goring.max_mod; lia|exact demo_calls_valid|unfold Goring.max_mod; simpl; lia].
Defined.

Lemma capacity_changes_only_on_full_Push_witness :
  Goring.wf demo_full ∧ GoringCalls.valid (GoringCalls.CallPush 5%nat) ∧
  2 * (Goring.len demo_full + 1) ≤ Goring.max_mod ∧
  ∃ q', GoringCalls.exec [GoringCalls.CallPush 5%nat] demo_full = Some q' ∧
        Goring.mod_ (Goring.content q') = 4 ∧ Goring.Length q' = 2.
Proof.
  split; [exact demo_full_wf|]. split; [exact I|].
  split; [unfold Goring.max_mod; simpl; lia|].
  exact (capacity_changes_only_on_full_Push (GoringCalls.CallPush 5%nat) demo_full
           demo_full_wf I ltac:(unfold Goring.max_mod; simpl; lia)).
Defined.

Lemma PopMany_drains_witness :
  Goring.wf demo_three ∧ Goring.Length demo_three ≠ 0 ∧ Goring.Length demo_three ≤ 7 ∧
  ∃ q', Goring.PopMany 7 demo_three = Some (Some (Goring.contents demo_three), true, q') ∧
        Goring.Empty q' = true ∧
        Goring.contents q' = [] ∧
        Goring.Pop q' = Some (0%nat, false, q') ∧
        ∀ k', Goring.PopMany k' q' = Some (None, false, q').
Proof.
  split; [exact demo_three_wf|]. split; [simpl; lia|]. split; [simpl; lia|].
  apply (PopMany_drains demo_three 7 demo_three_wf); simpl; lia.
Defined.

Lemma PopMany_nonpositive_count_witness :
  Goring.wf demo_three ∧ Goring.Length demo_three ≠ 0 ∧ -1 ≤ 0 ∧
  Goring.PopMany (-1) demo_three = None.
Proof.
  split; [exact demo_three_wf|]. split; [simpl; lia|]. split; [lia|].
  apply (PopMany_nonpositive_count demo_three (-1) demo_three_wf); simpl; lia.
Defined.

Lemma New_nonpositive_size_witness :
  0 ≤ 0 ∧
  (q ← Goring.New 0; Goring.Push 1%nat q) = None ∧ (Goring.New (T:=nat) 0 = None ↔ 0 < 0).
Proof. split; [lia|]. apply (New_nonpositive_size 0 1%nat). lia. Defined.

(** ** Routes: what [DecodeRoute] accepts and what it returns *)

Section RouteMore.
Import Strings Message.
Implicit Types (s route : string) (r : Route).

Lemma blank_empty : blank "".
Proof. reflexivity. Qed.

(** X9: [DecodeRoute] succeeds exactly on the strings that have one or
    two dot-separated fields, none of them blank; on every other string
    the route it returns is the zero route, with the field-empty error if
    some field is blank and the invalid-route error otherwise. *)
Theorem DecodeRoute_success_iff route :
  let fields := Split route "." in
  ((DecodeRoute route).2 = None ↔
     (∀ s, s ∈ fields → ¬ blank s) ∧ (length fields ≤ 2)%nat) ∧
  ((DecodeRoute route).2 = Some ErrRouteFieldCantEmpty ↔ ∃ s, s ∈ fields ∧ blank s) ∧
  ((DecodeRoute route).2 = Some ErrInvalidRoute ↔
     (∀ s, s ∈ fields → ¬ blank s) ∧ (3 ≤ length fields)%nat) ∧
  ((DecodeRoute route).2 ≠ None → (DecodeRoute route).1 = zero).
Proof.
  intros fields. unfold DecodeRoute. fold fields.
  pose proof (Split_not_nil route ".") as Hnil. fold fields in Hnil.
  pose proof (field_empty_true fields) as Ht.
  pose proof (field_empty_false fields) as Hf.
  destruct (field_empty fields) eqn:Hfe; simpl.
  - assert (¬ ∀ s, s ∈ fields → ¬ blank s) as Hn.
    { intros Hall. destruct Ht as [Ht _]. destruct (Ht eq_refl) as (s & Hs & Hb).
      by apply (Hall s). }
    split; [split; [done|tauto]|]. split; [tauto|]. split; [split; [done|tauto]|done].
  - assert (¬ ∃ s, s ∈ fields ∧ blank s) as Hn by (intros He; apply Ht in He; done).
    assert (∀ s, s ∈ fields → ¬ blank s) as Hall by (by apply Hf).
    destruct fields as [|a [|b [|c l]]]; simpl; [done| | |].
    + split; [split; [intros _; split; [done|lia]|done]|].
      split; [split; [done|tauto]|]. split; [split; [done|lia]|done].
    + split; [split; [intros _; split; [done|lia]|done]|].
      split; [split; [done|tauto]|]. split; [split; [done|lia]|done].
    + split; [split; [done|lia]|].
      split; [split; [done|tauto]|]. split; [split; [intros _; split; [done|lia]|done]|done].
Qed.

(** X10: when [DecodeRoute] succeeds, [String] of the route it returns
    is the string that was decoded, byte for byte (no field is trimmed);
    the method is not blank, the service is empty or not blank, and
    neither contains a dot. *)
Theorem DecodeRoute_String route r :
  DecodeRoute route = (r, None) →
  String_ r = route ∧
  ¬ blank (Method r) ∧
  (Service r = ""%string ∨ ¬ blank (Service r)) ∧
  ContainsByte (Service r) "." = false ∧
  ContainsByte (Method r) "." = false.
Proof.
  unfold DecodeRoute.
  pose proof (Join_Split route ".") as HJ.
  pose proof (Split_pieces route ".") as HP.
  pose proof (field_empty_false (Split route ".")) as Hf.
  destruct (field_empty (Split route ".")) eqn:Hfe; [done|].
  assert (∀ s, s ∈ Split route "." → ¬ blank s) as Hall by (by apply Hf).
  destruct (Split route ".") as [|a [|b [|c l]]]; simpl; try done.
  - intros [= <-]. simpl in *. apply Forall_cons in HP as [Ha _].
    split; [done|]. split; [apply Hall, list_elem_of_here|]. split; [by left|done].
  - intros [= <-]. simpl in *.
    apply Forall_cons in HP as [Ha HP]. apply Forall_cons in HP as [Hb _].
    assert (¬ blank a) as Hna by apply Hall, list_elem_of_here.
    assert (¬ blank b) as Hnb by apply Hall, list_elem_of_further, list_elem_of_here.
    unfold String_. simpl.
    destruct (String.eqb_spec a "") as [->|Hne]; [by destruct Hna|]. simpl.
    split; [done|]. split; [done|]. split; [by right|done].
Qed.

(** X11: [Short] always writes the dot. For a route with a service it
    is the same string as [String]; for a route without one it starts with
    the dot, and [DecodeRoute] rejects it with the field-empty error. *)
Theorem DecodeRoute_Short r :
  (Service r ≠ ""%string → Short r = String_ r) ∧
  (Service r = ""%string →
     Short r = String.String "." (Method r) ∧
     String_ r = Method r ∧
     DecodeRoute (Short r) = (zero, Some ErrRouteFieldCantEmpty)).
Proof.
  destruct r as [sv me]. unfold Short, String_; simpl. split.
  - intros Hne. by destruct (String.eqb_spec sv "").
  - intros ->. simpl. split; [done|]. split; [done|].
    unfold DecodeRoute. reflexivity.
Qed.

End RouteMore.

Lemma DecodeRoute_String_witness :
  Message.DecodeRoute "room.join" = (demo_route, None) ∧
  Message.String_ demo_route = "room.join"%string ∧
  ¬ Message.blank (Message.Method demo_route) ∧
  (Message.Service demo_route = ""%string ∨ ¬ Message.blank (Message.Service demo_route)) ∧
  Strings.ContainsByte (Message.Service demo_route) "." = false ∧
  Strings.ContainsByte (Message.Method demo_route) "." = false.
Proof.
  split; [vm_compute; reflexivity|].
  apply (DecodeRoute_String "room.join" demo_route). vm_compute; reflexivity.
Defined.

(** ** The TCP connection: streams of frames, errors and blocking *)

Section AcceptorMore.
Import Codec Acceptor AcceptorCalls.
Implicit Types (header body rest data : list Byte.byte) (tc : Conn).

Lemma GetNextMessage_frame header body rest e typ size :
  length header = 4%nat →
  ParseHeader header = (typ, size, None) →
  Z.of_nat (length body) = size →
  GetNextMessage {| incoming := header ++ body ++ rest; fate := e |}
  = Some (Some (header ++ body), None, {| incoming := rest; fate := e |}).
Proof.
  intros Hh Hp Hb. unfold GetNextMessage.
  rewrite ReadAllLimit_enough by (unfold HeadLength; lia). simpl.
  rewrite decide_False by lia. rewrite Hp.
  rewrite ReadAllLimit_enough by done. simpl.
  by rewrite decide_False by lia.
Qed.

Lemma wire_cons header body (fs : list (list Byte.byte * list Byte.byte)) rest :
  wire ((header, body) :: fs) ++ rest = header ++ body ++ wire fs ++ rest.
Proof. unfold wire. rewrite fmap_cons. simpl. by rewrite <- !app_assoc. Qed.

Lemma GetNextMessages_S (n : nat) tc :
  GetNextMessages (S n) tc
  = '(b, err, tc1) ← GetNextMessage tc;
    '(rs, tc2) ← GetNextMessages n tc1;
    Some ((b, err) :: rs, tc2).
Proof. reflexivity. Qed.

(** X12: when the stream carries a sequence of well-formed frames one
    after the other, as many calls of [GetNextMessage] as there are frames
    return the frames one by one, in order and without an error, and
    consume nothing of what follows them; if the peer has closed the
    connection after the last frame, the next call reports the closed
    connection. *)
Theorem GetNextMessages_frames (fs : list (list Byte.byte * list Byte.byte)) rest e :
  Forall well_framed fs →
  GetNextMessages (length fs) {| incoming := wire fs ++ rest; fate := e |}
  = Some ((λ f, (Some (f.1 ++ f.2), None)) <$> fs, {| incoming := rest; fate := e |}) ∧
  GetNextMessages (S (length fs)) {| incoming := wire fs; fate := EOF |}
  = Some (((λ f, (Some (f.1 ++ f.2), None)) <$> fs) ++ [(None, Some ErrConnectionClosed)],
          {| incoming := []; fate := EOF |}).
Proof.
  intros Hfs. split.
  - induction Hfs as [|[h b] fs (Hh & typ & size & Hp & Hb) _ IH]; [done|].
    cbn [length]. rewrite GetNextMessages_S, wire_cons, fmap_cons.
    rewrite (GetNextMessage_frame h b _ e typ size) by done.
    cbn [mbind option_bind]. rewrite IH. done.
  - induction Hfs as [|[h b] fs (Hh & typ & size & Hp & Hb) _ IH]; [done|].
    cbn [length]. rewrite GetNextMessages_S.
    rewrite <- (app_nil_r (wire ((h, b) :: fs))), wire_cons, fmap_cons, app_nil_r.
    rewrite (GetNextMessage_frame h b _ EOF typ size) by done.
    cbn [mbind option_bind]. rewrite IH. done.
Qed.

End AcceptorMore.

Section AcceptorShape.
Import Codec Acceptor AcceptorCalls.
Implicit Types (header body rest data : list Byte.byte) (tc : Conn).

Lemma byte_val_range (b : Byte.byte) : 0 ≤ byte_val b < 256.
Proof. unfold byte_val. pose proof (Byte.to_N_bounded b). lia. Qed.

Lemma BytesToInt_range (l : list Byte.byte) : 0 ≤ BytesToInt l < 256 ^ Z.of_nat (length l).
Proof.
  unfold BytesToInt. induction l as [|x l IH] using rev_ind; [simpl; lia|].
  rewrite foldl_app, length_app, Nat2Z.inj_add, Z.pow_add_r by lia. simpl.
  pose proof (byte_val_range x). lia.
Qed.

Lemma ParseHeader_ok header typ size :
  ParseHeader header = (typ, size, None) →
  length header = 4%nat ∧ 1 ≤ typ ≤ 5 ∧ 0 ≤ size ≤ MaxPacketSize.
Proof.
  unfold ParseHeader, HeadLength.
  destruct (decide (Z.of_nat (length header) ≠ 4)) as [|Hl]; [done|].
  destruct header as [|t rest]; [done|]. pose proof (BytesToInt_range rest).
  repeat case_decide; try done. intros [= <- <-]. split; [lia|]. lia.
Qed.

Lemma ReadAllLimit_inv (n : Z) tc data err tc' :
  ReadAllLimit n tc = Some (data, err, tc') →
  fate tc' = fate tc ∧ incoming tc = data ++ incoming tc' ∧
  Z.of_nat (length data) ≤ Z.max 0 n ∧
  (Z.of_nat (length data) < n → incoming tc' = [] ∧ fate tc ≠ Silent) ∧
  (∀ e, err = Some e → ∃ code, e = ErrIO code ∧ fate tc = Failed code).
Proof.
  unfold ReadAllLimit. destruct tc as [inc f]; simpl.
  destruct (decide (n ≤ 0)).
  { intros [= <- <- <-]. simpl. split; [done|]. split; [done|]. split; [lia|].
    split; [lia|done]. }
  destruct (decide (n ≤ Z.of_nat (length inc))).
  { intros [= <- <- <-]. simpl. split; [done|]. split; [by rewrite take_drop|].
    rewrite length_take. split; [lia|]. split; [lia|done]. }
  destruct f; [| |done].
  - intros [= <- <- <-]. simpl. split; [done|]. split; [by rewrite app_nil_r|].
    split; [lia|]. split; [done|done].
  - intros [= <- <- <-]. simpl. split; [done|]. split; [by rewrite app_nil_r|].
    split; [lia|]. split; [done|]. intros e [= <-]. eauto.
Qed.

(** X13: what a call of [GetNextMessage] that returns has done. It
    returns bytes or an error, never both and never neither; it has
    taken a prefix of the stream and nothing else; the bytes it returns
    are all of that prefix: a header that [ParseHeader] accepts followed by
    exactly the payload length the header declares, at most [HeadLength +
    MaxPacketSize] bytes. *)
Theorem GetNextMessage_consumes tc b err tc' :
  GetNextMessage tc = Some (b, err, tc') →
  fate tc' = fate tc ∧
  ∃ used, incoming tc = used ++ incoming tc' ∧
    match b with
    | Some bs =>
        err = None ∧ bs = used ∧
        ∃ typ size, ParseHeader (take 4 bs) = (typ, size, None) ∧
                    Z.of_nat (length bs) = HeadLength + size ∧
                    size ≤ MaxPacketSize
    | None => err ≠ None
    end.
Proof.
  unfold GetNextMessage.
  destruct (ReadAllLimit HeadLength tc) as [[[header e1] tc1]|] eqn:H1; [|done]. simpl.
  apply ReadAllLimit_inv in H1 as (Hf1 & Hi1 & Hl1 & _ & _).
  destruct e1 as [e1|].
  { intros [= <- <- <-]. split; [done|]. exists header. done. }
  destruct (decide (length header = 0%nat)).
  { intros [= <- <- <-]. split; [done|]. exists header. done. }
  destruct (ParseHeader header) as [[typ size] [e2|]] eqn:Hp.
  { intros [= <- <- <-]. split; [done|]. exists header. done. }
  apply ParseHeader_ok in Hp as Hok. destruct Hok as (Hlen & _ & Hsz).
  destruct (ReadAllLimit size tc1) as [[[data e3] tc2]|] eqn:H2; [|done]. simpl.
  apply ReadAllLimit_inv in H2 as (Hf2 & Hi2 & Hl2 & _ & _).
  destruct e3 as [e3|].
  { intros [= <- <- <-]. split; [congruence|]. exists (header ++ data).
    split; [|done]. by rewrite Hi1, Hi2, app_assoc. }
  destruct (decide (Z.of_nat (length data) < size)).
  { intros [= <- <- <-]. split; [congruence|]. exists (header ++ data).
    split; [|done]. by rewrite Hi1, Hi2, app_assoc. }
  intros [= <- <- <-]. split; [congruence|]. exists (header ++ data).
  split; [by rewrite Hi1, Hi2, app_assoc|]. split; [done|]. split; [done|].
  exists typ, size. rewrite take_app_length' by done.
  split; [done|]. rewrite length_app. unfold HeadLength. lia.
Qed.

(** X14: a failed read is reported as the error of the read, whether it
    fails in the header or in the payload, and even if no byte had come:
    the closed-connection and message-too-small errors are for streams that
    end cleanly. A header that [ParseHeader] rejects is reported with only
    the header consumed: the bytes after it stay in the stream. *)
Theorem GetNextMessage_errors :
  (∀ data code,
     Z.of_nat (length data) < HeadLength →
     GetNextMessage {| incoming := data; fate := Failed code |}
     = Some (None, Some (ErrIO code), {| incoming := []; fate := Failed code |})) ∧
  (∀ header body typ size code,
     length header = 4%nat →
     ParseHeader header = (typ, size, None) →
     Z.of_nat (length body) < size →
     GetNextMessage {| incoming := header ++ body; fate := Failed code |}
     = Some (None, Some (ErrIO code), {| incoming := []; fate := Failed code |})) ∧
  (∀ header rest typ size e f,
     length header = 4%nat →
     ParseHeader header = (typ, size, Some e) →
     GetNextMessage {| incoming := header ++ rest; fate := f |}
     = Some (None, Some (ErrCodec e), {| incoming := rest; fate := f |})).
Proof.
  split; [|split].
  - intros data code Hn. by apply GetNextMessage_read_error.
  - intros header body typ size code Hh Hp Hb. unfold GetNextMessage.
    rewrite ReadAllLimit_enough by (unfold HeadLength; lia). simpl.
    rewrite decide_False by lia. rewrite Hp.
    unfold ReadAllLimit; simpl.
    rewrite decide_False by lia. by rewrite decide_False by lia.
  - intros header rest typ size e f Hh Hp. unfold GetNextMessage.
    rewrite ReadAllLimit_enough by (unfold HeadLength; lia). simpl.
    rewrite decide_False by lia. by rewrite Hp.
Qed.

(** X15: on a connection that stays open without sending, a call of
    [GetNextMessage] does not return until the header and the whole
    payload it declares have come: with fewer bytes in the stream it waits
    in the read for ever. *)
Theorem GetNextMessage_waits :
  (∀ data,
     Z.of_nat (length data) < HeadLength →
     GetNextMessage {| incoming := data; fate := Silent |} = None) ∧
  (∀ header body typ size,
     length header = 4%nat →
     ParseHeader header = (typ, size, None) →
     Z.of_nat (length body) < size →
     GetNextMessage {| incoming := header ++ body; fate := Silent |} = None).
Proof.
  split.
  - intros data Hn. unfold GetNextMessage, ReadAllLimit, HeadLength in *; simpl.
    by rewrite decide_False by lia.
  - intros header body typ size Hh Hp Hb. unfold GetNextMessage.
    rewrite ReadAllLimit_enough by (unfold HeadLength; lia). simpl.
    rewrite decide_False by lia. rewrite Hp.
    unfold ReadAllLimit; simpl.
    rewrite decide_False by lia. by rewrite decide_False by lia.
Qed.

End AcceptorShape.

Lemma demo_frames_well_framed : Forall AcceptorCalls.well_framed demo_frames.
Proof.
  repeat constructor; simpl; try (eexists _, _; split; [vm_compute; reflexivity|reflexivity]).
Defined.

Lemma GetNextMessages_frames_witness :
  Forall AcceptorCalls.well_framed demo_frames ∧
  AcceptorCalls.GetNextMessages (length demo_frames)
    {| Acceptor.incoming := AcceptorCalls.wire demo_frames ++ [Byte.x03];
       Acceptor.fate := Acceptor.Silent |}
  = Some ((λ f, (Some (f.1 ++ f.2), None)) <$> demo_frames,
          {| Acceptor.incoming := [Byte.x03]; Acceptor.fate := Acceptor.Silent |}) ∧
  AcceptorCalls.GetNextMessages (S (length demo_frames))
    {| Acceptor.incoming := AcceptorCalls.wire demo_frames; Acceptor.fate := Acceptor.EOF |}
  = Some (((λ f, (Some (f.1 ++ f.2), None)) <$> demo_frames)
            ++ [(None, Some Acceptor.ErrConnectionClosed)],
          {| Acceptor.incoming := []; Acceptor.fate := Acceptor.EOF |}).
Proof.
  split; [exact demo_frames_well_framed|].
  exact (GetNextMessages_frames demo_frames [Byte.x03] Acceptor.Silent demo_frames_well_framed).
Defined.

Lemma GetNextMessage_consumes_witness :
  let tc := {| Acceptor.incoming := AcceptorCalls.wire demo_frames;
               Acceptor.fate := Acceptor.EOF |} in
  let bs := [Byte.x04; Byte.x00; Byte.x00; Byte.x02; Byte.x68; Byte.x69] in
  let tc' := {| Acceptor.incoming := [Byte.x04; Byte.x00; Byte.x00; Byte.x00];
                Acceptor.fate := Acceptor.EOF |} in
  Acceptor.GetNextMessage tc = Some (Some bs, None, tc') ∧
  Acceptor.fate tc' = Acceptor.fate tc ∧
  ∃ used, Acceptor.incoming tc = used ++ Acceptor.incoming tc' ∧
          (@None Acceptor.error = None ∧ bs = used ∧
           ∃ typ size, Codec.ParseHeader (take 4 bs) = (typ, size, None) ∧
                       Z.of_nat (length bs) = Codec.HeadLength + size ∧
                       size ≤ Codec.MaxPacketSize).
Proof.
  intros tc bs tc'. split; [vm_compute; reflexivity|].
  apply (GetNextMessage_consumes tc (Some bs) None tc'). vm_compute; reflexivity.
Defined.

(** ** The client: sending, the limit of requests in flight *)

Section ClientSend.
Import Client ClientCalls.
Variable json_Marshal : BatteryError → list Byte.byte.
Variable Decode : list Byte.byte → option Message * option error.
Variable buildPacket : Message → list Byte.byte * option error.
Implicit Types (c : Client) (m : Message) (p : Packet).

Local Abbreviation reap := (reap json_Marshal).
Local Abbreviation reaperTick := (reaperTick json_Marshal).
Local Abbreviation handlePacket := (handlePacket Decode).
Local Abbreviation sendMsg := (sendMsg buildPacket).
Local Abbreviation SendRequest := (SendRequest buildPacket).
Local Abbreviation SendNotify := (SendNotify buildPacket).
Local Abbreviation step := (step json_Marshal Decode buildPacket).
Local Abbreviation run := (run json_Marshal Decode buildPacket).

(** What [sendMsg] does for a request with a valid route and a free token. *)
Lemma sendMsg_Request_registers route data now wr c r :
  Message.DecodeRoute route = (r, None) →
  (pendingChan c < pendingChan_cap)%nat →
  let id := (nextID c + 1) `mod` 4294967296 in
  let m := {| Type_ := Request; ID := id; Route := r; MData := data; Err := false |} in
  pendingRequests c !! id = None →
  ∃ c', SendRequest route data now wr c
        = Some (id, match (buildPacket m).2 with Some e => Some e | None => wr end, c') ∧
        pendingRequests c' = <[id := {| msg := m; sentAt := now |}]> (pendingRequests c) ∧
        pendingChan c' = S (pendingChan c) ∧
        written c' = written c ++ match (buildPacket m).2 with
                                  | Some _ => []
                                  | None => [(buildPacket m).1]
                                  end ∧
        IncomingMsgChan c' = IncomingMsgChan c ∧
        nextID c' = id ∧
        received c' = received c.
Proof.
  intros Hr Htok id m Hfree. unfold ClientCalls.SendRequest, Client.sendMsg.
  rewrite Hr. fold id. fold m. destruct (buildPacket m) as [pk [e|]]; simpl.
  - rewrite decide_True by done. simpl. rewrite Hfree.
    eexists. split; [done|]. simpl. by rewrite app_nil_r.
  - rewrite decide_True by done. simpl. rewrite Hfree.
    eexists. split; [done|]. done.
Qed.

(** X16: [SendRequest] records the request as pending whether or not it
    is sent. With a valid route, a free token and an identifier that is
    not pending, the request is entered in the table under its identifier
    with the time of the call and a token is taken, also when
    [buildPacket] fails or the write fails; the packet is written only if
    [buildPacket] succeeds, and the error returned is that of
    [buildPacket], else that of the write. *)
Theorem SendRequest_registers route data now wr c r :
  Message.DecodeRoute route = (r, None) →
  (pendingChan c < pendingChan_cap)%nat →
  let id := (nextID c + 1) `mod` 4294967296 in
  let m := {| Type_ := Request; ID := id; Route := r; MData := data; Err := false |} in
  pendingRequests c !! id = None →
  ∃ c', SendRequest route data now wr c
        = Some (id, match (buildPacket m).2 with Some e => Some e | None => wr end, c') ∧
        pendingRequests c' = <[id := {| msg := m; sentAt := now |}]> (pendingRequests c) ∧
        pendingChan c' = S (pendingChan c) ∧
        written c' = written c ++ match (buildPacket m).2 with
                                  | Some _ => []
                                  | None => [(buildPacket m).1]
                                  end ∧
        IncomingMsgChan c' = IncomingMsgChan c ∧
        nextID c' = id.
Proof.
  intros Hr Htok id m Hfree.
  destruct (sendMsg_Request_registers route data now wr c r Hr Htok Hfree)
    as (c' & ? & ? & ? & ? & ? & ? & _).
  by exists c'.
Qed.

(** X17: a call that leaves no trace. With a route that [DecodeRoute]
    rejects, [sendMsg] returns the error of the route at once, for a
    request as for a notify and also when no token is free: nothing is
    written, entered or taken, only the identifier is used up. A notify
    never waits for a token and never changes the table of pending
    requests. *)
Theorem sendMsg_without_trace :
  (∀ msgType route data now wr c r e,
     Message.DecodeRoute route = (r, Some e) →
     sendMsg msgType route data now wr c
     = Some ((nextID c + 1) `mod` 4294967296, Some (ErrRoute e),
             {| Connected := Connected c;
                IncomingMsgChan := IncomingMsgChan c;
                received := received c;
                pendingChan := pendingChan c;
                pendingRequests := pendingRequests c;
                requestTimeout := requestTimeout c;
                nextID := (nextID c + 1) `mod` 4294967296;
                written := written c |})) ∧
  (∀ route data now wr c,
     ∃ err c', SendNotify route data now wr c = Some (err, c') ∧
               pendingRequests c' = pendingRequests c ∧
               pendingChan c' = pendingChan c ∧
               IncomingMsgChan c' = IncomingMsgChan c ∧
               nextID c' = (nextID c + 1) `mod` 4294967296).
Proof.
  split.
  - intros msgType route data now wr c r e Hr. unfold Client.sendMsg. by rewrite Hr.
  - intros route data now wr c. unfold ClientCalls.SendNotify, Client.sendMsg.
    destruct (Message.DecodeRoute route) as [r [e|]]; simpl; [by eexists _, _|].
    match goal with |- context [buildPacket ?m] => destruct (buildPacket m) as [pk [e|]] end;
      simpl; by eexists _, _.
Qed.


Lemma reap_tokens (toDelete : list pendingRequest) :
  ∀ c c', reap toDelete c = Some c' →
          (pendingChan c' + length toDelete = pendingChan c)%nat ∧
          nextID c' = nextID c ∧ written c' = written c ∧ Connected c' = Connected c.
Proof.
  induction toDelete as [|v l IH]; intros c c'; simpl.
  - intros [= <-]. split; [lia|done].
  - unfold forget. destruct (pendingChan c) as [|n] eqn:Hn; [done|]. simpl.
    destruct (deliver _ _) as [c2|] eqn:Hd; simpl; [|done].
    apply deliver_inv in Hd as (_ & _ & _ & _ & Ht2 & Hn2 & _ & Hw2 & Hc2).
    intros Hr. apply IH in Hr as (Ht & ? & ? & ?). simpl in *.
    split; [lia|]. split; [congruence|]. split; congruence.
Qed.

Lemma step_tokens c ev c' :
  step c ev c' → (pendingChan c ≤ pendingChan_cap)%nat → (pendingChan c' ≤ pendingChan_cap)%nat.
Proof.
  intros Hstep Hcap. destruct Hstep as [? ? ? ? ? ? ? ? Hs|? ? Hp|? ? Hr Ht|? ? Hrc].
  - unfold Client.sendMsg in Hs.
    destruct (Message.DecodeRoute route) as [r [e|]]; [by simplify_eq/=|].
    match type of Hs with context [buildPacket ?m] => destruct (buildPacket m) as [pk [e|]] end;
      repeat case_decide; simplify_eq/=; unfold pendingChan_cap in *; lia.
  - unfold Client.handlePacket in Hp. destruct (PType p); try (by simplify_eq/=).
    + destruct (Decode (PData p)) as [[m|] err]; [|done].
      destruct (decide (Type_ m = Response)).
      * destruct (pendingRequests c !! ID m); [|by simplify_eq/=].
        unfold forget in Hp. destruct (pendingChan c) as [|n]; [done|].
        simpl in Hp. apply deliver_inv in Hp as (_ & _ & _ & _ & Ht & _).
        simpl in Ht. lia.
      * apply deliver_inv in Hp as (_ & _ & _ & _ & Ht & _). lia.
    + simplify_eq/=. unfold Disconnect. by destruct (Connected c).
  - apply reap_tokens in Ht as [Ht _]. unfold pendingChan_cap in *. lia.
  - apply receive_inv in Hrc as (_ & _ & _ & _ & Ht & _). lia.
Qed.

(** X19: the limit of requests in flight. In every state that the client
    reaches from its creation, at most 30 requests are pending, and each
    of them holds one of the at most 30 tokens of [pendingChan]. *)
Theorem inflight_limit (reqTimeout : list Z) ids c :
  run (New reqTimeout) ids c →
  (size (pendingRequests c) ≤ pendingChan c ∧ pendingChan c ≤ pendingChan_cap)%nat.
Proof.
  intros Hrun.
  destruct (New_wf reqTimeout) as [Hwf Hacc].
  destruct (run_inv _ _ _ _ _ _ Hrun [] Hwf Hacc) as [Hwf' _].
  split; [apply wf_tokens, Hwf'|].
  assert (pendingChan (New reqTimeout) ≤ pendingChan_cap)%nat as Hcap
    by (unfold pendingChan_cap; simpl; lia).
  clear Hwf Hacc Hwf'. induction Hrun as [c|c ev c1 ids c' Hstep Hrun IH]; [done|].
  apply IH. by eapply step_tokens.
Qed.

End ClientSend.

(** ** The client: responses, ticks and identifiers *)

Lemma NoDup_fst_agree {A B} (l : list (A * B)) k a b :
  NoDup l.*1 → (k, a) ∈ l → (k, b) ∈ l → a = b.
Proof.
  induction l as [|[k' x] l IH]; simpl; intros Hnd Ha Hb; [by apply elem_of_nil in Ha|].
  apply NoDup_cons in Hnd as [Hn Hnd].
  apply elem_of_cons in Ha as [Ha|Ha]; apply elem_of_cons in Hb as [Hb|Hb]; simplify_eq.
  - done.
  - destruct Hn. apply (list_elem_of_fmap_2 fst _ _ Hb).
  - destruct Hn. apply (list_elem_of_fmap_2 fst _ _ Ha).
  - by apply IH.
Qed.

Section ClientReceive.
Import Client ClientCalls.
Variable json_Marshal : BatteryError → list Byte.byte.
Variable Decode : list Byte.byte → option Message * option error.
Variable buildPacket : Message → list Byte.byte * option error.
Implicit Types (c : Client) (m : Message) (p : Packet).

Local Abbreviation timeoutResponse := (timeoutResponse json_Marshal).
Local Abbreviation reap := (reap json_Marshal).
Local Abbreviation reaperTick := (reaperTick json_Marshal).
Local Abbreviation handlePacket := (handlePacket Decode).
Local Abbreviation sendMsg := (sendMsg buildPacket).
Local Abbreviation SendRequest := (SendRequest buildPacket).
Local Abbreviation step := (step json_Marshal Decode buildPacket).
Local Abbreviation run := (run json_Marshal Decode buildPacket).
Local Abbreviation history := (history json_Marshal Decode buildPacket).

(** X20: the response to a pending request. When the table is keyed by
    identifier, every pending request holds a token and [IncomingMsgChan]
    has room, a data packet that decodes to a [Response] for a pending
    identifier is handled without waiting: the message is appended to
    [IncomingMsgChan], the request leaves the table and its token is
    freed; the same packet coming a second time changes nothing. *)
Theorem handlePacket_response c p m err v :
  wf c → PType p = Data → Decode (PData p) = (Some m, err) →
  Type_ m = Response → pendingRequests c !! ID m = Some v →
  (unread c < IncomingMsgChan_cap)%nat →
  ∃ c', handlePacket p c = Some c' ∧
        IncomingMsgChan c' = IncomingMsgChan c ++ [m] ∧
        pendingRequests c' = delete (ID m) (pendingRequests c) ∧
        S (pendingChan c') = pendingChan c ∧
        wf c' ∧
        handlePacket p c' = Some c'.
Proof.
  intros Hwf Hp Hd Hty Hl Hroom. unfold Client.handlePacket. rewrite Hp, Hd.
  rewrite decide_True by done. rewrite Hl.
  assert (0 < size (pendingRequests c))%nat as Hpos.
  { rewrite <- (insert_id _ _ _ Hl), <- insert_delete_eq.
    rewrite map_size_insert_None by apply lookup_delete_eq. lia. }
  pose proof (wf_tokens _ Hwf) as Htok.
  destruct (forget_tokens (ID m) c) as (c1 & Hf & Hp1 & Ht1 & Hi1 & _); [lia|].
  rewrite Hf. simpl.
  assert (wf c1) as Hwf1 by (eapply forget_wf; eauto).
  destruct (forget_channel _ _ _ Hf) as (_ & _ & Hu1).
  destruct (deliver_room m c1) as (c2 & Hdl & Hi2 & _ & Hp2 & Ht2 & _); [lia|].
  exists c2. split; [done|].
  split; [by rewrite Hi2, Hi1|]. split; [by rewrite Hp2, Hp1|].
  split; [by rewrite Ht2|]. split; [by eapply deliver_wf|].
  rewrite decide_True by done. by rewrite Hp2, Hp1, lookup_delete_eq.
Qed.

(** X21: the other packets. For a data packet whose message is not a
    [Response] the handler does the send on [IncomingMsgChan] and nothing
    else, also when [Decode] reports an error with the message: with room
    in the channel the message is appended as it is and the table is not
    touched, and the handler waits while the channel is full. A data
    packet for which [Decode] returns no message stops the handler, which
    reads the type of a nil message; a kick packet clears [Connected] and
    keeps the pending requests and their tokens; a second kick, and the
    packets of the other types, change nothing. *)
Theorem handlePacket_other_packets :
  (∀ c p m err,
     PType p = Data → Decode (PData p) = (Some m, err) → Type_ m ≠ Response →
     handlePacket p c = deliver m c ∧
     ((unread c < IncomingMsgChan_cap)%nat →
      ∃ c', handlePacket p c = Some c' ∧
            IncomingMsgChan c' = IncomingMsgChan c ++ [m] ∧
            pendingRequests c' = pendingRequests c ∧
            pendingChan c' = pendingChan c) ∧
     ((IncomingMsgChan_cap ≤ unread c)%nat → handlePacket p c = None)) ∧
  (∀ c p err,
     PType p = Data → Decode (PData p) = (None, err) → handlePacket p c = None) ∧
  (∀ c p,
     PType p = Kick →
     ∃ c', handlePacket p c = Some c' ∧ Connected c' = false ∧
           pendingRequests c' = pendingRequests c ∧ pendingChan c' = pendingChan c ∧
           IncomingMsgChan c' = IncomingMsgChan c ∧
           handlePacket p c' = Some c') ∧
  (∀ c p, PType p ≠ Data → PType p ≠ Kick → handlePacket p c = Some c).
Proof.
  split; [|split; [|split]].
  - intros c p m err Hp Hd Hty.
    assert (handlePacket p c = deliver m c) as Heq.
    { unfold Client.handlePacket. by rewrite Hp, Hd, decide_False. }
    rewrite Heq. split; [done|]. split.
    + intros Hroom.
      destruct (deliver_room m c Hroom) as (c' & Hdl & Hi & _ & Hpr & Ht & _).
      by exists c'.
    + apply deliver_full.
  - intros c p err Hp Hd. unfold Client.handlePacket. by rewrite Hp, Hd.
  - intros c p Hp. unfold Client.handlePacket. rewrite Hp.
    exists (Disconnect c). split; [done|]. unfold Disconnect.
    destruct (Connected c) eqn:Hc; simpl; [done|]. by rewrite Hc.
  - intros c p Hd Hk. unfold Client.handlePacket. by destruct (PType p).
Qed.

(** X22: a request and its response. Sending a request under a free
    identifier and then handling the response that carries this
    identifier, with room in [IncomingMsgChan], delivers the response and
    leaves the table of pending requests and the tokens as they were
    before the request. *)
Theorem request_response_round_trip route data now wr c r p m err :
  Message.DecodeRoute route = (r, None) →
  (pendingChan c < pendingChan_cap)%nat →
  pendingRequests c !! ((nextID c + 1) `mod` 4294967296) = None →
  PType p = Data → Decode (PData p) = (Some m, err) →
  Type_ m = Response → ID m = (nextID c + 1) `mod` 4294967296 →
  (unread c < IncomingMsgChan_cap)%nat →
  ∃ e c1 c2,
    SendRequest route data now wr c = Some (ID m, e, c1) ∧
    handlePacket p c1 = Some c2 ∧
    IncomingMsgChan c2 = IncomingMsgChan c ++ [m] ∧
    pendingRequests c2 = pendingRequests c ∧
    pendingChan c2 = pendingChan c.
Proof.
  intros Hr Htok Hfree Hp Hd Hty Hid Hroom.
  destruct (sendMsg_Request_registers buildPacket route data now wr c r Hr Htok Hfree)
    as (c1 & Hs & Hp1 & Ht1 & _ & Hi1 & _ & Hr1).
  rewrite <- Hid in *.
  assert (unread c1 = unread c) as Hu1 by (unfold unread; by rewrite Hi1, Hr1).
  destruct (forget_tokens (ID m) c1) as (c1' & Hf & Hp1' & Ht1' & Hi1' & _); [lia|].
  destruct (forget_channel _ _ _ Hf) as (_ & _ & Hu1').
  destruct (deliver_room m c1') as (c2 & Hdl & Hi2 & _ & Hp2 & Ht2 & _); [lia|].
  do 2 eexists. exists c2. split; [exact Hs|].
  unfold Client.handlePacket. rewrite Hp, Hd.
  rewrite decide_True by done. rewrite Hp1, lookup_insert_eq, Hf. simpl.
  split; [done|]. split; [by rewrite Hi2, Hi1', Hi1|].
  split; [rewrite Hp2, Hp1', Hp1; by apply delete_insert_id|]. lia.
Qed.

End ClientReceive.

Section ClientReaper.
Import Client ClientCalls.
Variable json_Marshal : BatteryError → list Byte.byte.
Variable Decode : list Byte.byte → option Message * option error.
Variable buildPacket : Message → list Byte.byte * option error.
Implicit Types (c : Client) (m : Message) (p : Packet).

Local Abbreviation timeoutResponse := (timeoutResponse json_Marshal).
Local Abbreviation reap := (reap json_Marshal).
Local Abbreviation reaperTick := (reaperTick json_Marshal).

(** X23: what a tick of the reaper leaves alone. In a tick that finds
    room in [IncomingMsgChan] for the responses it has to send, a request
    whose age is at most the timeout when it is examined, the timeout
    itself included, stays pending as it is and no message is delivered
    under its identifier; the tick frees as many tokens as it delivers
    messages; and when no request has expired the tick changes nothing. *)
Theorem reaper_spares c visits :
  wf c → ranges_over visits c →
  (unread c + length (collect c visits) ≤ IncomingMsgChan_cap)%nat →
  ∃ c' delivered,
    reaperTick visits c = Some c' ∧
    IncomingMsgChan c' = IncomingMsgChan c ++ delivered ∧
    (∀ k now v,
       (k, now) ∈ visits → pendingRequests c !! k = Some v →
       now - sentAt v ≤ requestTimeout c →
       pendingRequests c' !! k = Some v ∧ filter (λ m, ID m = k) delivered = []) ∧
    (pendingChan c' + length delivered = pendingChan c)%nat ∧
    ((∀ k now v, (k, now) ∈ visits → pendingRequests c !! k = Some v →
                 now - sentAt v ≤ requestTimeout c) →
     c' = c ∧ delivered = []).
Proof.
  intros Hwf Hr Hroom.
  destruct (reaperTick_spec json_Marshal c visits Hwf Hr Hroom)
    as (c' & Ht & Hwf' & Hi & Hp & _).
  exists c', (timeoutResponse <$> collect c visits).
  split; [done|]. split; [done|].
  assert (∀ k now v v',
            (k, now) ∈ visits → pendingRequests c !! k = Some v →
            now - sentAt v ≤ requestTimeout c →
            v' ∈ collect c visits → ID (msg v') ≠ k) as Hspared.
  { intros k now v v' Hin Hl Hyoung Hv' Heq.
    apply collect_elem in Hv' as (k' & now' & Hin' & Hl' & Hexp).
    pose proof (wf_key _ Hwf k' v' Hl') as Hk'. rewrite Heq in Hk'. subst k'.
    rewrite Hl in Hl'. injection Hl' as <-.
    pose proof (NoDup_fst_agree visits k now now' (ranges_over_NoDup _ _ Hr) Hin Hin').
    lia. }
  split; [|split].
  - intros k now v Hin Hl Hyoung. split.
    + rewrite Hp, decide_False; [done|].
      intros (v' & Hk & Hv')%list_elem_of_fmap. simpl in Hk.
      by apply (Hspared k now v v').
    + apply filter_none. intros m' (v' & -> & Hv')%list_elem_of_fmap. simpl.
      by apply (Hspared k now v v').
  - unfold Client.reaperTick in Ht. apply reap_tokens in Ht as [Ht _].
    by rewrite length_fmap.
  - intros Hnone.
    assert (collect c visits = []) as Hnil.
    { destruct (collect c visits) as [|v' l] eqn:Hc; [done|].
      assert (v' ∈ collect c visits) as Hv' by (rewrite Hc; apply list_elem_of_here).
      apply collect_elem in Hv' as (k' & now' & Hin' & Hl' & Hexp).
      specialize (Hnone k' now' v' Hin' Hl'). lia. }
    unfold Client.reaperTick in Ht. rewrite Hnil in *. simpl in Ht.
    injection Ht as <-. done.
Qed.

End ClientReaper.

Section ClientIds.
Import Client ClientCalls.
Variable json_Marshal : BatteryError → list Byte.byte.
Variable Decode : list Byte.byte → option Message * option error.
Variable buildPacket : Message → list Byte.byte * option error.
Implicit Types (c : Client) (m : Message) (p : Packet).

Local Abbreviation step := (step json_Marshal Decode buildPacket).
Local Abbreviation run := (run json_Marshal Decode buildPacket).
Local Abbreviation history := (history json_Marshal Decode buildPacket).

Lemma sends_nonneg (evs : list event) : 0 ≤ sends evs.
Proof. induction evs as [|[]]; simpl; lia. Qed.

Lemma step_nextID c ev c' :
  step c ev c' →
  nextID c' = match ev with
              | EvSend _ _ _ _ _ => (nextID c + 1) `mod` 4294967296
              | _ => nextID c
              end.
Proof.
  intros Hstep. destruct Hstep as [? ? ? ? ? ? ? ? Hs|? ? Hp|? ? Hr Ht|? ? Hrc].
  - unfold Client.sendMsg in Hs.
    destruct (Message.DecodeRoute route) as [r [e|]]; [by simplify_eq/=|].
    match type of Hs with context [buildPacket ?m] => destruct (buildPacket m) as [pk [e|]] end;
      repeat case_decide; by simplify_eq/=.
  - unfold Client.handlePacket in Hp. destruct (PType p); try (by simplify_eq/=).
    + destruct (Decode (PData p)) as [[m|] err]; [|done].
      destruct (decide (Type_ m = Response)).
      * destruct (pendingRequests c !! ID m); [|by simplify_eq/=].
        unfold forget in Hp. destruct (pendingChan c) as [|n]; [done|].
        simpl in Hp. by apply deliver_inv in Hp as (_ & _ & _ & _ & _ & Hn & _).
      * by apply deliver_inv in Hp as (_ & _ & _ & _ & _ & Hn & _).
    + simplify_eq/=. unfold Disconnect. by destruct (Connected c).
  - by apply reap_tokens in Ht as (_ & ? & _).
  - by apply receive_inv in Hrc as (_ & _ & _ & _ & _ & Hn & _).
Qed.

Lemma history_run c evs ids c' : history c evs ids c' → run c ids c'.
Proof.
  induction 1 as [c|c ev c1 evs ids c' Hstep _ IH]; [apply run_done|].
  by eapply run_step.
Qed.

Lemma history_ids c evs ids c' :
  history c evs ids c' → 0 ≤ nextID c → nextID c + sends evs < 4294967296 →
  nextID c' = nextID c + sends evs ∧
  Forall (λ id, nextID c < id ≤ nextID c + sends evs) ids ∧
  NoDup ids.
Proof.
  induction 1 as [c|c ev c1 evs ids c' Hstep _ IH]; intros Hn Hb; simpl in *.
  { split; [lia|]. split; [done|]. apply NoDup_nil_2. }
  pose proof (sends_nonneg evs) as Hs.
  apply step_nextID in Hstep. destruct ev as [msgType route data now wr|p|visits|].
  - rewrite Z.mod_small in Hstep by lia.
    destruct IH as (Hn' & Hall & Hnd); [lia|lia|]. rewrite Hstep in *.
    split; [lia|].
    assert (Forall (λ id, nextID c < id ≤ nextID c + (1 + sends evs)) ids) as Hall'.
    { eapply Forall_impl; [exact Hall|]. simpl. lia. }
    unfold issued. destruct msgType; try (by split).
    destruct (Message.DecodeRoute route) as [r [e|]]; [by split|]. simpl.
    rewrite Z.mod_small by lia. split.
    + constructor; [lia|done].
    + apply NoDup_cons. split; [|done]. intros Hin.
      rewrite Forall_forall in Hall. apply Hall in Hin. lia.
  - destruct IH as (Hn' & Hall & Hnd); [lia|lia|]. rewrite Hstep in *. by split.
  - destruct IH as (Hn' & Hall & Hnd); [lia|lia|]. rewrite Hstep in *. by split.
  - destruct IH as (Hn' & Hall & Hnd); [lia|lia|]. rewrite Hstep in *. by split.
Qed.

(** X24: request identifiers. As long as fewer than 2^32 calls of
    [sendMsg] have been made on a client, the identifiers it has handed
    out to requests are pairwise distinct and lie between 1 and the number
    of calls, the counter [nextID] is that number, and the application has
    been delivered at most one response under each identifier. *)
Theorem request_ids_unique (reqTimeout : list Z) evs ids c :
  history (New reqTimeout) evs ids c → sends evs < 4294967296 →
  NoDup ids ∧
  Forall (λ id, 1 ≤ id ≤ sends evs) ids ∧
  nextID c = sends evs ∧
  ∀ id, (length (responses id (IncomingMsgChan c)) ≤ 1)%nat.
Proof.
  intros Hh Hb.
  destruct (history_ids _ _ _ _ Hh) as (Hn & Hall & Hnd); [simpl; lia|simpl; lia|].
  simpl in *. split; [done|].
  split; [eapply Forall_impl; [exact Hall|]; simpl; lia|]. split; [lia|].
  intros id. destruct (New_wf reqTimeout) as [Hwf Hacc].
  destruct (run_inv _ _ _ _ _ _ (history_run _ _ _ _ Hh) [] Hwf Hacc) as [_ Hacc'].
  specialize (Hacc' id). simpl in Hacc'.
  pose proof (length_filter_eq_NoDup ids id Hnd). lia.
Qed.

End ClientIds.

(** *** The client on concrete inputs, continued *)

Lemma demo_history :
  ClientCalls.history demo_marshal demo_decode demo_build
    (Client.New []) demo_events [1] demo_reaped.
Proof.
  apply (ClientCalls.history_step _ _ _ (Client.New [])
           (Client.EvSend Client.Request "room.join" [] 0 None) demo_sent _ [] demo_reaped).
  { by eapply Client.step_send. }
  apply (ClientCalls.history_step _ _ _ demo_sent
           (Client.EvTick [(1, 6 * Client.second)]) demo_reaped _ [] demo_reaped).
  { apply Client.step_tick; [|reflexivity].
    unfold Client.ranges_over, demo_sent; simpl.
    by rewrite map_to_list_singleton. }
  apply (ClientCalls.history_step _ _ _ demo_reaped
           (Client.EvPacket {| Client.PType := Client.Data; Client.PData := [] |})
           demo_reaped [] [] demo_reaped).
  { apply Client.step_packet. unfold Client.handlePacket, demo_reaped; simpl.
    by rewrite lookup_delete_eq. }
  apply ClientCalls.history_done.
Defined.

Lemma demo_client_young : Client.ranges_over [(1, 5 * Client.second)] demo_client.
Proof.
  unfold Client.ranges_over, demo_client; simpl.
  rewrite map_to_list_singleton. reflexivity.
Defined.

Lemma SendRequest_registers_witness :
  Message.DecodeRoute "room.join" = (demo_route, None) ∧
  (Client.pendingChan (Client.New []) < Client.pendingChan_cap)%nat ∧
  Client.pendingRequests (Client.New []) !! 1 = None ∧
  ∃ c', ClientCalls.SendRequest demo_build "room.join" [] 0 None (Client.New [])
        = Some (1, None, c') ∧
        Client.pendingRequests c' = <[1 := demo_request]> ∅ ∧
        Client.pendingChan c' = 1%nat ∧
        Client.written c' = [[]] ∧
        Client.IncomingMsgChan c' = [] ∧
        Client.nextID c' = 1.
Proof.
  split; [vm_compute; reflexivity|]. split; [unfold Client.pendingChan_cap; simpl; lia|].
  split; [reflexivity|].
  exact (SendRequest_registers demo_build "room.join" [] 0 None (Client.New []) demo_route
           ltac:(vm_compute; reflexivity)
           ltac:(unfold Client.pendingChan_cap; simpl; lia)
           ltac:(reflexivity)).
Defined.


Lemma inflight_limit_witness :
  Client.run demo_marshal demo_decode demo_build (Client.New []) [1] demo_reaped ∧
  (size (Client.pendingRequests demo_reaped) ≤ Client.pendingChan demo_reaped ∧
   Client.pendingChan demo_reaped ≤ Client.pendingChan_cap)%nat.
Proof.
  split; [exact (history_run _ _ _ _ _ _ _ demo_history)|].
  exact (inflight_limit demo_marshal demo_decode demo_build [] [1] demo_reaped
           (history_run _ _ _ _ _ _ _ demo_history)).
Defined.

Lemma handlePacket_response_witness :
  let p := {| Client.PType := Client.Data; Client.PData := [] |} in
  let m := {| Client.Type_ := Client.Response; Client.ID := 1;
              Client.Route := demo_route; Client.MData := []; Client.Err := false |} in
  Client.wf demo_client ∧ Client.PType p = Client.Data ∧
  demo_decode (Client.PData p) = (Some m, None) ∧
  Client.Type_ m = Client.Response ∧
  Client.pendingRequests demo_client !! Client.ID m = Some demo_request ∧
  (Client.unread demo_client < Client.IncomingMsgChan_cap)%nat ∧
  ∃ c', Client.handlePacket demo_decode p demo_client = Some c' ∧
        Client.IncomingMsgChan c' = Client.IncomingMsgChan demo_client ++ [m] ∧
        Client.pendingRequests c' = delete (Client.ID m) (Client.pendingRequests demo_client) ∧
        S (Client.pendingChan c') = Client.pendingChan demo_client ∧
        Client.wf c' ∧
        Client.handlePacket demo_decode p c' = Some c'.
Proof.
  intros p m. split; [exact demo_client_wf|]. split; [reflexivity|].
  split; [reflexivity|]. split; [reflexivity|]. split; [reflexivity|].
  split; [vm_compute; lia|].
  exact (handlePacket_response demo_decode demo_client p m None demo_request
           demo_client_wf eq_refl eq_refl eq_refl eq_refl ltac:(vm_compute; lia)).
Defined.

Lemma request_response_round_trip_witness :
  let p := {| Client.PType := Client.Data; Client.PData := [] |} in
  let m := {| Client.Type_ := Client.Response; Client.ID := 1;
              Client.Route := demo_route; Client.MData := []; Client.Err := false |} in
  Message.DecodeRoute "room.join" = (demo_route, None) ∧
  (Client.pendingChan (Client.New []) < Client.pendingChan_cap)%nat ∧
  (Client.unread (Client.New []) < Client.IncomingMsgChan_cap)%nat ∧
  ∃ e c1 c2,
    ClientCalls.SendRequest demo_build "room.join" [] 0 None (Client.New [])
    = Some (Client.ID m, e, c1) ∧
    Client.handlePacket demo_decode p c1 = Some c2 ∧
    Client.IncomingMsgChan c2 = Client.IncomingMsgChan (Client.New []) ++ [m] ∧
    Client.pendingRequests c2 = Client.pendingRequests (Client.New []) ∧
    Client.pendingChan c2 = Client.pendingChan (Client.New []).
Proof.
  intros p m. split; [vm_compute; reflexivity|].
  split; [unfold Client.pendingChan_cap; simpl; lia|].
  split; [vm_compute; lia|].
  exact (request_response_round_trip demo_decode demo_build "room.join" [] 0 None
           (Client.New []) demo_route p m None
           ltac:(vm_compute; reflexivity)
           ltac:(unfold Client.pendingChan_cap; simpl; lia)
           ltac:(reflexivity) eq_refl eq_refl eq_refl eq_refl
           ltac:(vm_compute; lia)).
Defined.

Lemma demo_client_young_room :
  (Client.unread demo_client
   + length (Client.collect demo_client [(1, 5 * Client.second)%Z])
   ≤ Client.IncomingMsgChan_cap)%nat.
Proof. vm_compute. lia. Defined.

Lemma reaper_spares_witness :
  Client.wf demo_client ∧
  Client.ranges_over [(1, 5 * Client.second)] demo_client ∧
  (Client.unread demo_client
   + length (Client.collect demo_client [(1, 5 * Client.second)%Z])
   ≤ Client.IncomingMsgChan_cap)%nat ∧
  ∃ c' delivered,
    Client.reaperTick demo_marshal [(1, 5 * Client.second)] demo_client = Some c' ∧
    Client.IncomingMsgChan c' = Client.IncomingMsgChan demo_client ++ delivered ∧
    (∀ k now v,
       (k, now) ∈ [(1, 5 * Client.second)] →
       Client.pendingRequests demo_client !! k = Some v →
       now - Client.sentAt v ≤ Client.requestTimeout demo_client →
       Client.pendingRequests c' !! k = Some v ∧
       filter (λ m, Client.ID m = k) delivered = []) ∧
    (Client.pendingChan c' + length delivered = Client.pendingChan demo_client)%nat ∧
    ((∀ k now v, (k, now) ∈ [(1, 5 * Client.second)] →
                 Client.pendingRequests demo_client !! k = Some v →
                 now - Client.sentAt v ≤ Client.requestTimeout demo_client) →
     c' = demo_client ∧ delivered = []).
Proof.
  split; [exact demo_client_wf|]. split; [exact demo_client_young|].
  split; [exact demo_client_young_room|].
  exact (reaper_spares demo_marshal demo_client [(1, 5 * Client.second)]
           demo_client_wf demo_client_young demo_client_young_room).
Defined.

Lemma request_ids_unique_witness :
  ClientCalls.history demo_marshal demo_decode demo_build
    (Client.New []) demo_events [1] demo_reaped ∧
  ClientCalls.sends demo_events < 4294967296 ∧
  NoDup [1] ∧
  Forall (λ id, 1 ≤ id ≤ ClientCalls.sends demo_events) [1] ∧
  Client.nextID demo_reaped = ClientCalls.sends demo_events ∧
  ∀ id, (length (Client.responses id (Client.IncomingMsgChan demo_reaped)) ≤ 1)%nat.
Proof.
  split; [exact demo_history|]. split; [simpl; lia|].
  exact (request_ids_unique demo_marshal demo_decode demo_build [] demo_events [1] demo_reaped
           demo_history ltac:(simpl; lia)).
Defined.

(** ** The actor process *)

Section ActorProcFacts.
Import ActorProc.
Context `{Mailbox M MessageEnvelope SystemMessage}.
Variable stopMessage : SystemMessage.

Local Abbreviation Stop := (Stop stopMessage).
Local Abbreviation run := (run stopMessage).
Local Abbreviation posted := (posted stopMessage).

(** X25: an [ActorProcess] passes everything on to its mailbox. Each
    call posts exactly one message, in the order of the calls: a user
    message as a user message, a system message as a system message, and
    [Stop] the message [stopMessage] as a system message. The flag [dead]
    is set by [Stop] and by nothing else, it is never cleared, and it is
    not consulted: calls made after [Stop] are posted like the others. *)
Theorem ActorProcess_forwards (calls : list call) (ref : ActorProcess) :
  mailbox (run calls ref) = foldl deliver (mailbox ref) (posted <$> calls) ∧
  dead (run calls ref) = if existsb is_stop calls then 1 else dead ref.
Proof.
  revert ref. induction calls as [|c calls IH]; intros ref; [done|].
  unfold ActorProc.run in *. simpl. destruct (IH (do_call stopMessage ref c)) as [-> ->].
  split; [by destruct c|]. destruct c; simpl; [done|done|by destruct (existsb is_stop calls)].
Qed.

End ActorProcFacts.

(** With the mailbox that keeps its posts: what is posted when messages
    are sent before and after [Stop]. *)
Example ActorProcess_recorder (pid : Actor.PID) :
  ActorProc.run "stop"%string
    [ActorProc.CallSendUserMessage pid 1%nat; ActorProc.CallStop pid;
     ActorProc.CallSendUserMessage pid 2%nat]
    (ActorProc.NewActorProcess [])
  = {| ActorProc.mailbox := [ActorProc.User 1%nat; ActorProc.System "stop"%string;
                             ActorProc.User 2%nat];
       ActorProc.dead := 1 |}.
Proof. reflexivity. Qed.

(** ** The client: a request that was never sent *)

Section ClientUnsent.
Import Client ClientCalls.
Variable json_Marshal : BatteryError → list Byte.byte.
Variable Decode : list Byte.byte → option Message * option error.
Variable buildPacket : Message → list Byte.byte * option error.
Implicit Types (c : Client) (m : Message) (p : Packet).

Local Abbreviation timeoutResponse := (timeoutResponse json_Marshal).
Local Abbreviation reaperTick := (reaperTick json_Marshal).
Local Abbreviation SendRequest := (SendRequest buildPacket).

(** X26: a request that could not be encoded is still answered. When
    [buildPacket] fails, [SendRequest] returns its error and writes
    nothing, yet the request is pending: the first tick of the reaper that
    finds it older than the timeout, and finds room in [IncomingMsgChan]
    for its responses, delivers the [PIT-504] response under its
    identifier, once, and removes it. *)
Theorem unsent_request_times_out route data now wr c r e visits t :
  wf c →
  Message.DecodeRoute route = (r, None) →
  (pendingChan c < pendingChan_cap)%nat →
  let id := (nextID c + 1) `mod` 4294967296 in
  let m := {| Type_ := Request; ID := id; Route := r; MData := data; Err := false |} in
  pendingRequests c !! id = None →
  (buildPacket m).2 = Some e →
  visits.*1 ≡ₚ (map_to_list (<[id := {| msg := m; sentAt := now |}]> (pendingRequests c))).*1 →
  (id, t) ∈ visits →
  t - now > requestTimeout c →
  (unread c + length visits ≤ IncomingMsgChan_cap)%nat →
  ∃ c1 c2 delivered,
    SendRequest route data now wr c = Some (id, Some e, c1) ∧
    written c1 = written c ∧
    reaperTick visits c1 = Some c2 ∧
    IncomingMsgChan c2 = IncomingMsgChan c ++ delivered ∧
    filter (λ m', ID m' = id) delivered
    = [ {| Type_ := Response; ID := id; Route := r;
           MData := json_Marshal (battery_Error "request timeout" "PIT-504");
           Err := true |} ] ∧
    pendingRequests c2 !! id = None.
Proof.
  intros Hwf Hr Htok id m Hfree Hb Hvis Hin Hexp Hroom.
  destruct (sendMsg_Request_registers buildPacket route data now wr c r Hr Htok Hfree)
    as (c1 & Hs & Hp1 & Ht1 & Hw1 & Hi1 & Hn1 & Hr1).
  change ((nextID c + 1) `mod` 4294967296) with id in Hs, Hp1, Hn1, Hw1.
  change {| Type_ := Request; ID := id; Route := r; MData := data; Err := false |}
    with m in Hs, Hp1, Hw1.
  rewrite Hb in Hs, Hw1. rewrite app_nil_r in Hw1.
  set (v := {| msg := m; sentAt := now |}) in *.
  assert (requestTimeout c1 = requestTimeout c) as Hrt.
  { clear Hw1 Hp1. unfold ClientCalls.SendRequest, Client.sendMsg in Hs. rewrite Hr in Hs.
    destruct (buildPacket _) as [pk [e'|]]; simpl in Hs; repeat case_decide; by simplify_eq/=. }
  assert (unread c1 = unread c) as Hu1 by (unfold unread; by rewrite Hi1, Hr1).
  assert (wf c1) as Hwf1.
  { destruct Hwf as [Hkey Htk Hrec Hun]. constructor.
    - intros k v'. rewrite Hp1. intros [[<- <-]|[Hne Hl]]%lookup_insert_Some; [done|].
      by apply Hkey.
    - rewrite Hp1, Ht1, map_size_insert_None by done. lia.
    - by rewrite Hi1, Hr1.
    - by rewrite Hu1. }
  assert (ranges_over visits c1) as Hro by (unfold ranges_over; by rewrite Hp1).
  assert (length (collect c1 visits) ≤ length visits)%nat as Hlen.
  { pose proof (sublist_length _ _ (collect_ids_sublist c1 visits Hwf1)) as Hsub.
    by rewrite !length_fmap in Hsub. }
  destruct (reaperTick_spec json_Marshal c1 visits Hwf1 Hro) as (c2 & Htick & _ & Hi2 & Hp2 & _);
    [lia|].
  assert (pendingRequests c1 !! id = Some v) as Hl by (rewrite Hp1; apply lookup_insert_eq).
  assert (v ∈ collect c1 visits) as Hv.
  { apply collect_elem. exists id, t. split; [done|]. split; [done|]. simpl. lia. }
  exists c1, c2, (timeoutResponse <$> collect c1 visits).
  split; [done|]. split; [done|]. split; [done|]. split; [by rewrite Hi2, Hi1|]. split.
  - change id with (ID (msg v)). rewrite filter_timeoutResponse; [done| |done].
    eapply sublist_NoDup; [by eapply ranges_over_NoDup|by apply collect_ids_sublist].
  - rewrite Hp2, decide_True; [done|].
    change id with ((ID ∘ msg) v). by apply list_elem_of_fmap_2.
Qed.

End ClientUnsent.

Lemma demo_unsent_visits :
  [(1, 6 * Client.second)].*1
  ≡ₚ (map_to_list (<[1 := demo_request]> (Client.pendingRequests (Client.New [])))).*1.
Proof.
  simpl. rewrite insert_empty, map_to_list_singleton. reflexivity.
Defined.

Lemma unsent_request_times_out_witness :
  Client.wf (Client.New []) ∧
  Message.DecodeRoute "room.join" = (demo_route, None) ∧
  (Client.pendingChan (Client.New []) < Client.pendingChan_cap)%nat ∧
  (demo_build_fail (Client.msg demo_request)).2 = Some (Client.ErrEncode 1) ∧
  6 * Client.second - 0 > Client.requestTimeout (Client.New []) ∧
  (Client.unread (Client.New []) + length [(1, 6 * Client.second)%Z]
   ≤ Client.IncomingMsgChan_cap)%nat ∧
  ∃ c1 c2 delivered,
    ClientCalls.SendRequest demo_build_fail "room.join" [] 0 None (Client.New [])
    = Some (1, Some (Client.ErrEncode 1), c1) ∧
    Client.written c1 = [] ∧
    Client.reaperTick demo_marshal [(1, 6 * Client.second)] c1 = Some c2 ∧
    Client.IncomingMsgChan c2 = [] ++ delivered ∧
    filter (λ m', Client.ID m' = 1) delivered
    = [ {| Client.Type_ := Client.Response; Client.ID := 1; Client.Route := demo_route;
           Client.MData := demo_marshal (Client.battery_Error "request timeout" "PIT-504");
           Client.Err := true |} ] ∧
    Client.pendingRequests c2 !! 1 = None.
Proof.
  split; [apply (New_wf [])|]. split; [vm_compute; reflexivity|].
  split; [unfold Client.pendingChan_cap; simpl; lia|]. split; [reflexivity|].
  split; [vm_compute; reflexivity|]. split; [vm_compute; lia|].
  exact (unsent_request_times_out demo_marshal demo_build_fail "room.join" [] 0 None
           (Client.New []) demo_route (Client.ErrEncode 1) [(1, 6 * Client.second)]
           (6 * Client.second)
           (proj1 (New_wf []))
           ltac:(vm_compute; reflexivity)
           ltac:(unfold Client.pendingChan_cap; simpl; lia)
           ltac:(reflexivity) ltac:(reflexivity)
           demo_unsent_visits
           ltac:(apply list_elem_of_here)
           ltac:(vm_compute; reflexivity)
           ltac:(vm_compute; lia)).
Defined.
